(** * E20 processor simulator: a shallow embedding and its properties

    The development follows the two C++ programs of the repository:
    - [e20_sim.cpp]: the plain fetch-decode-execute loop (module [Plain]);
    - [e20_sim_cache.cpp]: the same loop driving a one- or two-level
      set-associative cache model (module [Cached]).

    Words are [uint16_t] in the source.  They are modelled as [Z] and every
    conversion back to 16 bits is written out with [u16].  Fixed-size arrays
    are lists read and updated by index. *)

From Stdlib Require Import ZArith Lia String Ascii.
From stdpp Require Import base option list.

Local Open Scope Z_scope.

(** ** Constants and machine words *)

Definition NUM_REGS : Z := 8.
Definition MEM_SIZE : Z := Z.shiftl 1 13.
Definition REG_SIZE : Z := Z.shiftl 1 16.

(** Conversion of an [int] (or [size_t]) value to [uint16_t]. *)
Definition u16 (x : Z) : Z := x mod 65536.
Arguments u16 : simpl never.

(** [a[i]] on a [uint16_t] array.  Every index the programs use is masked
    or reduced below the array length, so the default is never returned on
    an array of the declared size. *)
Definition aget (a : list Z) (i : Z) : Z := default 0 (a !! Z.to_nat i).

(** [a[i] = v]. *)
Definition aset (a : list Z) (i v : Z) : list Z := <[Z.to_nat i := v]> a.

(** [sign_extend7_func]: the argument is updated in place in the source;
    here the new value is returned. *)
Definition sign_extend7_func (imm7 : Z) : Z :=
  if Z.shiftr imm7 6 =? 1 then Z.lor imm7 65408 else imm7.

(** The architectural state the loop works on: [pc], [regs_arr] and
    [memory_arr]. *)
Record state := State { pc : Z; regs_arr : list Z; memory_arr : list Z }.

(** The arrays have their declared sizes and hold 16-bit values. *)
Definition word (x : Z) : Prop := 0 <= x < 65536.

Definition state_wf (s : state) : Prop :=
  word (pc s) /\
  length (regs_arr s) = Z.to_nat NUM_REGS /\ Forall word (regs_arr s) /\
  length (memory_arr s) = Z.to_nat MEM_SIZE /\ Forall word (memory_arr s).

(** ** The plain simulator, [e20_sim.cpp] *)

Module Plain.

(** The body of the [while (!halt)] loop of [main] after the fetch:
    decode [instruction] and dispatch on the opcode.  The result is the
    new state and the value of [halt] at the end of the iteration. *)
Definition execute (instruction : Z) (s : state) : state * bool :=
  let pc := pc s in
  let regs_arr := regs_arr s in
  let memory_arr := memory_arr s in
  let opcode := Z.shiftr instruction 13 in
  let bits10_12 := Z.land (Z.shiftr instruction 10) 7 in
  let bits7_9 := Z.land (Z.shiftr instruction 7) 7 in
  let bits4_6 := Z.land (Z.shiftr instruction 4) 7 in
  let bits0_3 := Z.land instruction 15 in
  let bits0_6 := sign_extend7_func (Z.land instruction 127) in
  let bits0_12 := Z.land instruction 8191 in
  if opcode =? 0 then
    let '(regs_arr, pc) :=
      if bits0_3 =? 0 then
        (aset regs_arr bits4_6
           (u16 (aget regs_arr bits10_12 + aget regs_arr bits7_9)),
         u16 (pc + 1))
      else if bits0_3 =? 1 then
        (aset regs_arr bits4_6
           (u16 (aget regs_arr bits10_12 - aget regs_arr bits7_9)),
         u16 (pc + 1))
      else if bits0_3 =? 2 then
        (aset regs_arr bits4_6
           (Z.lor (aget regs_arr bits10_12) (aget regs_arr bits7_9)),
         u16 (pc + 1))
      else if bits0_3 =? 3 then
        (aset regs_arr bits4_6
           (Z.land (aget regs_arr bits10_12) (aget regs_arr bits7_9)),
         u16 (pc + 1))
      else if bits0_3 =? 4 then
        (aset regs_arr bits4_6
           (if aget regs_arr bits10_12 <? aget regs_arr bits7_9
            then 1 else 0),
         u16 (pc + 1))
      else if bits0_3 =? 8 then
        (regs_arr, aget regs_arr bits10_12)
      else (regs_arr, pc) in
    (State pc (aset regs_arr 0 0) memory_arr, false)
  else if opcode =? 1 then
    let regs_arr :=
      aset regs_arr bits7_9 (u16 (aget regs_arr bits10_12 + bits0_6)) in
    (State (u16 (pc + 1)) (aset regs_arr 0 0) memory_arr, false)
  else if opcode =? 2 then
    (State bits0_12 regs_arr memory_arr, pc =? bits0_12)
  else if opcode =? 3 then
    (State bits0_12 (aset regs_arr 7 (u16 (pc + 1))) memory_arr, false)
  else if opcode =? 4 then
    let address := (aget regs_arr bits10_12 + bits0_6) mod MEM_SIZE in
    let regs_arr := aset regs_arr bits7_9 (aget memory_arr address) in
    (State (u16 (pc + 1)) (aset regs_arr 0 0) memory_arr, false)
  else if opcode =? 5 then
    let address := (aget regs_arr bits10_12 + bits0_6) mod MEM_SIZE in
    (State (u16 (pc + 1)) regs_arr
       (aset memory_arr address (aget regs_arr bits7_9)), false)
  else if opcode =? 6 then
    if aget regs_arr bits10_12 =? aget regs_arr bits7_9
    then (State (u16 (pc + 1 + bits0_6)) regs_arr memory_arr, false)
    else (State (u16 (pc + 1)) regs_arr memory_arr, false)
  else if opcode =? 7 then
    let regs_arr :=
      aset regs_arr bits7_9
        (if aget regs_arr bits10_12 <? bits0_6 then 1 else 0) in
    (State (u16 (pc + 1)) (aset regs_arr 0 0) memory_arr, false)
  else (s, false).

(** One iteration of the loop: fetch at [pc % MEM_SIZE], then execute. *)
Definition iteration (s : state) : state * bool :=
  let index := pc s mod MEM_SIZE in
  execute (aget (memory_arr s) index) s.

(** The loop itself.  [None] means that [halt] was not set within [fuel]
    iterations. *)
Fixpoint run (fuel : nat) (s : state) : option state :=
  match fuel with
  | O => None
  | S fuel =>
      let '(s', halt) := iteration s in
      if halt then Some s' else run fuel s'
  end.

(** [main] from the initialisation of [pc] and the registers on;
    [memory_arr] is the memory after [load_machine_code]. *)
Definition main (fuel : nat) (memory_arr : list Z) : option state :=
  let pc := 0 in
  let regs_arr := replicate (Z.to_nat NUM_REGS) 0 in
  run fuel (State pc regs_arr memory_arr).

End Plain.

(** ** The simulator with caches, [e20_sim_cache.cpp] *)

(** How a computation of the cache program ends.  [Undefined] stands for
    the places where the C++ program has no defined result: a division by
    zero, signed overflow, an index outside a vector, [erase] on an empty
    vector, or an exception nobody catches.  Inside the helpers these are
    [None] in the [option] monad. *)
Inductive outcome (A : Type) : Type :=
  | Returned (a : A)
  | OutOfFuel
  | Undefined.
Arguments Returned {A} a.
Arguments OutOfFuel {A}.
Arguments Undefined {A}.

Definition of_option {A} (o : option A) : outcome A :=
  match o with Some a => Returned a | None => Undefined end.

Definition outcome_bind {A B} (m : outcome A) (f : A -> outcome B)
  : outcome B :=
  match m with
  | Returned a => f a
  | OutOfFuel => OutOfFuel
  | Undefined => Undefined
  end.

(** Arithmetic on [int], as the usual conversions make it happen in
    [cache_func] and [main]. *)
Definition int_range (x : Z) : Prop := - 2 ^ 31 <= x < 2 ^ 31.

Definition int_mul (a b : Z) : option Z :=
  if decide (int_range (a * b)) then Some (a * b) else None.

Definition int_div (a b : Z) : option Z :=
  if decide (b = 0 \/ (a = - 2 ^ 31 /\ b = -1)) then None
  else Some (Z.quot a b).

Definition int_rem (a b : Z) : option Z :=
  if decide (b = 0 \/ (a = - 2 ^ 31 /\ b = -1)) then None
  else Some (Z.rem a b).

Module Cached.

Record Block := { tag : Z }.

(** [Block()]: the member initialiser [uint16_t tag = -1]. *)
Definition Block_new : Block := {| tag := u16 (-1) |}.

Record Row := { blocks_vec : list Block; associativity : Z }.

Record Level := { rows_vec : list Row; blocksize : Z }.

Record Cache := { levels_vec : list Level }.

(** What the program writes to [cout], in order: [print_cache_config] and
    [print_log_entry] calls with their arguments. *)
Inductive output : Type :=
  | Cache_config (cache_name : string) (size assoc blocksize num_rows : Z)
  | Log_entry (cache_name status : string) (pc addr row : Z).

(** [vector<Block>(associativity)] followed by the two assignments of the
    constructor's loop body.  A negative count is converted to a huge
    [size_t] and the vector constructor throws. *)
Definition Row_new (associativity : Z) : option Row :=
  if decide (associativity < 0) then None
  else Some {| blocks_vec := replicate (Z.to_nat associativity) Block_new;
               associativity := associativity |}.

(** The loop of the [Level] constructor: [n] iterations still to do,
    [rows_vec] built so far. *)
Fixpoint Level_rows (n : nat) (associativity : Z) (rows_vec : list Row)
  : option (list Row) :=
  match n with
  | O => Some rows_vec
  | S n =>
      new_row ← Row_new associativity;
      Level_rows n associativity (rows_vec ++ [new_row])
  end.

Definition Level_new (cache_size num_of_rows associativity blocksize : Z)
  : option Level :=
  rows_vec ← Level_rows (Z.to_nat num_of_rows) associativity [];
  Some {| rows_vec := rows_vec; blocksize := blocksize |}.

(** [a_cache.levels_vec[lv].rows_vec[rw].blocks_vec], read. *)
Definition blocks_at (a_cache : Cache) (lv : nat) (rw : Z)
  : option (list Block) :=
  level ← levels_vec a_cache !! lv;
  row ← rows_vec level !! Z.to_nat rw;
  Some (blocks_vec row).

(** The same vector, replaced by [blocks] after [erase] and [push_back]. *)
Definition set_blocks_at (a_cache : Cache) (lv : nat) (rw : Z)
    (blocks : list Block) : Cache :=
  {| levels_vec :=
       alter (fun level =>
                {| rows_vec :=
                     alter (fun row =>
                              {| blocks_vec := blocks;
                                 associativity := associativity row |})
                           (Z.to_nat rw) (rows_vec level);
                   blocksize := blocksize level |})
             lv (levels_vec a_cache) |}.

(** The search loop of [cache_func] (once for L1, once for L2): the first
    index [i], counted from the start value, whose block carries the tag;
    [None] when the loop ends with [tag_was_found] still false. *)
Fixpoint find_tag (blocks_vec : list Block) (the_tag : Z) (i : nat)
  : option nat :=
  match blocks_vec with
  | [] => None
  | b :: rest =>
      if tag b =? the_tag then Some i else find_tag rest the_tag (S i)
  end.

(** The update of a row in [cache_func] (once for L1, once for L2):
    [erase] at the index found, or at [begin()], then [push_back] of a
    block with the tag. *)
Definition update_row (blocks_vec : list Block) (found : option nat)
    (the_tag : Z) : option (list Block) :=
  match found with
  | Some i => Some (delete i blocks_vec ++ [{| tag := the_tag |}])
  | None =>
      match blocks_vec with
      | [] => None
      | _ :: _ => Some (delete 0%nat blocks_vec ++ [{| tag := the_tag |}])
      end
  end.

(** The status printed for a level. *)
Definition status_of (is_store_word : bool) (found : option nat) : string :=
  if is_store_word then "SW"%string
  else match found with Some _ => "HIT"%string | None => "MISS"%string end.

(** The condition under which [cache_func] goes on to L2:
    [levels_vec.size() == 2 && (!l1tag_was_found || is_store_word)]. *)
Definition probes_l2 (a_cache : Cache) (l1found : option nat)
    (is_store_word : bool) : bool :=
  bool_decide (length (levels_vec a_cache) = 2%nat)
  && (negb (bool_decide (is_Some l1found)) || is_store_word).

(** Rows, block id, row number and tag of one level, in [uint16_t]
    variables, from the three numbers of its configuration. *)
Definition locate (size assoc blocksize address : Z) : option (Z * Z) :=
  let size := u16 size in
  let assoc := u16 assoc in
  let blocksize := u16 blocksize in
  d ← int_mul assoc blocksize;
  rows ← u16 <$> int_div size d;
  blockid ← u16 <$> int_div address blocksize;
  row_num ← u16 <$> int_rem blockid rows;
  the_tag ← u16 <$> int_div blockid rows;
  Some (row_num, the_tag).

(** The first part of [cache_func], "Extract all possible Cache
    information": [l1row_num], [l1tag], [l2row_num] and [l2tag], which stay
    0 where [parts] does not set them. *)
Definition addressing (parts : list Z) (address : Z)
  : option (Z * Z * Z * Z) :=
  match parts with
  | [l1size; l1assoc; l1blocksize] =>
      '(l1row_num, l1tag) ← locate l1size l1assoc l1blocksize address;
      Some (l1row_num, l1tag, 0, 0)
  | [l1size; l1assoc; l1blocksize; l2size; l2assoc; l2blocksize] =>
      '(l1row_num, l1tag) ← locate l1size l1assoc l1blocksize address;
      '(l2row_num, l2tag) ← locate l2size l2assoc l2blocksize address;
      Some (l1row_num, l1tag, l2row_num, l2tag)
  | _ => Some (0, 0, 0, 0)
  end.

Definition cache_func (address index : Z) (a_cache : Cache)
    (parts : list Z) (is_store_word : bool)
  : option (Cache * list output) :=
  '(l1row_num, l1tag, l2row_num, l2tag) ← addressing parts address;
  l1blocks ← blocks_at a_cache 0 l1row_num;
  let l1found := find_tag l1blocks l1tag 0 in
  let l1log :=
    Log_entry "L1" (status_of is_store_word l1found)
      index address l1row_num in
  l1blocks ← update_row l1blocks l1found l1tag;
  let a_cache := set_blocks_at a_cache 0 l1row_num l1blocks in
  if probes_l2 a_cache l1found is_store_word
  then
    l2blocks ← blocks_at a_cache 1 l2row_num;
    let l2found := find_tag l2blocks l2tag 0 in
    let l2log :=
      Log_entry "L2" (status_of is_store_word l2found)
        index address l2row_num in
    l2blocks ← update_row l2blocks l2found l2tag;
    let a_cache := set_blocks_at a_cache 1 l2row_num l2blocks in
    Some (a_cache, [l1log; l2log])
  else Some (a_cache, [l1log]).

(** What [run_e20_simulator] works on: the architectural state, the cache
    and the lines printed so far. *)
Record sim := Sim { arch : state; a_cache : Cache; out : list output }.

(** The body of the loop of [run_e20_simulator] after the fetch. *)
Definition execute (parts : list Z) (instruction : Z) (s : sim)
  : option (sim * bool) :=
  let pc := pc (arch s) in
  let regs_arr := regs_arr (arch s) in
  let memory_arr := memory_arr (arch s) in
  let index := pc mod MEM_SIZE in
  let opcode := Z.shiftr instruction 13 in
  let bits10_12 := Z.land (Z.shiftr instruction 10) 7 in
  let bits7_9 := Z.land (Z.shiftr instruction 7) 7 in
  let bits4_6 := Z.land (Z.shiftr instruction 4) 7 in
  let bits0_3 := Z.land instruction 15 in
  let bits0_6 := sign_extend7_func (Z.land instruction 127) in
  let bits0_12 := Z.land instruction 8191 in
  let same_cache (st : state) (halt : bool) :=
    Some (Sim st (a_cache s) (out s), halt) in
  if opcode =? 0 then
    let '(regs_arr, pc) :=
      if bits0_3 =? 0 then
        (aset regs_arr bits4_6
           (u16 (aget regs_arr bits10_12 + aget regs_arr bits7_9)),
         u16 (pc + 1))
      else if bits0_3 =? 1 then
        (aset regs_arr bits4_6
           (u16 (aget regs_arr bits10_12 - aget regs_arr bits7_9)),
         u16 (pc + 1))
      else if bits0_3 =? 2 then
        (aset regs_arr bits4_6
           (Z.lor (aget regs_arr bits10_12) (aget regs_arr bits7_9)),
         u16 (pc + 1))
      else if bits0_3 =? 3 then
        (aset regs_arr bits4_6
           (Z.land (aget regs_arr bits10_12) (aget regs_arr bits7_9)),
         u16 (pc + 1))
      else if bits0_3 =? 4 then
        (aset regs_arr bits4_6
           (if aget regs_arr bits10_12 <? aget regs_arr bits7_9
            then 1 else 0),
         u16 (pc + 1))
      else if bits0_3 =? 8 then
        (regs_arr, aget regs_arr bits10_12)
      else (regs_arr, pc) in
    same_cache (State pc (aset regs_arr 0 0) memory_arr) false
  else if opcode =? 1 then
    let regs_arr :=
      aset regs_arr bits7_9 (u16 (aget regs_arr bits10_12 + bits0_6)) in
    same_cache (State (u16 (pc + 1)) (aset regs_arr 0 0) memory_arr) false
  else if opcode =? 2 then
    same_cache (State bits0_12 regs_arr memory_arr) (pc =? bits0_12)
  else if opcode =? 3 then
    same_cache
      (State bits0_12 (aset regs_arr 7 (u16 (pc + 1))) memory_arr) false
  else if opcode =? 4 then
    let address := (aget regs_arr bits10_12 + bits0_6) mod MEM_SIZE in
    '(a_cache', entries) ← cache_func address index (a_cache s) parts false;
    let regs_arr := aset regs_arr bits7_9 (aget memory_arr address) in
    Some (Sim (State (u16 (pc + 1)) (aset regs_arr 0 0) memory_arr)
              a_cache' (out s ++ entries), false)
  else if opcode =? 5 then
    let address := (aget regs_arr bits10_12 + bits0_6) mod MEM_SIZE in
    '(a_cache', entries) ← cache_func address index (a_cache s) parts true;
    Some (Sim (State (u16 (pc + 1)) regs_arr
                 (aset memory_arr address (aget regs_arr bits7_9)))
              a_cache' (out s ++ entries), false)
  else if opcode =? 6 then
    if aget regs_arr bits10_12 =? aget regs_arr bits7_9
    then same_cache (State (u16 (pc + 1 + bits0_6)) regs_arr memory_arr) false
    else same_cache (State (u16 (pc + 1)) regs_arr memory_arr) false
  else if opcode =? 7 then
    let regs_arr :=
      aset regs_arr bits7_9
        (if aget regs_arr bits10_12 <? bits0_6 then 1 else 0) in
    same_cache (State (u16 (pc + 1)) (aset regs_arr 0 0) memory_arr) false
  else same_cache (arch s) false.

Definition iteration (parts : list Z) (s : sim) : option (sim * bool) :=
  let index := pc (arch s) mod MEM_SIZE in
  execute parts (aget (memory_arr (arch s)) index) s.

(** [run_e20_simulator]: the loop, bounded by [fuel] iterations. *)
Fixpoint run_e20_simulator (fuel : nat) (parts : list Z) (s : sim)
  : outcome sim :=
  match fuel with
  | O => OutOfFuel
  | S fuel =>
      match iteration parts s with
      | None => Undefined
      | Some (s', halt) =>
          if halt then Returned s' else run_e20_simulator fuel parts s'
      end
  end.

(** How [main] ends once the cache configuration has been split into
    [parts]: the message "Invalid cache config" and exit status 1, or exit
    status 0 after the simulation. *)
Inductive exit : Type :=
  | Invalid_cache_config
  | Simulated (s : sim).

(** [int rows = size / (assoc * blocksize)] and the construction of the
    level, as [main] does them for L1 and for L2. *)
Definition make_level (size assoc blocksize : Z) : option (Z * Level) :=
  d ← int_mul assoc blocksize;
  rows ← int_div size d;
  level ← Level_new size rows assoc blocksize;
  Some (rows, level).

(** [main] from the test on [parts.size()] on.  [memory_arr] is the memory
    after [load_machine_code]; registers and [pc] start at 0. *)
Definition main (fuel : nat) (parts : list Z) (memory_arr : list Z)
  : outcome exit :=
  let pc := 0 in
  let regs_arr := replicate (Z.to_nat NUM_REGS) 0 in
  match parts with
  | [L1size; L1assoc; L1blocksize] =>
      outcome_bind (of_option (make_level L1size L1assoc L1blocksize))
        (fun '(l1_rows, l1) =>
           let a_cache := {| levels_vec := [l1] |} in
           let out := [Cache_config "L1" L1size L1assoc L1blocksize l1_rows] in
           outcome_bind
             (run_e20_simulator fuel parts
                (Sim (State pc regs_arr memory_arr) a_cache out))
             (fun s => Returned (Simulated s)))
  | [L1size; L1assoc; L1blocksize; L2size; L2assoc; L2blocksize] =>
      outcome_bind (of_option (make_level L1size L1assoc L1blocksize))
        (fun '(l1_rows, l1) =>
      outcome_bind (of_option (make_level L2size L2assoc L2blocksize))
        (fun '(l2_rows, l2) =>
           let a_cache := {| levels_vec := [l1; l2] |} in
           let out :=
             [Cache_config "L1" L1size L1assoc L1blocksize l1_rows;
              Cache_config "L2" L2size L2assoc L2blocksize l2_rows] in
           outcome_bind
             (run_e20_simulator fuel parts
                (Sim (State pc regs_arr memory_arr) a_cache out))
             (fun s => Returned (Simulated s))))
  | _ => Returned Invalid_cache_config
  end.

End Cached.

Import Cached.

(** ** Vocabulary of the statements *)

(** The state in which [main] enters the loop, and in which it calls
    [run_e20_simulator]: [pc] and all registers 0, the memory as loaded. *)
Definition initial (memory_arr : list Z) : state :=
  State 0 (replicate (Z.to_nat NUM_REGS) 0) memory_arr.

(** The state at the head of the plain loop after [n] iterations; [None]
    when the loop has ended before. *)
Fixpoint plain_after (n : nat) (s : state) : option state :=
  match n with
  | O => Some s
  | S n =>
      let '(s', halt) := Plain.iteration s in
      if halt then None else plain_after n s'
  end.

(** The same for the loop of [run_e20_simulator]; [None] also when an
    iteration has no defined result. *)
Fixpoint cached_after (parts : list Z) (n : nat) (s : sim) : option sim :=
  match n with
  | O => Some s
  | S n =>
      '(s', halt) ← Cached.iteration parts s;
      if halt : bool then None else cached_after parts n s'
  end.

(** The instructions that end with [regs_arr[0] = 0]: the register group,
    [addi], [lw] and [slti]. *)
Definition forces_reg0 (instruction : Z) : Prop :=
  let opcode := Z.shiftr instruction 13 in
  opcode = 0 \/ opcode = 1 \/ opcode = 4 \/ opcode = 7.


(** Opcode 0 with a selector that none of the six tests of the register
    group accepts. *)
Definition unhandled_selector (instruction : Z) : Prop :=
  Z.shiftr instruction 13 = 0 /\
  let bits0_3 := Z.land instruction 15 in
  bits0_3 <> 0 /\ bits0_3 <> 1 /\ bits0_3 <> 2 /\ bits0_3 <> 3 /\
  bits0_3 <> 4 /\ bits0_3 <> 8.

(** The instruction the next iteration fetches. *)
Definition fetch (s : state) : Z := aget (memory_arr s) (pc s mod MEM_SIZE).

(** The address [sw] writes to and the register value it writes, when
    [instruction] is an [sw]. *)
Definition store_address (instruction : Z) (s : state) : option Z :=
  if Z.shiftr instruction 13 =? 5
  then Some ((aget (regs_arr s) (Z.land (Z.shiftr instruction 10) 7)
              + sign_extend7_func (Z.land instruction 127)) mod MEM_SIZE)
  else None.

Definition stored_value (instruction : Z) (s : state) : Z :=
  aget (regs_arr s) (Z.land (Z.shiftr instruction 7) 7).

(** None of the next [fuel] iterations from [s] (fewer if the loop ends
    before) executes an [sw] to address [a]. *)
Fixpoint no_store_to (a : Z) (fuel : nat) (s : state) : Prop :=
  match fuel with
  | O => True
  | S fuel =>
      store_address (fetch s) s <> Some a /\
      (if (Plain.iteration s).2 then True
       else no_store_to a fuel (Plain.iteration s).1)
  end.

(** A level's configuration as the program expects it: positive
    associativity and block size, at least one row, and a size that fits
    the [uint16_t] variables of [cache_func]. *)
Definition valid_level (size assoc blocksize : Z) : Prop :=
  0 < assoc /\ 0 < blocksize /\ assoc * blocksize <= size /\ size < 65536.

(** A level has the rows of its configuration, each with [assoc] blocks. *)
Definition level_wf (size assoc blocksize : Z) (level : Level) : Prop :=
  length (rows_vec level) = Z.to_nat (size / (assoc * blocksize)) /\
  Forall (fun row => length (blocks_vec row) = Z.to_nat assoc)
         (rows_vec level).

Definition valid_config (parts : list Z) : Prop :=
  match parts with
  | [s1; a1; b1] => valid_level s1 a1 b1
  | [s1; a1; b1; s2; a2; b2] => valid_level s1 a1 b1 /\ valid_level s2 a2 b2
  | _ => False
  end.

(** A row as the [Level] constructor makes it, and the level [main]
    builds from a configuration. *)
Definition fresh_row (assoc : Z) : Row :=
  {| blocks_vec := replicate (Z.to_nat assoc) Block_new;
     associativity := assoc |}.

Definition fresh_level (size assoc blocksize : Z) : Level :=
  {| rows_vec := replicate (Z.to_nat (size / (assoc * blocksize)))
                           (fresh_row assoc);
     blocksize := blocksize |}.

(** The cache has the shape [main] gives it for the configuration [parts],
    and the configuration is valid. *)
Definition cache_wf (parts : list Z) (c : Cache) : Prop :=
  match parts, levels_vec c with
  | [s1; a1; b1], [l1] => valid_level s1 a1 b1 /\ level_wf s1 a1 b1 l1
  | [s1; a1; b1; s2; a2; b2], [l1; l2] =>
      (valid_level s1 a1 b1 /\ level_wf s1 a1 b1 l1) /\
      (valid_level s2 a2 b2 /\ level_wf s2 a2 b2 l2)
  | _, _ => False
  end.

(** The replacement rule in the words of the specification: a block with
    the tag, if the row has one, is removed from its position, otherwise
    the block at the head is removed; then a block with the tag is appended
    at the tail. *)
Fixpoint remove_first (the_tag : Z) (row : list Block) : list Block :=
  match row with
  | [] => []
  | b :: rest =>
      if tag b =? the_tag then rest else b :: remove_first the_tag rest
  end.

Definition lru_rule (row : list Block) (the_tag : Z) : list Block :=
  if bool_decide (the_tag ∈ tag <$> row)
  then remove_first the_tag row ++ [{| tag := the_tag |}]
  else tail row ++ [{| tag := the_tag |}].

(** The cache [main] builds for a configuration of three or six parts. *)
Definition fresh_cache (parts : list Z) : Cache :=
  match parts with
  | [s1; a1; b1; s2; a2; b2] =>
      {| levels_vec := [fresh_level s1 a1 b1; fresh_level s2 a2 b2] |}
  | [s1; a1; b1] => {| levels_vec := [fresh_level s1 a1 b1] |}
  | _ => {| levels_vec := [] |}
  end.

(** The L1 row and tag of an address. *)
Definition l1_slot (parts : list Z) (address : Z) : option (Z * Z) :=
  '(l1row_num, l1tag, _, _) ← addressing parts address;
  Some (l1row_num, l1tag).

(** An access, given by address, [pc] index and [is_store_word], whose
    address is a word that L1 maps to row [r] with tag [t]. *)
Definition maps_to (parts : list Z) (access : Z * Z * bool) (r t : Z)
  : Prop :=
  word access.1.1 /\ l1_slot parts access.1.1 = Some (r, t).

(** [cache_func] called for each access of a list in turn. *)
Fixpoint access_all (parts : list Z) (accesses : list (Z * Z * bool))
    (c : Cache) : option Cache :=
  match accesses with
  | [] => Some c
  | (address, index, is_store_word) :: rest =>
      '(c', _) ← cache_func address index c parts is_store_word;
      access_all parts rest c'
  end.

(** A log entry that reports the given status. *)
Definition has_status (status : string) (e : output) : Prop :=
  match e with
  | Log_entry _ st _ _ _ => st = status
  | Cache_config _ _ _ _ _ => False
  end.

(** A log entry whose address is below [MEM_SIZE]. *)
Definition logs_address_in_memory (e : output) : Prop :=
  match e with
  | Log_entry _ _ _ addr _ => 0 <= addr < MEM_SIZE
  | Cache_config _ _ _ _ _ => False
  end.

(** ** Sample inputs *)

(** The memory [load_machine_code] leaves for a program of at most
    [MEM_SIZE] words: the words from address 0 on, zeros after them. *)
Definition image (code : list Z) : list Z :=
  (u16 <$> code) ++ replicate (Z.to_nat MEM_SIZE - length code) 0.

Definition zero_regs : list Z := replicate (Z.to_nat NUM_REGS) 0.

(** [lw $1, 0($0)], [lw $1, 8($0)], [lw $1, 0($0)], then [j 3]. *)
Definition three_loads : list Z := image [32896; 32904; 32896; 16387].

(** [lw $1, 0($0)], then [j 1]. *)
Definition one_load : list Z := image [32896; 16385].

(** [j 0] at address 0: the shortest program that halts. *)
Definition j0_image : list Z := image [16384].

(** The state [main] starts the loop in, with a one-level cache. *)
Definition start_sim : sim :=
  Sim (State 0 zero_regs j0_image) (fresh_cache [16; 2; 4]) [].

(** Two levels: an L1 of one block of two cells, an L2 of one row of two
    such blocks; and the cache after a store to address 0. *)
Definition two_levels : list Z := [2; 1; 2; 4; 2; 2].

Definition two_levels_after_store : Cache :=
  {| levels_vec :=
       [{| rows_vec := [{| blocks_vec := [{| tag := 0 |}];
                           associativity := 1 |}];
           blocksize := 2 |};
        {| rows_vec := [{| blocks_vec := [Block_new; {| tag := 0 |}];
                           associativity := 2 |}];
           blocksize := 2 |}] |}.


(** ** Vocabulary of the further properties *)

(** The fields of an instruction word, named as the loop names them. *)
Definition opcode (instruction : Z) : Z := Z.shiftr instruction 13.
Definition bits10_12 (instruction : Z) : Z :=
  Z.land (Z.shiftr instruction 10) 7.
Definition bits7_9 (instruction : Z) : Z := Z.land (Z.shiftr instruction 7) 7.
Definition bits4_6 (instruction : Z) : Z := Z.land (Z.shiftr instruction 4) 7.
Definition bits0_3 (instruction : Z) : Z := Z.land instruction 15.
Definition bits0_6 (instruction : Z) : Z := Z.land instruction 127.
Definition bits0_12 (instruction : Z) : Z := Z.land instruction 8191.

(** The number a 7-bit field stands for in two's complement. *)
Definition signed7 (imm7 : Z) : Z := if imm7 <? 64 then imm7 else imm7 - 128.

(** The register an instruction may write besides register 0, read off the
    branches of the loop: [bits4_6] in the register group (not for [jr] or
    an unknown selector), [bits7_9] for [addi], [lw] and [slti], register 7
    for [jal]. *)
Definition written_register (instruction : Z) : option Z :=
  let op := opcode instruction in
  if op =? 0 then
    let sel := bits0_3 instruction in
    if (sel =? 0) || (sel =? 1) || (sel =? 2) || (sel =? 3) || (sel =? 4)
    then Some (bits4_6 instruction) else None
  else if (op =? 1) || (op =? 4) || (op =? 7) then Some (bits7_9 instruction)
  else if op =? 3 then Some 7
  else None.

(** A row as the simulator fills it: the blocks never used come first, then
    the used ones, whose tags are below 8192 and differ from each other. *)
Definition tidy_row (row : list Block) : Prop :=
  exists k used,
    row = replicate k Block_new ++ used /\
    Forall (fun b => 0 <= tag b <= 8191) used /\
    NoDup (tag <$> used).

Definition tidy (c : Cache) : Prop :=
  forall lv rw row, blocks_at c lv rw = Some row -> tidy_row row.

(** What [cache_func] never touches in a level: its block size and the
    [associativity] field of each of its rows. *)
Definition level_shape (level : Level) : Z * list Z :=
  (blocksize level, associativity <$> rows_vec level).

(** How many accesses of a list go to row [r] of L1. *)
Definition accesses_to_row (parts : list Z) (r : Z)
    (accesses : list (Z * Z * bool)) : nat :=
  length (filter (fun x => fst <$> l1_slot parts x.1.1 = Some r) accesses).


(** ** The program loader, [load_machine_code] *)

(** What [regex_match] and the two calls of [stoi] make of one line: the
    line does not match the pattern; it matches but a [stoi] throws; or it
    yields the address and the instruction word its digits denote. *)
Inductive line_result : Type :=
  | No_match
  | Stoi_throws
  | Fields (addr instr : Z).

(** How [load_machine_code] ends: it returns with the memory filled, or
    prints one of its three messages and calls [exit(1)], or an exception
    of [stoi] ends the program. *)
Inductive load_result : Type :=
  | Loaded (mem : list Z)
  | Cant_parse (line : string)
  | Out_of_sequence (addr : Z)
  | Too_big
  | Uncaught.

Section Loader.

(** The pattern matching and number conversion of the standard library are
    taken as given. *)
Variable scan_line : string -> line_result.

(** The [while (getline(f, line))] loop on the lines still to read. *)
Fixpoint load_loop (lines : list string) (expectedaddr : Z) (mem : list Z)
  : load_result :=
  match lines with
  | [] => Loaded mem
  | line :: rest =>
      match scan_line line with
      | No_match => Cant_parse line
      | Stoi_throws => Uncaught
      | Fields addr instr =>
          if negb (addr =? expectedaddr) then Out_of_sequence addr
          else if MEM_SIZE <=? addr then Too_big
          else load_loop rest (expectedaddr + 1) (aset mem addr (u16 instr))
      end
  end.

Definition load_machine_code (lines : list string) (mem : list Z)
  : load_result :=
  load_loop lines 0 mem.

(** The lines are numbered from [first] on and carry the given words. *)
Fixpoint numbered (first : Z) (lines : list string) (words : list Z)
  : Prop :=
  match lines, words with
  | [], [] => True
  | line :: lines, w :: words =>
      scan_line line = Fields first w /\ numbered (first + 1) lines words
  | _, _ => False
  end.

End Loader.


(** ** The cache configuration string, as [main] takes it apart *)

(** A [std::string] is the list of its characters. *)
Definition comma : ascii := ","%char.

(** [cache_config.find(",", lastpos)]: the first index from [lastpos] on
    that holds a comma, [None] for [npos]. *)
Fixpoint find_comma (s : list ascii) (lastpos : nat) : option nat :=
  match s, lastpos with
  | [], _ => None
  | c :: rest, O =>
      if Ascii.eqb c comma then Some O else S <$> find_comma rest O
  | _ :: rest, S lastpos => S <$> find_comma rest lastpos
  end.

(** [s.substr(pos, count)]: it throws when [pos] is beyond the end and
    stops at the end when [count] reaches further. *)
Definition substr (s : list ascii) (pos count : nat) : option (list ascii) :=
  if decide (length s < pos)%nat then None else Some (take count (drop pos s)).

(** The three ways [std::stoi] ends. *)
Inductive stoi_result : Type :=
  | Int (v : Z)
  | Invalid_argument
  | Out_of_range.

Definition isspace (c : ascii) : bool :=
  let n := nat_of_ascii c in
  Nat.eqb n 32 || (Nat.leb 9 n && Nat.leb n 13).

Definition isdigit (c : ascii) : bool :=
  let n := nat_of_ascii c in Nat.leb 48 n && Nat.leb n 57.

Fixpoint skip_space (s : list ascii) : list ascii :=
  match s with
  | c :: rest => if isspace c then skip_space rest else s
  | [] => []
  end.

(** The value of the digits [s] starts with, continuing [acc]. *)
Fixpoint read_digits (s : list ascii) (acc : Z) : Z :=
  match s with
  | c :: rest =>
      if isdigit c
      then read_digits rest (10 * acc + (Z.of_nat (nat_of_ascii c) - 48))
      else acc
  | [] => acc
  end.

(** [std::stoi(str)] in base 10: white space is skipped, one sign is taken,
    then as many digits as follow; without a digit there the call throws
    [invalid_argument], with a value that is no [int] it throws
    [out_of_range]; what follows the digits is ignored. *)
Definition stoi (str : list ascii) : stoi_result :=
  let s := skip_space str in
  let '(negative, s) :=
    match s with
    | c :: rest =>
        if Ascii.eqb c "-" then (true, rest)
        else if Ascii.eqb c "+" then (false, rest)
        else (false, s)
    | [] => (false, [])
    end in
  match s with
  | c :: _ =>
      if isdigit c then
        let v := read_digits s 0 in
        let v := if negative : bool then - v else v in
        if decide (int_range v) then Int v else Out_of_range
      else Invalid_argument
  | [] => Invalid_argument
  end.

(** The loop of [main] that fills [parts], and the [push_back] after it.
    [fuel] bounds the iterations; an exception of [stoi] or [substr] that
    nobody catches ends the program. *)
Fixpoint parse_parts (fuel : nat) (cache_config : list ascii)
    (lastpos : nat) (parts : list Z) : outcome (list Z) :=
  match fuel with
  | O => OutOfFuel
  | S fuel =>
      match find_comma cache_config lastpos with
      | Some pos =>
          match substr cache_config lastpos pos with
          | Some field =>
              match stoi field with
              | Int v =>
                  parse_parts fuel cache_config (pos + 1) (parts ++ [v])
              | _ => Undefined
              end
          | None => Undefined
          end
      | None =>
          match substr cache_config lastpos (length cache_config) with
          | Some field =>
              match stoi field with
              | Int v => Returned (parts ++ [v])
              | _ => Undefined
              end
          | None => Undefined
          end
      end
  end.

(** "parse cache config" in [main]: under the test
    [cache_config.size() > 0], the loop started with fuel for every comma.
    [Returned None] is the empty string, for which nothing is parsed. *)
Definition parse_cache_config (cache_config : list ascii)
  : outcome (option (list Z)) :=
  if decide (0 < length cache_config)%nat
  then outcome_bind
         (parse_parts (S (length cache_config)) cache_config 0 [])
         (fun parts => Returned (Some parts))
  else Returned None.

(** [main] from "parse cache config" to its end.  With an empty
    configuration string the body of the [if] is skipped and [main]
    returns 0 with nothing simulated: [Returned None]. *)
Definition main_from_config (fuel : nat) (cache_config : list ascii)
    (memory_arr : list Z) : outcome (option exit) :=
  outcome_bind (parse_cache_config cache_config)
    (fun parsed =>
       match parsed with
       | Some parts =>
           outcome_bind (Cached.main fuel parts memory_arr)
             (fun e => Returned (Some e))
       | None => Returned None
       end).

(** The configuration string cut exactly at its commas: [cur] holds the
    characters of the field being read. *)
Fixpoint fields (s : list ascii) (cur : list ascii) : list (list ascii) :=
  match s with
  | [] => [cur]
  | c :: rest =>
      if Ascii.eqb c comma then cur :: fields rest []
      else fields rest (cur ++ [c])
  end.

(** [stoi] on each field in turn, until one throws. *)
Fixpoint stoi_all (fs : list (list ascii)) : outcome (list Z) :=
  match fs with
  | [] => Returned []
  | f :: fs =>
      match stoi f with
      | Int v => outcome_bind (stoi_all fs) (fun vs => Returned (v :: vs))
      | _ => Undefined
      end
  end.

(** The decimal digits of a natural number, most significant first. *)
Fixpoint decimal_digits (fuel : nat) (n : Z) (acc : list ascii)
  : list ascii :=
  match fuel with
  | O => acc
  | S fuel =>
      let acc := ascii_of_nat (Z.to_nat (48 + n mod 10)) :: acc in
      if n <? 10 then acc else decimal_digits fuel (n / 10) acc
  end.

Definition decimal (n : Z) : list ascii :=
  decimal_digits (S (Z.to_nat (Z.log2 n))) n [].

(** Numbers written in decimal with commas between them. *)
Fixpoint comma_separated (ns : list Z) : list ascii :=
  match ns with
  | [] => []
  | [n] => decimal n
  | n :: ns => decimal n ++ comma :: comma_separated ns
  end.


(** ** The command line *)

(** [arg.rfind("-", 0) == 0]: the argument starts with a dash. *)
Definition starts_with_dash (arg : list ascii) : bool :=
  match arg with
  | c :: _ => Ascii.eqb c "-"
  | [] => false
  end.

#[local] Instance ascii_eq_decision : EqDecision ascii := ascii_dec.

Definition is_help (arg : list ascii) : bool :=
  bool_decide (arg = list_ascii_of_string "-h") ||
  bool_decide (arg = list_ascii_of_string "--help").

(** The variables the argument loops of the two programs set. *)
Record arguments := Parsed {
  filename : option (list ascii);
  do_help : bool;
  arg_error : bool;
  cache_config : list ascii
}.

Definition no_arguments : arguments := Parsed None false false [].

(** The usage message is printed and [main] returns 1. *)
Definition usage_exit (a : arguments) : bool :=
  arg_error a || do_help a || bool_decide (filename a = None).

Definition positional (arg : list ascii) (a : arguments) : arguments :=
  match filename a with
  | None => Parsed (Some arg) (do_help a) (arg_error a) (cache_config a)
  | Some _ => Parsed (filename a) (do_help a) true (cache_config a)
  end.

(** The argument loop of [e20_sim.cpp], on [argv] from index 1 on. *)
Fixpoint parse_args_plain (argv : list (list ascii)) (a : arguments)
  : arguments :=
  match argv with
  | [] => a
  | arg :: rest =>
      if starts_with_dash arg then
        if is_help arg
        then parse_args_plain rest
               (Parsed (filename a) true (arg_error a) (cache_config a))
        else parse_args_plain rest
               (Parsed (filename a) (do_help a) true (cache_config a))
      else parse_args_plain rest (positional arg a)
  end.

(** The argument loop of [e20_sim_cache.cpp]: [--cache] takes the next
    argument, whatever it looks like, and is an error as the last one. *)
Fixpoint parse_args (argv : list (list ascii)) (a : arguments) : arguments :=
  match argv with
  | [] => a
  | arg :: rest =>
      if starts_with_dash arg then
        if is_help arg
        then parse_args rest
               (Parsed (filename a) true (arg_error a) (cache_config a))
        else if bool_decide (arg = list_ascii_of_string "--cache") then
          match rest with
          | [] => Parsed (filename a) (do_help a) true (cache_config a)
          | value :: rest =>
              parse_args rest
                (Parsed (filename a) (do_help a) (arg_error a) value)
          end
        else parse_args rest
               (Parsed (filename a) (do_help a) true (cache_config a))
      else parse_args rest (positional arg a)
  end.

(** [--cache v] for each [v] of a list. *)
Fixpoint cache_options (values : list (list ascii)) : list (list ascii) :=
  match values with
  | [] => []
  | v :: values => list_ascii_of_string "--cache" :: v :: cache_options values
  end.


(** ** The final state, as [print_state] writes it *)

Definition newline : ascii := ascii_of_nat 10.
Definition tab : ascii := ascii_of_nat 9.
Definition space : ascii := " "%char.

(** A digit of a number printed with [hex]: lower case, no prefix. *)
Definition hex_digit (d : Z) : ascii :=
  ascii_of_nat (Z.to_nat (if d <? 10 then 48 + d else 87 + d)).

Fixpoint hex_digits (fuel : nat) (n : Z) (acc : list ascii) : list ascii :=
  match fuel with
  | O => acc
  | S fuel =>
      let acc := hex_digit (n mod 16) :: acc in
      if n <? 16 then acc else hex_digits fuel (n / 16) acc
  end.

Definition hex (n : Z) : list ascii :=
  hex_digits (S (Z.to_nat (Z.log2 n))) n [].

(** [setw(width)] with the fill character in force, for one output that
    is adjusted to the right. *)
Definition setw (width : nat) (fill : ascii) (s : list ascii) : list ascii :=
  replicate (width - length s) fill ++ s.

(** The loop over the registers: [todo] registers from [reg] on. *)
Fixpoint print_regs (todo : nat) (reg : Z) (regs : list Z) : list ascii :=
  match todo with
  | O => []
  | S todo =>
      [tab; "$"%char] ++ decimal reg ++ ["="%char]
      ++ setw 5 space (decimal (aget regs reg)) ++ [newline]
      ++ print_regs todo (reg + 1) regs
  end.

(** The loop over the memory words, with the flag [cr] it keeps, and the
    test of the flag after the loop. *)
Fixpoint print_words (todo : nat) (count : Z) (memory : list Z) (cr : bool)
  : list ascii :=
  match todo with
  | O => if cr then [newline] else []
  | S todo =>
      setw 4 "0"%char (hex (aget memory count)) ++ [space]
      ++ (if count mod 8 =? 7
          then newline :: print_words todo (count + 1) memory false
          else print_words todo (count + 1) memory true)
  end.

Definition print_state (pc : Z) (regs memory : list Z) (memquantity : nat)
  : list ascii :=
  list_ascii_of_string "Final state:" ++ [newline]
  ++ [tab] ++ list_ascii_of_string "pc=" ++ setw 5 space (decimal pc)
  ++ [newline]
  ++ print_regs (Z.to_nat NUM_REGS) 0 regs
  ++ print_words memquantity 0 memory false.

(** The value of hexadecimal digits, to read the dump back. *)
Definition hex_digit_value (c : ascii) : Z :=
  let n := Z.of_nat (nat_of_ascii c) in
  if n <? 58 then n - 48 else n - 87.

Definition hex_value (s : list ascii) : Z :=
  foldl (fun acc c => 16 * acc + hex_digit_value c) 0 s.

(** One line of the dump: each word as four digits and a space, then the
    end of the line. *)
Definition dump_line (words : list Z) : list ascii :=
  concat ((fun w => setw 4 "0"%char (hex w) ++ [space]) <$> words)
  ++ [newline].

(** The words in groups of eight, the last group with what is left. *)
Fixpoint groups_of_8 (fuel : nat) (words : list Z) : list (list Z) :=
  match fuel, words with
  | _, [] => []
  | O, _ => []
  | S fuel, _ => take 8 words :: groups_of_8 fuel (drop 8 words)
  end.

(** The loop over the memory words again, on the list of the words still
    to print instead of the index into the array. *)
Fixpoint print_list (words : list Z) (count : Z) (cr : bool) : list ascii :=
  match words with
  | [] => if cr then [newline] else []
  | w :: words =>
      setw 4 "0"%char (hex w) ++ [space]
      ++ (if count mod 8 =? 7
          then newline :: print_list words (count + 1) false
          else print_list words (count + 1) true)
  end.

(** The characters of a line of words, without the end of the line. *)
Definition render (words : list Z) : list ascii :=
  concat ((fun w => setw 4 "0"%char (hex w) ++ [space]) <$> words).

(** ** Reading the final state back *)

(** The text [text] is what [s] starts with: the rest of [s]. *)
Fixpoint expect (text s : list ascii) : option (list ascii) :=
  match text, s with
  | [], _ => Some s
  | c :: text, d :: s => if Ascii.eqb c d then expect text s else None
  | _ :: _, [] => None
  end.

(** The number [stoi] reads from the next [width] characters. *)
Definition read_field (width : nat) (s : list ascii)
  : option (Z * list ascii) :=
  match stoi (take width s) with
  | Int v => Some (v, drop width s)
  | _ => None
  end.

(** The lines of [todo] registers from [reg] on. *)
Fixpoint read_regs (todo : nat) (reg : Z) (s : list ascii)
  : option (list Z * list ascii) :=
  match todo with
  | O => Some ([], s)
  | S todo =>
      s ← expect ([tab; "$"%char] ++ decimal reg ++ ["="%char]) s;
      '(v, s) ← read_field 5 s;
      s ← expect [newline] s;
      '(vs, s) ← read_regs todo (reg + 1) s;
      Some (v :: vs, s)
  end.

(** The memory dump: an end of line is skipped, anything else starts a
    word of four hexadecimal digits and the space after them. *)
Fixpoint read_words (fuel : nat) (s : list ascii) : list Z :=
  match fuel, s with
  | O, _ => []
  | _, [] => []
  | S fuel, c :: rest =>
      if Ascii.eqb c newline then read_words fuel rest
      else hex_value (take 4 s) :: read_words fuel (drop 5 s)
  end.

(** A reader of what [print_state] writes: [pc], the registers and the
    words of the dump. *)
Definition read_state (out : list ascii) : option (Z * list Z * list Z) :=
  s ← expect (list_ascii_of_string "Final state:" ++ [newline] ++ [tab]
              ++ list_ascii_of_string "pc=") out;
  '(pc, s) ← read_field 5 s;
  s ← expect [newline] s;
  '(regs, s) ← read_regs (Z.to_nat NUM_REGS) 0 s;
  Some (pc, regs, read_words (length s) s).

(** ** Further samples *)

(** The line of [j 0] at address 0, and a scanner that knows this line and
    no other. *)
Definition j0_line : string := "ram[0] = 16'b0100000000000000;".

Definition sample_scan_line (line : string) : line_result :=
  if String.eqb line j0_line then Fields 0 16384 else No_match.

(** The one-level cache of 16 cells, 2 ways and 4-cell blocks after a load
    at address 0. *)
Definition one_level_after_load : Cache :=
  {| levels_vec :=
       [{| rows_vec := [{| blocks_vec := [Block_new; {| tag := 0 |}];
                           associativity := 2 |};
                        {| blocks_vec := [Block_new; Block_new];
                           associativity := 2 |}];
           blocksize := 4 |}] |}.

(** Register 1 holds 7. *)
Definition reg1_is_7 : state := State 0 [0; 7; 0; 0; 0; 0; 0; 0] j0_image.

(** Opcode 0 with selector 5 at address 0. *)
Definition unknown_first : state := State 0 zero_regs (image [5]).

(** * Properties *)

(** [lia] with division and remainder by constants. *)
Ltac Zify.zify_post_hook ::= Z.to_euclidean_division_equations.

(** The cases [main] and [cache_func] distinguish on a configuration:
    three parts [s1; a1; b1], six parts [s1; a1; b1; s2; a2; b2], and the
    six other shapes. *)
Ltac by_parts parts :=
  destruct parts as [|s1 [|a1 [|b1 [|s2 [|a2 [|b2 [|? ?]]]]]]].

(** ** The testable values of the specification *)

Example sign_extend_ones : sign_extend7_func 127 = 65535.
Proof. reflexivity. Qed.

Example sign_extend_one : sign_extend7_func 1 = 1.
Proof. reflexivity. Qed.

(** [add $3, $1, $2] with 65535 and 1 in the operands: the sum wraps. *)
Example add_wraps :
  Plain.execute 1328 (State 0 [0; 65535; 1; 7; 0; 0; 0; 0] []) =
  (State 1 [0; 65535; 1; 0; 0; 0; 0; 0] [], false).
Proof. reflexivity. Qed.

(** The program [j 0] halts after one fetch with [pc] and registers 0. *)
Example j0_halts : Plain.main 1 j0_image = Some (State 0 zero_regs j0_image).
Proof. reflexivity. Qed.

(** ** Arrays *)

Lemma aget_aset_eq (a : list Z) (i v : Z) :
  (Z.to_nat i < length a)%nat -> aget (aset a i v) i = v.
Proof.
  intros Hi. unfold aget, aset. by rewrite list_lookup_insert_eq.
Qed.

Lemma aget_aset_ne (a : list Z) (i j v : Z) :
  Z.to_nat i <> Z.to_nat j -> aget (aset a i v) j = aget a j.
Proof.
  intros Hij. unfold aget, aset. by rewrite list_lookup_insert_ne.
Qed.

(** Reading register 0 after [regs_arr[0] = 0]. *)
Lemma aget_aset_0 (a : list Z) : aget (aset a 0 0) 0 = 0.
Proof.
  unfold aget, aset. destruct a as [|x a]; reflexivity.
Qed.

Lemma length_aset (a : list Z) (i v : Z) : length (aset a i v) = length a.
Proof. apply length_insert. Qed.

Lemma u16_word (x : Z) : word (u16 x).
Proof. unfold word, u16. lia. Qed.

Lemma u16_small (x : Z) : word x -> u16 x = x.
Proof. unfold word, u16. intros Hx. by apply Z.mod_small. Qed.

(** The sample memories have the declared size and hold words. *)
Lemma image_wf (code : list Z) :
  (length code <= Z.to_nat MEM_SIZE)%nat ->
  length (image code) = Z.to_nat MEM_SIZE /\ Forall word (image code).
Proof.
  intros Hlen. unfold image. split.
  - rewrite length_app, length_fmap, length_replicate. lia.
  - apply Forall_app. split.
    + apply Forall_fmap, Forall_true. intros x. apply u16_word.
    + apply Forall_replicate. unfold word. lia.
Qed.

Lemma image_state_wf (p : Z) (regs code : list Z) :
  word p -> Forall word regs -> length regs = 8%nat ->
  (length code <= Z.to_nat MEM_SIZE)%nat ->
  state_wf (State p regs (image code)).
Proof.
  intros Hp Hregs Hlen Hcode. destruct (image_wf code Hcode) as [Hl Hw].
  unfold state_wf; simpl. auto.
Qed.

(** ** The two loops do the same to the architectural state *)

(** Whenever an iteration of [run_e20_simulator] is defined, it changes
    [pc], the registers and the memory as the plain loop does, and sets
    [halt] alike. *)
Lemma execute_arch parts instruction s s' halt :
  Cached.execute parts instruction s = Some (s', halt) ->
  Plain.execute instruction (arch s) = (arch s', halt).
Proof.
  unfold Cached.execute, Plain.execute.
  repeat case_match; intros; simplify_option_eq;
    repeat case_match; simplify_eq/=; reflexivity.
Qed.

(** Instructions other than [lw] and [sw] never reach [cache_func]: their
    iteration is defined, with the cache and the output as they were. *)
Lemma execute_no_access parts instruction s :
  Z.shiftr instruction 13 <> 4 -> Z.shiftr instruction 13 <> 5 ->
  Cached.execute parts instruction s =
  Some (Sim (Plain.execute instruction (arch s)).1 (a_cache s) (out s),
        (Plain.execute instruction (arch s)).2).
Proof.
  intros H4 H5. unfold Cached.execute, Plain.execute.
  repeat case_match; simplify_eq/=; try reflexivity; lia.
Qed.

(** ** Register 0 *)

Lemma plain_reg0 instruction s :
  aget (regs_arr s) 0 = 0 \/ forces_reg0 instruction ->
  aget (regs_arr (Plain.execute instruction s).1) 0 = 0.
Proof.
  unfold forces_reg0, Plain.execute. intros Hpre.
  repeat case_match; simplify_eq/=; rewrite ?aget_aset_0; try reflexivity.
  all: try (rewrite aget_aset_ne; [|vm_compute; lia]).
  all: destruct Hpre as [Hz|Hop]; [exact Hz|].
  all: exfalso; lia.
Qed.

(** Register 0 stays 0 along the loop, hence in every state [main] reaches
    from its zeroed registers. *)
Lemma reg0_zero_along_run fuel s s' :
  aget (regs_arr s) 0 = 0 -> Plain.run fuel s = Some s' ->
  aget (regs_arr s') 0 = 0.
Proof.
  revert s. induction fuel as [|fuel IH]; intros s Hz; simpl; [done|].
  pose proof (plain_reg0 (fetch s) s (or_introl Hz)) as Hstep.
  unfold Plain.iteration. fold (fetch s).
  destruct (Plain.execute (fetch s) s) as [s1 halt]; simpl in *.
  destruct halt; [by intros [= <-]|by apply IH].
Qed.

Lemma cached_reg0 parts instruction s s' halt :
  aget (regs_arr (arch s)) 0 = 0 \/ forces_reg0 instruction ->
  Cached.execute parts instruction s = Some (s', halt) ->
  aget (regs_arr (arch s')) 0 = 0.
Proof.
  intros Hpre Hex. apply execute_arch in Hex.
  apply (plain_reg0 instruction) in Hpre. by rewrite Hex in Hpre.
Qed.

Lemma cached_reg0_along_run fuel parts s s' :
  aget (regs_arr (arch s)) 0 = 0 ->
  run_e20_simulator fuel parts s = Returned s' ->
  aget (regs_arr (arch s')) 0 = 0.
Proof.
  revert s. induction fuel as [|fuel IH]; intros s Hz; simpl; [done|].
  unfold Cached.iteration.
  destruct (Cached.execute _ _ _) as [[s1 halt]|] eqn:Hex; [|done].
  apply cached_reg0 in Hex; [|by left].
  destruct halt; [by intros [= <-]|by apply IH].
Qed.

(** Register 0 holds 0 at the head of every iteration. *)
Lemma plain_after_reg0 n s s' :
  aget (regs_arr s) 0 = 0 -> plain_after n s = Some s' ->
  aget (regs_arr s') 0 = 0.
Proof.
  revert s. induction n as [|n IH]; intros s Hz; simpl; [by intros [= <-]|].
  pose proof (plain_reg0 (fetch s) s (or_introl Hz)) as Hstep.
  unfold Plain.iteration. fold (fetch s).
  destruct (Plain.execute (fetch s) s) as [s1 halt]; simpl in *.
  destruct halt; [done|by apply IH].
Qed.

Lemma cached_after_reg0 parts n s s' :
  aget (regs_arr (arch s)) 0 = 0 -> cached_after parts n s = Some s' ->
  aget (regs_arr (arch s')) 0 = 0.
Proof.
  revert s. induction n as [|n IH]; intros s Hz; simpl; [by intros [= <-]|].
  unfold Cached.iteration.
  destruct (Cached.execute _ _ _) as [[s1 halt]|] eqn:Hex; [|done].
  apply cached_reg0 in Hex; [|by left]. simpl.
  destruct halt; [done|by apply IH].
Qed.

Lemma initial_reg0 memory_arr : aget (regs_arr (initial memory_arr)) 0 = 0.
Proof. reflexivity. Qed.

(** C1: register 0 holds 0 after every executed instruction.  The loops
    start from the registers [main] has set to 0.  In every state either
    loop passes through from there, for any memory and after any number of
    iterations, register 0 holds 0, and it holds 0 again after one more
    instruction, whatever the instruction word and whatever the instruction
    tried to write there; so it does in the state either program ends
    with.  The step itself keeps a 0 in register 0 from any state, and an
    instruction of the register group, [addi], [lw] or [slti] leaves 0
    there from any state at all. *)
Theorem reg0_zero_after_execute memory_arr :
  (forall n s instruction,
     plain_after n (initial memory_arr) = Some s ->
     aget (regs_arr s) 0 = 0 /\
     aget (regs_arr (Plain.execute instruction s).1) 0 = 0) /\
  (forall parts c o n s instruction,
     cached_after parts n (Sim (initial memory_arr) c o) = Some s ->
     aget (regs_arr (arch s)) 0 = 0 /\
     forall s' halt,
       Cached.execute parts instruction s = Some (s', halt) ->
       aget (regs_arr (arch s')) 0 = 0) /\
  (forall fuel s',
     Plain.main fuel memory_arr = Some s' -> aget (regs_arr s') 0 = 0) /\
  (forall fuel parts s,
     Cached.main fuel parts memory_arr = Returned (Simulated s) ->
     aget (regs_arr (arch s)) 0 = 0) /\
  (forall instruction (s : sim),
     aget (regs_arr (arch s)) 0 = 0 \/ forces_reg0 instruction ->
     aget (regs_arr (Plain.execute instruction (arch s)).1) 0 = 0 /\
     forall parts s' halt,
       Cached.execute parts instruction s = Some (s', halt) ->
       aget (regs_arr (arch s')) 0 = 0).
Proof.
  split; [|split; [|split; [|split]]].
  - intros n s instruction Hn.
    apply plain_after_reg0 in Hn; [|apply initial_reg0].
    split; [done|]. apply plain_reg0. by left.
  - intros parts c o n s instruction Hn.
    apply cached_after_reg0 in Hn; [|apply initial_reg0].
    split; [done|]. intros s' halt. apply cached_reg0. by left.
  - intros fuel s'. apply reg0_zero_along_run, initial_reg0.
  - intros fuel parts s. unfold Cached.main. by_parts parts; try done.
    + destruct (make_level _ _ _) as [[rows1 l1]|]; [|done]. simpl.
      destruct (run_e20_simulator _ _ _) as [s'| |] eqn:Hrun; [|done..].
      simpl. intros [= <-].
      by eapply cached_reg0_along_run; [|exact Hrun].
    + destruct (make_level s1 _ _) as [[rows1 l1]|]; [|done]. simpl.
      destruct (make_level s2 _ _) as [[rows2 l2]|]; [|done]. simpl.
      destruct (run_e20_simulator _ _ _) as [s'| |] eqn:Hrun; [|done..].
      simpl. intros [= <-].
      by eapply cached_reg0_along_run; [|exact Hrun].
  - intros instruction s Hpre. split; [by apply plain_reg0|].
    intros parts s' halt. by apply cached_reg0.
Qed.



Lemma plain_unhandled instruction s :
  unhandled_selector instruction ->
  Plain.execute instruction s =
  (State (pc s) (aset (regs_arr s) 0 0) (memory_arr s), false).
Proof.
  unfold unhandled_selector, Plain.execute. intros (Hop & Hsel).
  repeat case_match; simplify_eq/=; try reflexivity; lia.
Qed.

(** C8: an instruction with opcode 0 whose selector is none of 0, 1, 2, 3,
    4 and 8 leaves [pc] and the memory as they were and changes nothing in
    the registers but register 0, which is set to 0; [halt] stays false,
    and in the loop with caches neither the cache nor the output changes. *)
Theorem unhandled_selector_frame instruction (s : state) :
  unhandled_selector instruction ->
  Plain.execute instruction s =
    (State (pc s) (aset (regs_arr s) 0 0) (memory_arr s), false) /\
  forall parts c o,
    Cached.execute parts instruction (Sim s c o) =
    Some (Sim (State (pc s) (aset (regs_arr s) 0 0) (memory_arr s)) c o,
          false).
Proof.
  intros Hun. split; [by apply plain_unhandled|].
  intros parts c o. destruct Hun as [Hop Hsel].
  rewrite execute_no_access by lia. simpl.
  by rewrite plain_unhandled.
Qed.
(** ** Rows: search and replacement *)

Lemma find_tag_range l t i j :
  find_tag l t i = Some j -> (i <= j < i + length l)%nat.
Proof.
  revert i. induction l as [|b l IH]; intros i; simpl; [done|].
  destruct (tag b =? t).
  - intros [= <-]. lia.
  - intros Hf. apply IH in Hf. lia.
Qed.

Lemma find_tag_None l t i : find_tag l t i = None <-> t ∉ tag <$> l.
Proof.
  revert i. induction l as [|b l IH]; intros i; simpl.
  - split; [intros _; apply not_elem_of_nil|done].
  - rewrite not_elem_of_cons. destruct (Z.eqb_spec (tag b) t) as [Heq|Hne].
    + split; [done|]. intros [Hne _]. congruence.
    + rewrite IH. intuition congruence.
Qed.

Lemma find_tag_Some l t i j :
  find_tag l t i = Some j ->
  t ∈ tag <$> l /\ delete (j - i)%nat l = remove_first t l.
Proof.
  revert i. induction l as [|b l IH]; intros i; simpl; [done|].
  destruct (Z.eqb_spec (tag b) t) as [Heq|Hne].
  - intros [= <-]. rewrite Nat.sub_diag. split; [|done].
    rewrite <- Heq. apply list_elem_of_here.
  - intros Hf. pose proof (find_tag_range _ _ _ _ Hf) as Hr.
    destruct (IH _ Hf) as [Hin Hdel]. split; [by apply list_elem_of_further|].
    replace (j - i)%nat with (S (j - S i)) by lia. simpl. by rewrite Hdel.
Qed.

(** The row update of [cache_func] is the replacement rule of the
    specification, on every row where it is defined, and it is defined on
    every row that has a block. *)
Lemma update_row_rule l t l' :
  update_row l (find_tag l t 0) t = Some l' ->
  l <> [] /\ l' = lru_rule l t.
Proof.
  unfold update_row, lru_rule. destruct (find_tag l t 0) as [j|] eqn:Hf.
  - intros [= <-]. destruct (find_tag_Some _ _ _ _ Hf) as [Hin Hdel].
    rewrite Nat.sub_0_r in Hdel. rewrite bool_decide_eq_true_2 by done.
    split; [|by rewrite Hdel]. intros ->. by apply elem_of_nil in Hin.
  - apply find_tag_None in Hf. rewrite bool_decide_eq_false_2 by done.
    destruct l; [done|]. intros [= <-]. done.
Qed.

Lemma update_row_defined l t :
  l <> [] -> update_row l (find_tag l t 0) t = Some (lru_rule l t).
Proof.
  intros Hl. destruct (update_row l (find_tag l t 0) t) as [l'|] eqn:Hu.
  - by apply update_row_rule in Hu as [_ ->].
  - unfold update_row in Hu. destruct (find_tag l t 0); [done|].
    by destruct l.
Qed.

Lemma remove_first_length l t :
  t ∈ tag <$> l -> S (length (remove_first t l)) = length l.
Proof.
  induction l as [|b l IH]; simpl; [by intros ?%elem_of_nil|].
  destruct (Z.eqb_spec (tag b) t) as [Heq|Hne]; [done|].
  intros [?|Hin]%elem_of_cons; [congruence|]. simpl. by rewrite IH.
Qed.

Lemma lru_rule_length l t : l <> [] -> length (lru_rule l t) = length l.
Proof.
  intros Hl. unfold lru_rule. case_bool_decide as Hin.
  - rewrite length_app. simpl. rewrite <- (remove_first_length l t Hin). lia.
  - destruct l; [done|]. rewrite length_app. simpl. lia.
Qed.

(** ** Reading and writing one row of the cache *)

Lemma blocks_at_set_eq c lv rw bs :
  is_Some (blocks_at c lv rw) ->
  blocks_at (set_blocks_at c lv rw bs) lv rw = Some bs.
Proof.
  unfold blocks_at, set_blocks_at. simpl. intros [x Hx].
  rewrite list_lookup_alter_eq.
  destruct (levels_vec c !! lv) as [level|]; simpl in *; [|done].
  rewrite list_lookup_alter_eq.
  destruct (rows_vec level !! Z.to_nat rw) as [row|]; simpl in *; done.
Qed.

Lemma blocks_at_set_ne c lv rw bs lv' rw' :
  lv <> lv' \/ Z.to_nat rw <> Z.to_nat rw' ->
  blocks_at (set_blocks_at c lv rw bs) lv' rw' = blocks_at c lv' rw'.
Proof.
  unfold blocks_at, set_blocks_at. simpl. intros Hne.
  destruct (decide (lv = lv')) as [<-|Hlv].
  - destruct Hne as [?|Hrw]; [done|]. rewrite list_lookup_alter_eq.
    destruct (levels_vec c !! lv) as [level|]; simpl; [|done].
    by rewrite list_lookup_alter_ne.
  - by rewrite list_lookup_alter_ne.
Qed.

Lemma levels_set_length c lv rw bs :
  length (levels_vec (set_blocks_at c lv rw bs)) = length (levels_vec c).
Proof. unfold set_blocks_at. simpl. apply length_alter. Qed.

Lemma levels_set_ne c lv rw bs lv' :
  lv <> lv' ->
  levels_vec (set_blocks_at c lv rw bs) !! lv' = levels_vec c !! lv'.
Proof. intros Hne. unfold set_blocks_at. simpl. by apply list_lookup_alter_ne. Qed.

(** ** What one call of [cache_func] does *)

Lemma cache_func_inv address index c parts is_store_word c' log :
  cache_func address index c parts is_store_word = Some (c', log) ->
  exists r1 t1 r2 t2 row1,
    addressing parts address = Some (r1, t1, r2, t2) /\
    blocks_at c 0 r1 = Some row1 /\ row1 <> [] /\
    let c1 := set_blocks_at c 0 r1 (lru_rule row1 t1) in
    let e1 := Log_entry "L1" (status_of is_store_word (find_tag row1 t1 0))
                index address r1 in
    if probes_l2 c (find_tag row1 t1 0) is_store_word
    then exists row2,
        blocks_at c 1 r2 = Some row2 /\ row2 <> [] /\
        c' = set_blocks_at c1 1 r2 (lru_rule row2 t2) /\
        log = [e1; Log_entry "L2" (status_of is_store_word
                                     (find_tag row2 t2 0))
                     index address r2]
    else c' = c1 /\ log = [e1].
Proof.
  unfold cache_func. intros Hc.
  destruct (addressing parts address) as [[[[r1 t1] r2] t2]|]; [|done].
  simpl in Hc.
  destruct (blocks_at c 0 r1) as [row1|] eqn:Hrow1; [|done]. simpl in Hc.
  destruct (update_row row1 _ t1) as [row1'|] eqn:Hu1; [|done]. simpl in Hc.
  apply update_row_rule in Hu1 as [Hne1 ->].
  exists r1, t1, r2, t2, row1. do 3 (split; [done|]). simpl.
  replace (probes_l2 (set_blocks_at c 0 r1 (lru_rule row1 t1)))
    with (probes_l2 c) in Hc
    by (unfold probes_l2; by rewrite levels_set_length).
  destruct (probes_l2 c _ _); [|by simplify_eq].
  rewrite blocks_at_set_ne in Hc by auto.
  destruct (blocks_at c 1 r2) as [row2|] eqn:Hrow2; [|done]. simpl in Hc.
  destruct (update_row row2 _ t2) as [row2'|] eqn:Hu2; [|done]. simpl in Hc.
  apply update_row_rule in Hu2 as [Hne2 ->].
  exists row2. by simplify_eq.
Qed.
(** ** Valid configurations: everything [cache_func] computes is defined *)

Lemma int_mul_small a b : int_range (a * b) -> int_mul a b = Some (a * b).
Proof. intros Hr. unfold int_mul. by rewrite decide_True. Qed.

Lemma int_div_nonneg a b : 0 <= a -> 0 < b -> int_div a b = Some (a / b).
Proof.
  intros Ha Hb. unfold int_div. rewrite decide_False by lia.
  by rewrite Z.quot_div_nonneg by lia.
Qed.

Lemma int_rem_nonneg a b : 0 <= a -> 0 < b -> int_rem a b = Some (a mod b).
Proof.
  intros Ha Hb. unfold int_rem. rewrite decide_False by lia.
  by rewrite Z.rem_mod_nonneg by lia.
Qed.

Lemma valid_level_rows size assoc blocksize :
  valid_level size assoc blocksize ->
  1 <= size / (assoc * blocksize) <= size.
Proof.
  intros (Ha & Hb & Hs & Hmax).
  assert (0 < assoc * blocksize) as Hd by lia. split.
  - apply Z.div_le_lower_bound; lia.
  - apply Z.div_le_upper_bound; nia.
Qed.

Lemma locate_valid size assoc blocksize address :
  valid_level size assoc blocksize -> word address ->
  let rows := size / (assoc * blocksize) in
  locate size assoc blocksize address =
    Some ((address / blocksize) mod rows, (address / blocksize) / rows) /\
  0 <= (address / blocksize) mod rows < rows.
Proof.
  intros Hv Ha rows. pose proof (valid_level_rows _ _ _ Hv) as Hrows.
  destruct Hv as (Hassoc & Hbs & Hs & Hmax). fold rows in Hrows.
  assert (0 < assoc * blocksize) as Hd by lia.
  assert (assoc <= assoc * blocksize) by nia.
  assert (blocksize <= assoc * blocksize) by nia.
  assert (0 <= address / blocksize <= address) as Hblk.
  { split; [apply Z.div_pos; unfold word in Ha; lia|].
    apply Z.div_le_upper_bound; unfold word in Ha; nia. }
  assert (0 <= address / blocksize / rows <= address / blocksize) as Htag.
  { split; [apply Z.div_pos; lia|]. apply Z.div_le_upper_bound; nia. }
  pose proof (Z.mod_pos_bound (address / blocksize) rows ltac:(lia)) as Hrow.
  split; [|done]. unfold locate, word in *.
  rewrite !(u16_small size), !(u16_small assoc), !(u16_small blocksize)
    by (unfold word; lia).
  rewrite int_mul_small by (unfold int_range; lia). simpl.
  rewrite (int_div_nonneg size), (int_div_nonneg address) by lia. simpl.
  fold rows. rewrite (u16_small rows) by (unfold word; lia).
  rewrite (u16_small (address / blocksize)) by (unfold word; lia).
  rewrite int_rem_nonneg, int_div_nonneg by lia. simpl.
  rewrite !u16_small by (unfold word; lia). done.
Qed.

(** A row of a well-formed level, at a row number below the row count. *)
Lemma level_wf_row size assoc blocksize level r :
  valid_level size assoc blocksize -> level_wf size assoc blocksize level ->
  0 <= r < size / (assoc * blocksize) ->
  exists row, rows_vec level !! Z.to_nat r = Some row /\
              blocks_vec row <> [].
Proof.
  intros Hv [Hlen Hrows] Hr.
  destruct (lookup_lt_is_Some_2 (rows_vec level) (Z.to_nat r)) as [row Hrow];
    [lia|].
  exists row. split; [done|].
  rewrite Forall_lookup in Hrows. specialize (Hrows _ _ Hrow).
  destruct Hv as (Ha & _). intros Hnil. rewrite Hnil in Hrows. simpl in Hrows.
  lia.
Qed.

(** Replacing the blocks of a row by as many blocks keeps the level
    well-formed. *)
Lemma level_wf_alter size assoc blocksize level r row blocks :
  level_wf size assoc blocksize level ->
  rows_vec level !! r = Some row ->
  length blocks = length (blocks_vec row) ->
  level_wf size assoc blocksize
    {| rows_vec :=
         alter (fun row => {| blocks_vec := blocks;
                              associativity := associativity row |})
               r (rows_vec level);
       blocksize := Cached.blocksize level |}.
Proof.
  intros [Hlen Hrows] Hrow Hb. split; simpl.
  - by rewrite length_alter.
  - rewrite Forall_lookup in Hrows. apply Forall_lookup. intros i x.
    destruct (decide (r = i)) as [<-|Hne].
    + rewrite list_lookup_alter_eq, Hrow. simpl. intros [= <-]. simpl.
      rewrite Hb. by eapply Hrows.
    + rewrite list_lookup_alter_ne by done. apply Hrows.
Qed.

Lemma addressing_valid parts c address :
  cache_wf parts c -> word address ->
  exists r1 t1 r2 t2 row1,
    addressing parts address = Some (r1, t1, r2, t2) /\
    blocks_at c 0 r1 = Some row1 /\ row1 <> [] /\
    (length (levels_vec c) = 2%nat ->
     exists row2, blocks_at c 1 r2 = Some row2 /\ row2 <> []).
Proof.
  unfold cache_wf, addressing, blocks_at. intros Hwf Ha.
  by_parts parts; try done;
    destruct (levels_vec c) as [|l1 [|l2 [|? ?]]]; try done.
  - destruct Hwf as [Hv1 Hw1].
    destruct (locate_valid s1 a1 b1 address Hv1 Ha) as [-> Hr1]. simpl.
    destruct (level_wf_row _ _ _ _ _ Hv1 Hw1 Hr1) as (row & Hrow & Hne).
    eexists _, _, _, _, _. split; [done|]. rewrite Hrow. simpl.
    split; [done|]. split; [done|]. done.
  - destruct Hwf as [[Hv1 Hw1] [Hv2 Hw2]].
    destruct (locate_valid s1 a1 b1 address Hv1 Ha) as [-> Hr1].
    destruct (locate_valid s2 a2 b2 address Hv2 Ha) as [-> Hr2]. simpl.
    destruct (level_wf_row _ _ _ _ _ Hv1 Hw1 Hr1) as (row1 & Hrow1 & Hne1).
    destruct (level_wf_row _ _ _ _ _ Hv2 Hw2 Hr2) as (row2 & Hrow2 & Hne2).
    eexists _, _, _, _, _. split; [done|]. rewrite Hrow1. simpl.
    split; [done|]. split; [done|]. intros _. rewrite Hrow2. simpl. eauto.
Qed.

(** Writing a row of the same length keeps the cache well-formed. *)
Lemma cache_wf_set parts c lv rw row blocks :
  cache_wf parts c ->
  blocks_at c lv rw = Some row -> length blocks = length row ->
  cache_wf parts (set_blocks_at c lv rw blocks).
Proof.
  unfold cache_wf, blocks_at, set_blocks_at. simpl. intros Hwf Hrow Hlen.
  by_parts parts; try done;
    destruct (levels_vec c) as [|l1 [|l2 [|? ?]]]; try done.
  - destruct lv as [|lv]; simpl in *; [|done].
    destruct (rows_vec l1 !! Z.to_nat rw) as [r|] eqn:Hr; simplify_eq/=.
    destruct Hwf as [Hv Hw]. split; [done|]. by eapply level_wf_alter.
  - destruct Hwf as [[Hv1 Hw1] [Hv2 Hw2]].
    destruct lv as [|[|lv]]; simpl in *; [| |done].
    + destruct (rows_vec l1 !! Z.to_nat rw) as [r|] eqn:Hr; simplify_eq/=.
      split; [split; [done|by eapply level_wf_alter]|done].
    + destruct (rows_vec l2 !! Z.to_nat rw) as [r|] eqn:Hr; simplify_eq/=.
      split; [done|split; [done|by eapply level_wf_alter]].
Qed.

(** On a well-formed cache every access is defined and leaves the cache
    well-formed. *)
Lemma cache_func_defined address index c parts is_store_word :
  cache_wf parts c -> word address ->
  exists c' log,
    cache_func address index c parts is_store_word = Some (c', log) /\
    cache_wf parts c'.
Proof.
  intros Hwf Ha.
  destruct (addressing_valid _ _ _ Hwf Ha)
    as (r1 & t1 & r2 & t2 & row1 & Haddr & Hrow1 & Hne1 & Hl2).
  unfold cache_func. rewrite Haddr. simpl. rewrite Hrow1. simpl.
  rewrite update_row_defined by done. simpl.
  assert (cache_wf parts (set_blocks_at c 0 r1 (lru_rule row1 t1))) as Hwf1.
  { eapply cache_wf_set; [done..|]. by apply lru_rule_length. }
  destruct (probes_l2 _ _ _) eqn:Hp; [|eauto].
  unfold probes_l2 in Hp. apply andb_prop in Hp as [Hlen _].
  apply bool_decide_eq_true in Hlen. rewrite levels_set_length in Hlen.
  destruct (Hl2 Hlen) as (row2 & Hrow2 & Hne2).
  rewrite blocks_at_set_ne by auto. rewrite Hrow2. simpl.
  rewrite update_row_defined by done. simpl.
  eexists _, _. split; [done|].
  eapply cache_wf_set; [done| |by apply lru_rule_length].
  by rewrite blocks_at_set_ne by auto.
Qed.
(** ** The cache observes, the architectural state does not notice *)

Lemma MEM_SIZE_word x : word (x mod MEM_SIZE).
Proof.
  unfold word. change MEM_SIZE with 8192.
  pose proof (Z.mod_pos_bound x 8192). lia.
Qed.

(** On a well-formed cache every iteration is defined; it does to the
    architectural state what the plain loop does and keeps the cache
    well-formed. *)
Lemma execute_defined parts instruction s :
  cache_wf parts (a_cache s) ->
  exists c' o',
    Cached.execute parts instruction s =
      Some (Sim (Plain.execute instruction (arch s)).1 c' o',
            (Plain.execute instruction (arch s)).2) /\
    cache_wf parts c'.
Proof.
  intros Hwf.
  destruct (decide (Z.shiftr instruction 13 = 4)) as [H4|H4];
    [|destruct (decide (Z.shiftr instruction 13 = 5)) as [H5|H5]].
  - unfold Cached.execute, Plain.execute. rewrite H4. simpl.
    edestruct cache_func_defined as (c' & log & -> & Hwf');
      [exact Hwf|apply MEM_SIZE_word|]. simpl. eauto.
  - unfold Cached.execute, Plain.execute. rewrite H5. simpl.
    edestruct cache_func_defined as (c' & log & -> & Hwf');
      [exact Hwf|apply MEM_SIZE_word|]. simpl. eauto.
  - rewrite execute_no_access by done. eauto.
Qed.

Lemma run_arch fuel parts s s' :
  run_e20_simulator fuel parts s = Returned s' ->
  Plain.run fuel (arch s) = Some (arch s').
Proof.
  revert s. induction fuel as [|fuel IH]; intros s; simpl; [done|].
  unfold Cached.iteration, Plain.iteration.
  destruct (Cached.execute _ _ _) as [[s1 halt]|] eqn:Hex; [|done].
  apply execute_arch in Hex. rewrite Hex.
  destruct halt; [by intros [= ->]|apply IH].
Qed.

Lemma run_defined fuel parts s c o :
  cache_wf parts c ->
  match Plain.run fuel s with
  | Some s' =>
      exists c' o',
        run_e20_simulator fuel parts (Sim s c o) = Returned (Sim s' c' o') /\
        cache_wf parts c'
  | None => run_e20_simulator fuel parts (Sim s c o) = OutOfFuel
  end.
Proof.
  revert s c o. induction fuel as [|fuel IH]; intros s c o Hwf; simpl;
    [done|].
  unfold Cached.iteration, Plain.iteration. simpl.
  destruct (execute_defined parts
              (aget (memory_arr s) (pc s mod MEM_SIZE)) (Sim s c o) Hwf)
    as (c' & o' & -> & Hwf').
  simpl. destruct (Plain.execute _ s) as [s1 []]; simpl; [eauto|].
  by apply IH.
Qed.

(** ** Memory changes only where [sw] writes *)

Lemma execute_memory_frame instruction s a :
  0 <= a -> store_address instruction s <> Some a ->
  aget (memory_arr (Plain.execute instruction s).1) a =
  aget (memory_arr s) a.
Proof.
  unfold store_address, Plain.execute. intros Ha Hst.
  repeat case_match; simplify_eq/=; try reflexivity.
  apply aget_aset_ne. intros Heq. apply Hst. f_equal.
  pose proof (MEM_SIZE_word
    (aget (regs_arr s) (Z.land (Z.shiftr instruction 10) 7)
     + sign_extend7_func (Z.land instruction 127))) as Hw.
  unfold word in Hw. lia.
Qed.

Lemma run_memory_frame fuel s s' a :
  0 <= a -> no_store_to a fuel s -> Plain.run fuel s = Some s' ->
  aget (memory_arr s') a = aget (memory_arr s) a.
Proof.
  intros Ha. revert s. induction fuel as [|fuel IH]; intros s; simpl;
    [done|].
  intros [Hst Hrest] Hrun.
  pose proof (execute_memory_frame (fetch s) s a Ha Hst) as Hframe.
  unfold Plain.iteration in *. fold (fetch s) in *.
  destruct (Plain.execute (fetch s) s) as [s1 halt]; simpl in *.
  destruct halt; [by simplify_eq|]. rewrite <- Hframe. by apply IH.
Qed.

Lemma execute_store instruction s a :
  store_address instruction s = Some a ->
  length (memory_arr s) = Z.to_nat MEM_SIZE ->
  0 <= a /\
  (Plain.execute instruction s).2 = false /\
  aget (memory_arr (Plain.execute instruction s).1) a =
    stored_value instruction s.
Proof.
  unfold store_address, stored_value, Plain.execute. intros Hst Hlen.
  destruct (Z.eqb_spec (Z.shiftr instruction 13) 5) as [H5|]; [|done].
  rewrite H5. simpl. injection Hst as <-.
  pose proof (MEM_SIZE_word
    (aget (regs_arr s) (Z.land (Z.shiftr instruction 10) 7)
     + sign_extend7_func (Z.land instruction 127))) as Hw.
  unfold word in Hw. split; [lia|]. split; [done|].
  apply aget_aset_eq. rewrite Hlen. change MEM_SIZE with 8192 in *. lia.
Qed.
(** ** Construction of the levels *)

Lemma Level_rows_inv n assoc acc rows :
  Level_rows n assoc acc = Some rows ->
  rows = acc ++ replicate n (fresh_row assoc) /\ (n <> 0%nat -> 0 <= assoc).
Proof.
  revert acc. induction n as [|n IH]; intros acc; simpl.
  - intros [= <-]. by rewrite app_nil_r.
  - unfold Row_new. case_decide as Hneg; [done|]. simpl.
    intros Hrec. apply IH in Hrec as [-> _]. split; [|lia].
    by rewrite <- app_assoc.
Qed.

Lemma Level_rows_defined n assoc acc :
  0 <= assoc ->
  Level_rows n assoc acc = Some (acc ++ replicate n (fresh_row assoc)).
Proof.
  intros Hassoc. revert acc. induction n as [|n IH]; intros acc; simpl.
  - by rewrite app_nil_r.
  - unfold Row_new. rewrite decide_False by lia. simpl. rewrite IH.
    by rewrite <- app_assoc.
Qed.

Lemma make_level_valid size assoc blocksize :
  valid_level size assoc blocksize ->
  make_level size assoc blocksize =
    Some (size / (assoc * blocksize), fresh_level size assoc blocksize) /\
  level_wf size assoc blocksize (fresh_level size assoc blocksize).
Proof.
  intros Hv. pose proof (valid_level_rows _ _ _ Hv) as Hrows.
  destruct Hv as (Ha & Hb & Hs & Hmax). split.
  - unfold make_level, Level_new.
    rewrite int_mul_small by (unfold int_range; lia). simpl.
    rewrite int_div_nonneg by lia. simpl.
    rewrite Level_rows_defined by lia. done.
  - split; simpl; [by rewrite length_replicate|].
    apply Forall_replicate. simpl. by rewrite length_replicate.
Qed.

Lemma plain_run_main fuel parts memory_arr :
  valid_config parts ->
  match Plain.main fuel memory_arr with
  | Some s' =>
      exists c' o',
        Cached.main fuel parts memory_arr =
          Returned (Simulated (Sim s' c' o'))
  | None => Cached.main fuel parts memory_arr = OutOfFuel
  end.
Proof.
  unfold valid_config, Plain.main, Cached.main. intros Hv.
  by_parts parts; try done.
  - destruct (make_level_valid _ _ _ Hv) as [-> Hwf]. simpl.
    match goal with
    | |- context [run_e20_simulator _ ?p (Sim ?s ?c ?o)] =>
        pose proof (run_defined fuel p s c o) as Hrun
    end.
    destruct (Plain.run fuel _) as [s'|].
    + destruct Hrun as (c' & o' & -> & _); [by split|]. simpl. eauto.
    + rewrite Hrun; [done|by split].
  - destruct Hv as [Hv1 Hv2].
    destruct (make_level_valid _ _ _ Hv1) as [-> Hwf1].
    destruct (make_level_valid _ _ _ Hv2) as [-> Hwf2]. simpl.
    match goal with
    | |- context [run_e20_simulator _ ?p (Sim ?s ?c ?o)] =>
        pose proof (run_defined fuel p s c o) as Hrun
    end.
    destruct (Plain.run fuel _) as [s'|].
    + destruct Hrun as (c' & o' & -> & _); [by split; split|]. simpl. eauto.
    + rewrite Hrun; [done|by split; split].
Qed.

(** C5: the cache never affects the architectural state.  Whenever the
    loop with caches returns, the plain loop returns after as many
    iterations with the same [pc], registers and memory; for every valid
    configuration the loop with caches returns whenever the plain loop
    does, from any state and as [main] starts it; and a value stored by
    [sw] is still at its address when the loop returns, if no later
    iteration stores to that address. *)
Theorem cache_is_observer :
  (forall fuel parts s s',
     run_e20_simulator fuel parts s = Returned s' ->
     Plain.run fuel (arch s) = Some (arch s')) /\
  (forall fuel parts s c o,
     cache_wf parts c ->
     match Plain.run fuel s with
     | Some s' =>
         exists c' o',
           run_e20_simulator fuel parts (Sim s c o) =
             Returned (Sim s' c' o')
     | None => run_e20_simulator fuel parts (Sim s c o) = OutOfFuel
     end) /\
  (forall fuel parts memory_arr,
     valid_config parts ->
     match Plain.main fuel memory_arr with
     | Some s' =>
         exists c' o',
           Cached.main fuel parts memory_arr =
             Returned (Simulated (Sim s' c' o'))
     | None => Cached.main fuel parts memory_arr = OutOfFuel
     end) /\
  (forall fuel parts s s' a,
     store_address (fetch (arch s)) (arch s) = Some a ->
     length (memory_arr (arch s)) = Z.to_nat MEM_SIZE ->
     no_store_to a fuel (Plain.iteration (arch s)).1 ->
     run_e20_simulator (S fuel) parts s = Returned s' ->
     aget (memory_arr (arch s')) a = stored_value (fetch (arch s)) (arch s)).
Proof.
  split; [exact run_arch|]. split; [|split; [exact plain_run_main|]].
  - intros fuel parts s c o Hwf.
    pose proof (run_defined fuel parts s c o Hwf) as Hrun.
    destruct (Plain.run fuel s); [|done].
    destruct Hrun as (c' & o' & Hrun & _). eauto.
  - intros fuel parts s s' a Hst Hlen Hno Hrun.
    apply run_arch in Hrun. simpl in Hrun.
    destruct (execute_store _ _ _ Hst Hlen) as (Ha & Hhalt & Hval).
    unfold Plain.iteration in *. fold (fetch (arch s)) in *.
    destruct (Plain.execute (fetch (arch s)) (arch s)) as [s1 halt];
      simpl in *. subst halt.
    rewrite <- Hval. by eapply run_memory_frame.
Qed.

(** ** Configuration errors *)

(** A level of no rows: the row number is a remainder by zero. *)
Lemma locate_zero_rows size assoc blocksize address :
  0 < assoc -> 0 < blocksize -> 0 <= size < assoc * blocksize ->
  assoc * blocksize < 65536 ->
  locate size assoc blocksize address = None.
Proof.
  intros Ha Hb Hs Hd. unfold locate.
  assert (0 < assoc * blocksize) as Hpos by nia.
  assert (assoc <= assoc * blocksize) as Hla by nia.
  assert (blocksize <= assoc * blocksize) as Hlb by nia.
  rewrite (u16_small size), (u16_small assoc), (u16_small blocksize)
    by (unfold word; lia).
  rewrite int_mul_small by (unfold int_range; lia). simpl.
  rewrite (int_div_nonneg size (assoc * blocksize)) by lia. simpl.
  rewrite Z.div_small by lia. change (u16 0) with 0.
  unfold int_div.
  destruct (decide (blocksize = 0 \/ address = - 2 ^ 31 /\ blocksize = -1))
    as [Hz|_]; [lia|]. by simpl.
Qed.

Lemma cache_func_zero_rows
    size assoc blocksize rest address index c is_store_word :
  0 < assoc -> 0 < blocksize -> 0 <= size < assoc * blocksize ->
  assoc * blocksize < 65536 ->
  length rest = 0%nat \/ length rest = 3%nat ->
  cache_func address index c (size :: assoc :: blocksize :: rest)
    is_store_word = None.
Proof.
  intros Ha Hb Hs Hd Hrest. unfold cache_func, addressing.
  destruct rest as [|s2 [|a2 [|b2 [|? ?]]]]; simpl in Hrest; try lia.
  - by rewrite (locate_zero_rows size assoc blocksize address) by done.
  - by rewrite (locate_zero_rows size assoc blocksize address) by done.
Qed.

Lemma main_error_iff fuel parts memory_arr :
  Cached.main fuel parts memory_arr = Returned Invalid_cache_config <->
  length parts <> 3%nat /\ length parts <> 6%nat.
Proof.
  unfold Cached.main.
  by_parts parts; simpl;
    try (split; [intros _; lia|done]).
  - split; [|lia]. destruct (make_level _ _ _) as [[]|]; simpl; [|done].
    by destruct (run_e20_simulator _ _ _).
  - split; [|lia]. destruct (make_level s1 _ _) as [[]|]; simpl; [|done].
    destruct (make_level s2 _ _) as [[]|]; simpl; [|done].
    by destruct (run_e20_simulator _ _ _).
Qed.

(** C6, as the code has it: [main] reports a configuration error exactly
    when the configuration string is not empty and splits into neither
    three nor six parts; with the empty string nothing is simulated and
    [main] returns 0.  Divisibility is not tested.  For a positive
    associativity and block size whose product fits an [int] the level is
    built with the quotient rounded down as its row count, each row with
    [assoc] fresh blocks.  When moreover the product does not exceed the
    size and the size is below 65536, the simulation runs and ends as the
    plain simulator does.  When the product exceeds the size, the level has
    no rows and every [cache_func] call divides by zero: still no
    configuration error. *)
Theorem config_error_only_on_part_count fuel memory_arr :
  (forall cache_config,
     main_from_config fuel cache_config memory_arr =
       Returned (Some Invalid_cache_config) <->
     exists parts,
       parse_cache_config cache_config = Returned (Some parts) /\
       length parts <> 3%nat /\ length parts <> 6%nat) /\
  main_from_config fuel [] memory_arr = Returned None /\
  (forall parts,
     Cached.main fuel parts memory_arr = Returned Invalid_cache_config <->
     length parts <> 3%nat /\ length parts <> 6%nat) /\
  (forall size assoc blocksize,
     0 < assoc -> 0 < blocksize -> 0 <= size ->
     int_range (assoc * blocksize) ->
     make_level size assoc blocksize =
       Some (size / (assoc * blocksize), fresh_level size assoc blocksize)) /\
  (forall parts,
     valid_config parts ->
     match Plain.main fuel memory_arr with
     | Some s' =>
         exists c' o',
           Cached.main fuel parts memory_arr =
             Returned (Simulated (Sim s' c' o'))
     | None => Cached.main fuel parts memory_arr = OutOfFuel
     end) /\
  (forall size assoc blocksize rest address index c is_store_word,
     0 < assoc -> 0 < blocksize -> 0 <= size < assoc * blocksize ->
     assoc * blocksize < 65536 ->
     length rest = 0%nat \/ length rest = 3%nat ->
     cache_func address index c (size :: assoc :: blocksize :: rest)
       is_store_word = None).
Proof.
  split; [|split; [done|split; [|split; [|split]]]].
  - intros cache_config. unfold main_from_config.
    destruct (parse_cache_config cache_config) as [[parts|]| |]; simpl.
    + pose proof (main_error_iff fuel parts memory_arr) as Herr.
      split.
      * intros Hm. exists parts. split; [done|]. apply Herr.
        destruct (Cached.main fuel parts memory_arr) as [[|s]| |];
          simpl in Hm; by simplify_eq.
      * intros (parts' & [= <-] & Hlen). apply Herr in Hlen.
        by rewrite Hlen.
    + split; [done|]. by intros (parts & ? & _).
    + split; [done|]. by intros (parts & ? & _).
    + split; [done|]. by intros (parts & ? & _).
  - intros parts. apply main_error_iff.
  - intros size assoc blocksize Ha Hb Hs Hr. unfold make_level, Level_new.
    rewrite int_mul_small by done. simpl.
    rewrite int_div_nonneg by lia. simpl.
    rewrite Level_rows_defined by lia. done.
  - intros parts. apply plain_run_main.
  - exact cache_func_zero_rows.
Qed.

(** C6 as stated fails: 10 is not a multiple of 2 * 4, yet [main] builds
    an L1 of one row and runs the program, whose load is logged. *)
Lemma indivisible_size_is_simulated :
  10 mod (2 * 4) <> 0 /\
  Cached.main 2 [10; 2; 4] one_load =
    Returned (Simulated
      (Sim (State 1 [0; 32896; 0; 0; 0; 0; 0; 0] one_load)
           {| levels_vec :=
                [{| rows_vec :=
                      [{| blocks_vec := [Block_new; {| tag := 0 |}];
                          associativity := 2 |}];
                    blocksize := 4 |}] |}
           [Cache_config "L1" 10 2 4 1; Log_entry "L1" "MISS" 0 0 0])).
Proof. split; [done|]. vm_compute. reflexivity. Qed.

(** ** The scenario of a 16-cell, 2-way cache with 4-cell blocks *)

(** C7, as the code has it: the configuration (16, 2, 4) gives two rows;
    addresses 0 and 8 both map to row 0, with tags 0 and 1; a program that
    loads from 0, from 8 and from 0 again logs MISS, MISS and HIT, all in
    row 0. *)
Theorem scenario_16_2_4 :
  make_level 16 2 4 = Some (2, fresh_level 16 2 4) /\
  length (rows_vec (fresh_level 16 2 4)) = 2%nat /\
  addressing [16; 2; 4] 0 = Some (0, 0, 0, 0) /\
  addressing [16; 2; 4] 8 = Some (0, 1, 0, 0) /\
  exists s,
    Cached.main 4 [16; 2; 4] three_loads = Returned (Simulated s) /\
    out s = [Cache_config "L1" 16 2 4 2;
             Log_entry "L1" "MISS" 0 0 0;
             Log_entry "L1" "MISS" 1 8 0;
             Log_entry "L1" "HIT" 2 0 0] /\
    blocks_at (a_cache s) 0 0 = Some [{| tag := 1 |}; {| tag := 0 |}].
Proof.
  do 4 (split; [reflexivity|]).
  eexists. split; [vm_compute; reflexivity|]. split; reflexivity.
Qed.

(** C7 as stated fails in one number: the tag of address 8 is 1, not 2. *)
Lemma tag_of_address_8 :
  addressing [16; 2; 4] 8 = Some (0, 1, 0, 0) /\
  addressing [16; 2; 4] 8 <> Some (0, 2, 0, 0).
Proof. split; [reflexivity|discriminate]. Qed.
(** ** The replacement rule *)

Lemma cache_func_l1_row address index c parts is_store_word c' log :
  cache_func address index c parts is_store_word = Some (c', log) ->
  exists r1 t1 r2 t2 row1,
    addressing parts address = Some (r1, t1, r2, t2) /\
    blocks_at c 0 r1 = Some row1 /\
    blocks_at c' 0 r1 = Some (lru_rule row1 t1) /\
    (probes_l2 c (find_tag row1 t1 0) is_store_word = true ->
     exists row2,
       blocks_at c 1 r2 = Some row2 /\
       blocks_at c' 1 r2 = Some (lru_rule row2 t2)).
Proof.
  intros Hc. apply cache_func_inv in Hc
    as (r1 & t1 & r2 & t2 & row1 & Haddr & Hrow1 & Hne1 & Hrest).
  exists r1, t1, r2, t2, row1. do 2 (split; [done|]). simpl in Hrest.
  destruct (probes_l2 c _ _).
  - destruct Hrest as (row2 & Hrow2 & Hne2 & -> & _). split.
    + rewrite blocks_at_set_ne by auto. apply blocks_at_set_eq. eauto.
    + intros _. exists row2. split; [done|]. apply blocks_at_set_eq.
      rewrite blocks_at_set_ne by auto. eauto.
  - destruct Hrest as [-> _]. split; [|done].
    apply blocks_at_set_eq. eauto.
Qed.

(** Rows of two blocks. *)
Lemma lru_rule_head z l t :
  tag z = t -> lru_rule (z :: l) t = l ++ [{| tag := t |}].
Proof.
  intros Hz. unfold lru_rule. simpl.
  rewrite bool_decide_eq_true_2 by (rewrite Hz; apply list_elem_of_here).
  by rewrite (proj2 (Z.eqb_eq _ _) Hz).
Qed.

Lemma lru_rule_pair z u t :
  tag u <> t -> lru_rule [z; u] t = [u; {| tag := t |}].
Proof.
  intros Hu. destruct (decide (tag z = t)) as [Hz|Hz];
    [by rewrite lru_rule_head|].
  unfold lru_rule. simpl. rewrite bool_decide_eq_false_2; [done|].
  rewrite !not_elem_of_cons. split; [done|]. split; [done|].
  apply not_elem_of_nil.
Qed.

Lemma lru_rule_pair_last x y t :
  exists z, lru_rule [x; y] t = [z; {| tag := t |}].
Proof.
  destruct (decide (tag y = t)) as [Hy|Hy];
    [|exists y; by apply lru_rule_pair].
  destruct (decide (tag x = t)) as [Hx|Hx];
    [exists y; by rewrite lru_rule_head|].
  exists x. unfold lru_rule. simpl.
  rewrite bool_decide_eq_true_2
    by (rewrite <- Hy; apply list_elem_of_further, list_elem_of_here).
  rewrite (proj2 (Z.eqb_neq _ _) Hx), (proj2 (Z.eqb_eq _ _) Hy). done.
Qed.

(** Four accesses with tags A, B, A, C on a row of two blocks. *)
Lemma lru_rule_ABAC row A B C :
  length row = 2%nat -> A <> B -> C <> A -> C <> B ->
  lru_rule (lru_rule (lru_rule row A) B) A = [{| tag := B |}; {| tag := A |}]
  /\ lru_rule [{| tag := B |}; {| tag := A |}] C
     = [{| tag := A |}; {| tag := C |}].
Proof.
  intros Hlen HAB HCA HCB.
  destruct row as [|x [|y [|? ?]]]; try done. clear Hlen.
  destruct (lru_rule_pair_last x y A) as [z ->].
  rewrite (lru_rule_pair z _ B) by done.
  rewrite lru_rule_head by done. simpl.
  by rewrite lru_rule_pair by (simpl; congruence).
Qed.

Lemma cache_wf_l1_row parts c r row assoc :
  cache_wf parts c -> parts !! 1%nat = Some assoc ->
  blocks_at c 0 r = Some row -> length row = Z.to_nat assoc.
Proof.
  unfold cache_wf, blocks_at. intros Hwf Hassoc Hrow.
  by_parts parts; try done;
    destruct (levels_vec c) as [|l1 [|l2 [|? ?]]]; try done;
    simpl in *; simplify_eq;
    destruct (rows_vec l1 !! Z.to_nat r) as [x|] eqn:Hx; simplify_eq/=.
  - destruct Hwf as [_ [_ Hall]]. rewrite Forall_lookup in Hall. eauto.
  - destruct Hwf as [[_ [_ Hall]] _]. rewrite Forall_lookup in Hall. eauto.
Qed.

(** One access on a well-formed cache, seen from the L1 row it maps to. *)
Lemma access_l1 parts c access r t :
  cache_wf parts c -> maps_to parts access r t ->
  exists c' log row,
    cache_func access.1.1 access.1.2 c parts access.2 = Some (c', log) /\
    cache_wf parts c' /\
    blocks_at c 0 r = Some row /\
    blocks_at c' 0 r = Some (lru_rule row t).
Proof.
  intros Hwf [Hword Hslot].
  destruct (cache_func_defined access.1.1 access.1.2 c parts access.2
              Hwf Hword) as (c' & log & Hc & Hwf').
  destruct (cache_func_l1_row _ _ _ _ _ _ _ Hc)
    as (r1 & t1 & r2 & t2 & row1 & Haddr & Hrow1 & Hrow1' & _).
  unfold l1_slot in Hslot. rewrite Haddr in Hslot. simplify_eq/=.
  eauto 10.
Qed.

(** C3: every access updates the row of every level it probes by one rule,
    whatever the kind of access: the first block with the tag, if there is
    one, is removed from its place, otherwise the block at index 0 is
    removed, and a block with the tag is appended at the tail.  Hence on an
    L1 of associativity 2, four accesses to one row with tags A, B, A, C
    leave [B; A] after the third and [A; C] after the fourth: the fourth
    evicts B. *)
Theorem replacement_is_lru :
  (forall address index c parts is_store_word c' log,
     cache_func address index c parts is_store_word = Some (c', log) ->
     exists r1 t1 r2 t2 row1,
       addressing parts address = Some (r1, t1, r2, t2) /\
       blocks_at c 0 r1 = Some row1 /\
       blocks_at c' 0 r1 = Some (lru_rule row1 t1) /\
       (probes_l2 c (find_tag row1 t1 0) is_store_word = true ->
        exists row2,
          blocks_at c 1 r2 = Some row2 /\
          blocks_at c' 1 r2 = Some (lru_rule row2 t2))) /\
  (forall parts c x1 x2 x3 x4 r A B C,
     cache_wf parts c -> parts !! 1%nat = Some 2 ->
     maps_to parts x1 r A -> maps_to parts x2 r B ->
     maps_to parts x3 r A -> maps_to parts x4 r C ->
     A <> B -> C <> A -> C <> B ->
     exists c3 c4,
       access_all parts [x1; x2; x3] c = Some c3 /\
       blocks_at c3 0 r = Some [{| tag := B |}; {| tag := A |}] /\
       access_all parts [x1; x2; x3; x4] c = Some c4 /\
       blocks_at c4 0 r = Some [{| tag := A |}; {| tag := C |}]).
Proof.
  split; [exact cache_func_l1_row|].
  intros parts c x1 x2 x3 x4 r A B C Hwf Hassoc H1 H2 H3 H4 HAB HCA HCB.
  destruct (access_l1 _ _ _ _ _ Hwf H1)
    as (c1 & o1 & row & Hc1 & Hwf1 & Hrow & Hrow1).
  destruct (access_l1 _ _ _ _ _ Hwf1 H2)
    as (c2 & o2 & row1 & Hc2 & Hwf2 & Hrow1' & Hrow2).
  destruct (access_l1 _ _ _ _ _ Hwf2 H3)
    as (c3 & o3 & row2 & Hc3 & Hwf3 & Hrow2' & Hrow3).
  destruct (access_l1 _ _ _ _ _ Hwf3 H4)
    as (c4 & o4 & row3 & Hc4 & Hwf4 & Hrow3' & Hrow4).
  simplify_eq.
  pose proof (cache_wf_l1_row _ _ _ _ _ Hwf Hassoc Hrow) as Hlen.
  destruct (lru_rule_ABAC row A B C Hlen HAB HCA HCB) as [E3 E4].
  rewrite E3 in Hrow3, Hrow4. rewrite E4 in Hrow4.
  exists c3, c4. destruct x1 as [[??]?], x2 as [[??]?], x3 as [[??]?],
    x4 as [[??]?]. simpl in *.
  rewrite Hc1. simpl. rewrite Hc2. simpl. rewrite Hc3. simpl.
  rewrite Hc4. simpl. done.
Qed.

(** ** When L2 is probed *)

(** C4: with two levels, L2 is probed, and logs one event, exactly when the
    access is a store or a load that misses in L1.  A store logs SW once for
    each level; a load that hits in L1 logs only the L1 hit and leaves the
    second level as it was; a load that misses in L1 logs the miss and then
    one L2 event.  With any other number of levels only L1 logs. *)
Theorem l2_probed_on_store_or_l1_miss
    address index c parts is_store_word c' log :
  cache_func address index c parts is_store_word = Some (c', log) ->
  exists r1 t1 r2 t2 row1,
    addressing parts address = Some (r1, t1, r2, t2) /\
    blocks_at c 0 r1 = Some row1 /\
    (length (levels_vec c) <> 2%nat ->
     log = [Log_entry "L1" (status_of is_store_word (find_tag row1 t1 0))
              index address r1]) /\
    (length (levels_vec c) = 2%nat ->
     match is_store_word, find_tag row1 t1 0 with
     | false, Some _ =>
         log = [Log_entry "L1" "HIT" index address r1] /\
         levels_vec c' !! 1%nat = levels_vec c !! 1%nat
     | st, _ =>
         exists row2,
           blocks_at c 1 r2 = Some row2 /\
           blocks_at c' 1 r2 = Some (lru_rule row2 t2) /\
           log = [Log_entry "L1" (if st then "SW" else "MISS")
                    index address r1;
                  Log_entry "L2" (status_of st (find_tag row2 t2 0))
                    index address r2]
     end).
Proof.
  intros Hc. apply cache_func_inv in Hc
    as (r1 & t1 & r2 & t2 & row1 & Haddr & Hrow1 & Hne1 & Hrest).
  exists r1, t1, r2, t2, row1. do 2 (split; [done|]). simpl in Hrest.
  unfold probes_l2 in Hrest. split.
  - intros Hlen. rewrite bool_decide_eq_false_2 in Hrest by done.
    by destruct Hrest as [_ ->].
  - intros Hlen. rewrite bool_decide_eq_true_2 in Hrest by done.
    destruct is_store_word, (find_tag row1 t1 0) as [j|]; simpl in *.
    + destruct Hrest as (row2 & Hrow2 & Hne2 & -> & ->).
      exists row2. split; [done|]. split; [|done].
      apply blocks_at_set_eq. rewrite blocks_at_set_ne by auto. eauto.
    + destruct Hrest as (row2 & Hrow2 & Hne2 & -> & ->).
      exists row2. split; [done|]. split; [|done].
      apply blocks_at_set_eq. rewrite blocks_at_set_ne by auto. eauto.
    + destruct Hrest as [-> ->]. split; [done|]. by apply levels_set_ne.
    + destruct Hrest as (row2 & Hrow2 & Hne2 & -> & ->).
      exists row2. split; [done|]. split; [|done].
      apply blocks_at_set_eq. rewrite blocks_at_set_ne by auto. eauto.
Qed.
(** ** Row lengths *)

Lemma lru_rule_erase_push row t :
  row <> [] ->
  exists i, (i < length row)%nat /\
            lru_rule row t = delete i row ++ [{| tag := t |}].
Proof.
  intros Hne. pose proof (update_row_defined row t Hne) as Hu.
  unfold update_row in Hu. destruct (find_tag row t 0) as [j|] eqn:Hf.
  - apply find_tag_range in Hf. exists j. split; [lia|]. by injection Hu.
  - destruct row; [done|]. exists 0%nat. simpl. split; [lia|].
    by injection Hu.
Qed.

Lemma blocks_at_to_nat c lv rw rw' :
  Z.to_nat rw = Z.to_nat rw' -> blocks_at c lv rw = blocks_at c lv rw'.
Proof. unfold blocks_at. by intros ->. Qed.

Lemma set_blocks_length c lv0 rw0 row blocks lv rw :
  blocks_at c lv0 rw0 = Some row -> length blocks = length row ->
  length <$> blocks_at (set_blocks_at c lv0 rw0 blocks) lv rw =
  length <$> blocks_at c lv rw.
Proof.
  intros Hrow Hlen.
  destruct (decide (lv0 = lv /\ Z.to_nat rw0 = Z.to_nat rw)) as [[<- Hrw]|Hne].
  - rewrite <- !(blocks_at_to_nat _ _ _ _ Hrw).
    rewrite blocks_at_set_eq by eauto. rewrite Hrow. simpl. by rewrite Hlen.
  - rewrite blocks_at_set_ne; [done|].
    destruct (decide (lv0 = lv)); [right|left]; tauto.
Qed.

Lemma Level_new_rows size num_of_rows assoc blocksize level :
  Level_new size num_of_rows assoc blocksize = Some level ->
  length (rows_vec level) = Z.to_nat num_of_rows /\
  Forall (fun row => Z.of_nat (length (blocks_vec row)) = assoc /\
                     associativity row = assoc) (rows_vec level).
Proof.
  unfold Level_new. intros Hl.
  destruct (Level_rows _ _ _) as [rows|] eqn:Hrows; simplify_eq/=.
  apply Level_rows_inv in Hrows as [-> Hassoc]. simpl. split.
  - by rewrite length_replicate.
  - destruct (Z.to_nat num_of_rows) as [|n]; [constructor|].
    apply Forall_replicate. simpl. rewrite length_replicate. lia.
Qed.

(** C9: the [Level] constructor gives every row exactly [associativity]
    blocks (and is defined for every associativity that is not negative), and
    a call of [cache_func] changes the length of no row of any level: on
    each row it probes it erases one block at a valid index and appends
    one.  On a well-formed cache the call is defined. *)
Theorem rows_keep_their_length :
  (forall size num_of_rows assoc blocksize,
     0 <= assoc ->
     exists level,
       Level_new size num_of_rows assoc blocksize = Some level /\
       length (rows_vec level) = Z.to_nat num_of_rows /\
       Forall (fun row => Z.of_nat (length (blocks_vec row)) = assoc)
              (rows_vec level)) /\
  (forall address index c parts is_store_word c' log,
     cache_func address index c parts is_store_word = Some (c', log) ->
     (forall lv rw,
        length <$> blocks_at c' lv rw = length <$> blocks_at c lv rw) /\
     exists r1 t1 r2 t2 row1 i1,
       addressing parts address = Some (r1, t1, r2, t2) /\
       blocks_at c 0 r1 = Some row1 /\ (i1 < length row1)%nat /\
       blocks_at c' 0 r1 = Some (delete i1 row1 ++ [{| tag := t1 |}]) /\
       (probes_l2 c (find_tag row1 t1 0) is_store_word = true ->
        exists row2 i2,
          blocks_at c 1 r2 = Some row2 /\ (i2 < length row2)%nat /\
          blocks_at c' 1 r2 = Some (delete i2 row2 ++ [{| tag := t2 |}]))) /\
  (forall address index c parts is_store_word,
     cache_wf parts c -> word address ->
     exists c' log,
       cache_func address index c parts is_store_word = Some (c', log) /\
       cache_wf parts c').
Proof.
  split; [|split; [|exact cache_func_defined]].
  - intros size num_of_rows assoc blocksize Hassoc.
    destruct (Level_new size num_of_rows assoc blocksize) as [level|] eqn:Hl.
    + apply Level_new_rows in Hl as [Hlen Hall]. exists level.
      do 2 (split; [done|]). eapply Forall_impl; [exact Hall|].
      by intros row [? _].
    + unfold Level_new in Hl. by rewrite Level_rows_defined in Hl.
  - intros address index c parts is_store_word c' log Hc.
    apply cache_func_inv in Hc
      as (r1 & t1 & r2 & t2 & row1 & Haddr & Hrow1 & Hne1 & Hrest).
    simpl in Hrest.
    destruct (lru_rule_erase_push row1 t1 Hne1) as (i1 & Hi1 & E1).
    pose proof (lru_rule_length row1 t1 Hne1) as Hlen1.
    destruct (probes_l2 c _ _) eqn:Hp.
    + destruct Hrest as (row2 & Hrow2 & Hne2 & -> & _).
      destruct (lru_rule_erase_push row2 t2 Hne2) as (i2 & Hi2 & E2).
      pose proof (lru_rule_length row2 t2 Hne2) as Hlen2.
      assert (blocks_at (set_blocks_at c 0 r1 (lru_rule row1 t1)) 1 r2
              = Some row2) as Hrow2' by (by rewrite blocks_at_set_ne by auto).
      split.
      * intros lv rw.
        rewrite (set_blocks_length _ _ _ _ _ _ _ Hrow2' Hlen2).
        by rewrite (set_blocks_length _ _ _ _ _ _ _ Hrow1 Hlen1).
      * exists r1, t1, r2, t2, row1, i1. do 3 (split; [done|]). split.
        -- rewrite blocks_at_set_ne by auto. rewrite <- E1.
           apply blocks_at_set_eq. eauto.
        -- intros _. exists row2, i2. do 2 (split; [done|]).
           rewrite <- E2. apply blocks_at_set_eq. eauto.
    + destruct Hrest as [-> _]. split.
      * intros lv rw.
        by rewrite (set_blocks_length _ _ _ _ _ _ _ Hrow1 Hlen1).
      * exists r1, t1, r2, t2, row1, i1. do 3 (split; [done|]).
        split; [|by rewrite Hp]. rewrite <- E1. apply blocks_at_set_eq. eauto.
Qed.

(** ** The empty marker *)

Lemma int_div_Some a b q : int_div a b = Some q -> b <> 0 /\ q = Z.quot a b.
Proof.
  unfold int_div. case_decide as Hb; [done|]. intros [= <-].
  split; [|done]. intros ->. apply Hb. by left.
Qed.

Lemma locate_tag_bound size assoc blocksize address r t :
  0 <= address < MEM_SIZE ->
  locate size assoc blocksize address = Some (r, t) ->
  0 <= t <= 8191.
Proof.
  change MEM_SIZE with 8192. intros Ha. unfold locate.
  destruct (int_mul _ _) as [d|]; [simpl|done].
  destruct (int_div (u16 size) d) as [q1|]; [simpl|done].
  destruct (int_div address (u16 blocksize)) as [q2|] eqn:H2; [simpl|done].
  destruct (int_rem _ _) as [q3|]; [simpl|done].
  destruct (int_div (u16 q2) _) as [q4|] eqn:H4; [simpl|done].
  intros [= _ <-].
  apply int_div_Some in H2 as [Hbs ->]. apply int_div_Some in H4 as [Hrows ->].
  set (bs := u16 blocksize) in *. set (rows := u16 q1) in *.
  assert (0 < bs) by (unfold bs, u16 in *; lia).
  assert (0 < rows) by (unfold rows, u16 in *; lia).
  rewrite (Z.quot_div_nonneg address bs) by lia.
  assert (0 <= address / bs <= address) as Hblk.
  { split; [apply Z.div_pos; lia|]. apply Z.div_le_upper_bound; nia. }
  rewrite (u16_small (address / bs)) by (unfold word; lia).
  rewrite Z.quot_div_nonneg by lia.
  assert (0 <= address / bs / rows <= address / bs) as Htag.
  { split; [apply Z.div_pos; lia|]. apply Z.div_le_upper_bound; nia. }
  rewrite u16_small by (unfold word; lia). lia.
Qed.

Lemma addressing_tag_bound parts address r1 t1 r2 t2 :
  0 <= address < MEM_SIZE ->
  addressing parts address = Some (r1, t1, r2, t2) ->
  0 <= t1 <= 8191 /\ 0 <= t2 <= 8191.
Proof.
  intros Ha. unfold addressing.
  by_parts parts;
    try (intros [= <- <- <- <-]; lia).
  - destruct (locate s1 a1 b1 address) as [[r t]|] eqn:H1; [|done]. simpl.
    intros [= <- <- <- <-]. apply locate_tag_bound in H1; [lia|done].
  - destruct (locate s1 a1 b1 address) as [[r t]|] eqn:H1; [|done]. simpl.
    destruct (locate s2 a2 b2 address) as [[r' t']|] eqn:H2; [|done]. simpl.
    intros [= <- <- <- <-]. apply locate_tag_bound in H1; [|done].
    apply locate_tag_bound in H2; [lia|done].
Qed.

(** The block a search finds carries the tag searched for. *)
Lemma find_tag_lookup l t i j :
  find_tag l t i = Some j ->
  exists b, l !! (j - i)%nat = Some b /\ tag b = t.
Proof.
  revert i. induction l as [|b l IH]; intros i; simpl; [done|].
  destruct (Z.eqb_spec (tag b) t) as [Heq|Hne].
  - intros [= <-]. rewrite Nat.sub_diag. eauto.
  - intros Hf. pose proof (find_tag_range _ _ _ _ Hf).
    destruct (IH _ Hf) as (b' & Hb' & Ht). exists b'. split; [|done].
    by replace (j - i)%nat with (S (j - S i)) by lia.
Qed.

Lemma find_tag_fresh n t :
  0 <= t <= 8191 -> find_tag (replicate n Block_new) t 0 = None.
Proof.
  intros Ht. apply find_tag_None. intros Hin.
  apply list_elem_of_fmap in Hin as (b & -> & Hb).
  apply elem_of_replicate_inv in Hb. subst b.
  change (tag Block_new) with 65535 in Ht. lia.
Qed.

Lemma cache_func_log_address address index c parts is_store_word c' log :
  cache_func address index c parts is_store_word = Some (c', log) ->
  Forall (fun e => match e with
                   | Log_entry _ _ _ addr _ => addr = address
                   | Cache_config _ _ _ _ _ => False
                   end) log.
Proof.
  intros Hc. apply cache_func_inv in Hc
    as (r1 & t1 & r2 & t2 & row1 & _ & _ & _ & Hrest). simpl in Hrest.
  destruct (probes_l2 c _ _).
  - destruct Hrest as (row2 & _ & _ & _ & ->). by repeat constructor.
  - destruct Hrest as [_ ->]. by repeat constructor.
Qed.

Lemma execute_log_addresses parts instruction s s' halt :
  Cached.execute parts instruction s = Some (s', halt) ->
  exists entries,
    out s' = out s ++ entries /\ Forall logs_address_in_memory entries.
Proof.
  assert (forall x, 0 <= x mod MEM_SIZE < MEM_SIZE) as Hmod.
  { intros x. apply Z.mod_pos_bound. done. }
  destruct (decide (Z.shiftr instruction 13 = 4)) as [H4|H4];
    [|destruct (decide (Z.shiftr instruction 13 = 5)) as [H5|H5]].
  - unfold Cached.execute. rewrite H4. simpl.
    destruct (cache_func _ _ _ _ _) as [[c' log]|] eqn:Hc; [|done]. simpl.
    intros [= <- _]. simpl. exists log. split; [done|].
    apply cache_func_log_address in Hc. eapply Forall_impl; [exact Hc|].
    intros [] Hx; [done|]. simpl in *. subst. apply Hmod.
  - unfold Cached.execute. rewrite H5. simpl.
    destruct (cache_func _ _ _ _ _) as [[c' log]|] eqn:Hc; [|done]. simpl.
    intros [= <- _]. simpl. exists log. split; [done|].
    apply cache_func_log_address in Hc. eapply Forall_impl; [exact Hc|].
    intros [] Hx; [done|]. simpl in *. subst. apply Hmod.
  - rewrite execute_no_access by done. intros [= <- _]. simpl.
    exists []. by rewrite app_nil_r.
Qed.

Lemma blocks_at_fresh parts lv rw row :
  blocks_at (fresh_cache parts) lv rw = Some row ->
  exists n, row = replicate n Block_new.
Proof.
  unfold blocks_at, fresh_cache.
  by_parts parts; simpl;
    try done; destruct lv as [|[|lv]]; simpl; try done;
    unfold fresh_row;
    intros Hrow;
    match type of Hrow with
    | context [replicate ?n ?x !! ?i] =>
        destruct (replicate n x !! i) as [r|] eqn:Hr; simplify_eq/=;
        apply lookup_replicate in Hr as [-> _]; simpl; eauto
    end.
Qed.

Lemma fresh_cache_wf parts : valid_config parts -> cache_wf parts (fresh_cache parts).
Proof.
  unfold valid_config, cache_wf, fresh_cache. intros Hv.
  by_parts parts; simpl;
    try done.
  - split; [done|]. by apply make_level_valid.
  - destruct Hv as [Hv1 Hv2].
    split; (split; [done|]); by apply make_level_valid.
Qed.

(** C10: a fresh block carries the tag 0xFFFF.  Every address an iteration
    passes to the cache is below 8192, so every tag [cache_func] computes,
    where it computes one at all, is at most 8191 and differs from the tag
    of a fresh block: a search never stops at a fresh block, and the first
    load on the cache [main] builds for a valid configuration is defined
    and logs MISS at every level. *)
Theorem fresh_blocks_never_hit :
  tag Block_new = 65535 /\
  (forall parts instruction s s' halt,
     Cached.execute parts instruction s = Some (s', halt) ->
     exists entries,
       out s' = out s ++ entries /\ Forall logs_address_in_memory entries) /\
  (forall parts address r1 t1 r2 t2,
     0 <= address < MEM_SIZE ->
     addressing parts address = Some (r1, t1, r2, t2) ->
     0 <= t1 <= 8191 /\ 0 <= t2 <= 8191) /\
  (forall row t i j,
     0 <= t <= 8191 -> find_tag row t i = Some j ->
     row !! (j - i)%nat <> Some Block_new) /\
  (forall parts address index,
     valid_config parts -> 0 <= address < MEM_SIZE ->
     exists c' log,
       cache_func address index (fresh_cache parts) parts false
         = Some (c', log) /\
       Forall (has_status "MISS") log).
Proof.
  split; [reflexivity|]. split; [exact execute_log_addresses|].
  split; [exact addressing_tag_bound|]. split.
  - intros row t i j Ht Hf Hrow.
    destruct (find_tag_lookup _ _ _ _ Hf) as (b & Hb & Htag).
    rewrite Hrow in Hb. injection Hb as <-.
    change (tag Block_new) with 65535 in Htag. lia.
  - intros parts address index Hv Ha.
    pose proof (fresh_cache_wf parts Hv) as Hwf.
    assert (word address) as Hword
      by (unfold word; change MEM_SIZE with 8192 in Ha; lia).
    destruct (cache_func_defined address index _ parts false Hwf Hword)
      as (c' & log & Hc & _).
    exists c', log. split; [done|].
    apply cache_func_inv in Hc
      as (r1 & t1 & r2 & t2 & row1 & Haddr & Hrow1 & _ & Hrest).
    destruct (addressing_tag_bound _ _ _ _ _ _ Ha Haddr) as [Ht1 Ht2].
    apply blocks_at_fresh in Hrow1 as [n1 ->]. simpl in Hrest.
    rewrite find_tag_fresh in Hrest by done.
    destruct (probes_l2 _ _ _).
    + destruct Hrest as (row2 & Hrow2 & _ & _ & ->).
      apply blocks_at_fresh in Hrow2 as [n2 ->].
      rewrite find_tag_fresh by done. by repeat constructor.
    + destruct Hrest as [_ ->]. by repeat constructor.
Qed.
(** ** The theorems at concrete inputs *)

Lemma valid_16_2_4 : valid_config [16; 2; 4].
Proof. unfold valid_config, valid_level. lia. Defined.

(** [addi $0, $0, 5] at the start of the sample run. *)
Lemma reg0_zero_after_execute_witness :
  plain_after 0 (initial j0_image) = Some (initial j0_image) /\
  aget (regs_arr (initial j0_image)) 0 = 0 /\
  aget (regs_arr (Plain.execute 8197 (initial j0_image)).1) 0 = 0.
Proof.
  split; [reflexivity|].
  apply (proj1 (reg0_zero_after_execute j0_image) 0%nat (initial j0_image)
           8197 eq_refl).
Defined.

(** Tags 0, 1, 0, 2 in row 0 of a 16-cell, 2-way L1 with 4-cell blocks. *)
Lemma replacement_is_lru_witness :
  exists c3 c4,
    access_all [16; 2; 4] [(0, 0, false); (8, 1, false); (0, 2, true)]
      (fresh_cache [16; 2; 4]) = Some c3 /\
    blocks_at c3 0 0 = Some [{| tag := 1 |}; {| tag := 0 |}] /\
    access_all [16; 2; 4]
      [(0, 0, false); (8, 1, false); (0, 2, true); (16, 3, false)]
      (fresh_cache [16; 2; 4]) = Some c4 /\
    blocks_at c4 0 0 = Some [{| tag := 0 |}; {| tag := 2 |}].
Proof.
  apply (proj2 replacement_is_lru [16; 2; 4] (fresh_cache [16; 2; 4])
           (0, 0, false) (8, 1, false) (0, 2, true) (16, 3, false)
           0 0 1 2).
  - apply fresh_cache_wf, valid_16_2_4.
  - reflexivity.
  - split; [unfold word; simpl; lia|reflexivity].
  - split; [unfold word; simpl; lia|reflexivity].
  - split; [unfold word; simpl; lia|reflexivity].
  - split; [unfold word; simpl; lia|reflexivity].
  - lia.
  - lia.
  - lia.
Defined.

(** A store to address 0 on a fresh two-level cache. *)
Lemma l2_probed_on_store_or_l1_miss_witness :
  cache_func 0 0 (fresh_cache two_levels) two_levels true =
    Some (two_levels_after_store,
          [Log_entry "L1" "SW" 0 0 0; Log_entry "L2" "SW" 0 0 0]) /\
  exists r1 t1 r2 t2 row1,
    addressing two_levels 0 = Some (r1, t1, r2, t2) /\
    blocks_at (fresh_cache two_levels) 0 r1 = Some row1 /\
    (length (levels_vec (fresh_cache two_levels)) <> 2%nat ->
     [Log_entry "L1" "SW" 0 0 0; Log_entry "L2" "SW" 0 0 0] =
     [Log_entry "L1" (status_of true (find_tag row1 t1 0)) 0 0 r1]) /\
    (length (levels_vec (fresh_cache two_levels)) = 2%nat ->
     match true, find_tag row1 t1 0 with
     | false, Some _ =>
         [Log_entry "L1" "SW" 0 0 0; Log_entry "L2" "SW" 0 0 0] =
         [Log_entry "L1" "HIT" 0 0 r1] /\
         levels_vec two_levels_after_store !! 1%nat =
         levels_vec (fresh_cache two_levels) !! 1%nat
     | st, _ =>
         exists row2,
           blocks_at (fresh_cache two_levels) 1 r2 = Some row2 /\
           blocks_at two_levels_after_store 1 r2 =
             Some (lru_rule row2 t2) /\
           [Log_entry "L1" "SW" 0 0 0; Log_entry "L2" "SW" 0 0 0] =
           [Log_entry "L1" (if st then "SW" else "MISS") 0 0 r1;
            Log_entry "L2" (status_of st (find_tag row2 t2 0)) 0 0 r2]
     end).
Proof.
  split; [reflexivity|].
  apply (l2_probed_on_store_or_l1_miss 0 0 (fresh_cache two_levels)
           two_levels true). reflexivity.
Defined.

(** The three loads under a valid one-level configuration. *)
Lemma cache_is_observer_witness :
  valid_config [16; 2; 4] /\
  match Plain.main 4 three_loads with
  | Some s' =>
      exists c' o',
        Cached.main 4 [16; 2; 4] three_loads =
          Returned (Simulated (Sim s' c' o'))
  | None => Cached.main 4 [16; 2; 4] three_loads = OutOfFuel
  end.
Proof.
  split; [exact valid_16_2_4|].
  apply (proj1 (proj2 (proj2 cache_is_observer)) 4%nat [16; 2; 4]
           three_loads).
  exact valid_16_2_4.
Defined.

(** A size that is no multiple of the row size, under the sample program
    with one load. *)
Lemma config_error_only_on_part_count_witness :
  (valid_config [10; 2; 4] /\ 10 mod (2 * 4) <> 0) /\
  match Plain.main 2 one_load with
  | Some s' =>
      exists c' o',
        Cached.main 2 [10; 2; 4] one_load =
          Returned (Simulated (Sim s' c' o'))
  | None => Cached.main 2 [10; 2; 4] one_load = OutOfFuel
  end.
Proof.
  assert (valid_config [10; 2; 4]) as Hv
    by (unfold valid_config, valid_level; lia).
  split; [split; [exact Hv|done]|].
  apply (proj1 (proj2 (proj2 (proj2 (proj2
           (config_error_only_on_part_count 2%nat one_load)))))
           [10; 2; 4] Hv).
Defined.

(** Opcode 0 with selector 5, from the start state. *)
Lemma unhandled_selector_frame_witness :
  unhandled_selector 5 /\
  (Plain.execute 5 (arch start_sim) =
     (State (pc (arch start_sim)) (aset (regs_arr (arch start_sim)) 0 0)
        (memory_arr (arch start_sim)), false) /\
   forall parts c o,
     Cached.execute parts 5 (Sim (arch start_sim) c o) =
     Some (Sim (State (pc (arch start_sim))
                  (aset (regs_arr (arch start_sim)) 0 0)
                  (memory_arr (arch start_sim))) c o, false)).
Proof.
  assert (unhandled_selector 5) as H5.
  { unfold unhandled_selector. change (Z.shiftr 5 13) with 0.
    change (Z.land 5 15) with 5. lia. }
  split; [exact H5|].
  apply (unhandled_selector_frame 5 (arch start_sim) H5).
Defined.

(** A load on the fresh one-level cache. *)
Lemma rows_keep_their_length_witness :
  (cache_wf [16; 2; 4] (fresh_cache [16; 2; 4]) /\ word 8) /\
  exists c' log,
    cache_func 8 0 (fresh_cache [16; 2; 4]) [16; 2; 4] false =
      Some (c', log) /\
    cache_wf [16; 2; 4] c'.
Proof.
  assert (cache_wf [16; 2; 4] (fresh_cache [16; 2; 4])) as Hwf
    by apply fresh_cache_wf, valid_16_2_4.
  assert (word 8) as H8 by (unfold word; lia).
  split; [by split|].
  apply (proj2 (proj2 rows_keep_their_length) 8 0
           (fresh_cache [16; 2; 4]) [16; 2; 4] false Hwf H8).
Defined.

(** The first load on the fresh two-level cache. *)
Lemma fresh_blocks_never_hit_witness :
  (valid_config two_levels /\ 0 <= 8 < MEM_SIZE) /\
  exists c' log,
    cache_func 8 0 (fresh_cache two_levels) two_levels false
      = Some (c', log) /\
    Forall (has_status "MISS") log.
Proof.
  assert (valid_config two_levels) as Hv
    by (unfold valid_config, two_levels, valid_level; lia).
  assert (0 <= 8 < MEM_SIZE) as H8 by (change MEM_SIZE with 8192; lia).
  split; [by split|].
  apply (proj2 (proj2 (proj2 (proj2 fresh_blocks_never_hit)))
           two_levels 8 0 Hv H8).
Defined.

(** * Further properties of the instruction loop *)

(** ** Words stay words *)

Lemma word_land_ones x : word x <-> x = Z.land x (Z.ones 16).
Proof.
  rewrite Z.land_ones by lia. unfold word. change (2 ^ 16) with 65536. lia.
Qed.

Lemma lor_word a b : word a -> word b -> word (Z.lor a b).
Proof.
  rewrite !word_land_ones. intros Ha Hb.
  rewrite Z.land_lor_distr_l. by f_equal.
Qed.

Lemma land_word a b : word a -> word (Z.land a b).
Proof.
  rewrite !word_land_ones. intros Ha.
  rewrite <- Z.land_assoc, (Z.land_comm b), Z.land_assoc. by f_equal.
Qed.

Lemma land_ones_bound a k : 0 <= k -> 0 <= Z.land a (Z.ones k) < 2 ^ k.
Proof.
  intros Hk. rewrite Z.land_ones by done. apply Z.mod_pos_bound.
  by apply Z.pow_pos_nonneg.
Qed.

Lemma bits_reg_bound x : 0 <= Z.land x 7 < 8.
Proof. apply (land_ones_bound x 3). lia. Qed.

Lemma bits0_12_bound x : 0 <= Z.land x 8191 < 8192.
Proof. apply (land_ones_bound x 13). lia. Qed.

Lemma bits0_6_bound x : 0 <= Z.land x 127 < 128.
Proof. apply (land_ones_bound x 7). lia. Qed.

(** [sign_extend7_func] on every 7-bit field, by enumeration. *)
Lemma sign_extend7_table :
  Forall (fun imm7 => sign_extend7_func imm7 = u16 (signed7 imm7))
         (seqZ 0 128).
Proof. apply (bool_decide_unpack _). vm_compute. exact I. Qed.

Lemma sign_extend7_signed imm7 :
  0 <= imm7 < 128 -> sign_extend7_func imm7 = u16 (signed7 imm7).
Proof.
  intros Hi. pose proof sign_extend7_table as Ht.
  rewrite Forall_forall in Ht. apply Ht. apply elem_of_seqZ. lia.
Qed.

Lemma sign_extend7_word imm7 :
  0 <= imm7 < 128 -> word (sign_extend7_func imm7).
Proof. intros Hi. rewrite sign_extend7_signed by done. apply u16_word. Qed.

Lemma aget_word a i : Forall word a -> word (aget a i).
Proof.
  intros Ha. unfold aget. destruct (a !! Z.to_nat i) as [x|] eqn:Hx; simpl.
  - rewrite Forall_lookup in Ha. eauto.
  - unfold word. lia.
Qed.

Lemma aset_word a i v : Forall word a -> word v -> Forall word (aset a i v).
Proof.
  intros Ha Hv. unfold aset. rewrite Forall_lookup. intros j x Hj.
  destruct (decide (Z.to_nat i = j)) as [<-|Hne].
  - destruct (decide (Z.to_nat i < length a)%nat).
    + rewrite list_lookup_insert_eq in Hj by done. by simplify_eq.
    + rewrite list_insert_ge in Hj by lia.
      rewrite Forall_lookup in Ha. eauto.
  - rewrite list_lookup_insert_ne in Hj by done.
    rewrite Forall_lookup in Ha. eauto.
Qed.

Lemma bool_word (b : bool) : word (if b then 1 else 0).
Proof. unfold word. destruct b; lia. Qed.

Lemma plain_execute_wf instruction s :
  state_wf s -> state_wf (Plain.execute instruction s).1.
Proof.
  intros (Hpc & Hrl & Hrw & Hml & Hmw).
  pose proof (bits0_12_bound instruction) as H12.
  pose proof (sign_extend7_word _ (bits0_6_bound instruction)) as Himm.
  assert (forall x, word (Z.land x 8191)) as Hj.
  { intros x. pose proof (bits0_12_bound x). unfold word. lia. }
  unfold Plain.execute.
  repeat case_match; simplify_eq/=; unfold state_wf; simpl;
    rewrite ?length_aset;
    repeat split; try done;
    repeat first
      [ apply Hj | apply u16_word | apply aset_word | apply aget_word
      | apply lor_word | apply land_word | apply bool_word | done ].
  all: unfold word in *; lia.
Qed.

Lemma run_wf fuel s s' :
  state_wf s -> Plain.run fuel s = Some s' -> state_wf s'.
Proof.
  revert s. induction fuel as [|fuel IH]; intros s Hwf; simpl; [done|].
  pose proof (plain_execute_wf (fetch s) s Hwf) as Hstep.
  unfold Plain.iteration. fold (fetch s).
  destruct (Plain.execute (fetch s) s) as [s1 halt]; simpl in *.
  destruct halt; [by intros [= <-]|by apply IH].
Qed.

(** X1: the loop keeps its arrays at their declared sizes and every value,
    [pc] included, within 16 bits: after one instruction of any kind, when
    the plain loop returns, and when the loop with caches returns. *)
Theorem state_wf_invariant (s : state) :
  state_wf s ->
  (forall instruction, state_wf (Plain.execute instruction s).1) /\
  (forall fuel s', Plain.run fuel s = Some s' -> state_wf s') /\
  (forall fuel parts c o s',
     run_e20_simulator fuel parts (Sim s c o) = Returned s' ->
     state_wf (arch s')).
Proof.
  intros Hwf. split; [|split].
  - intros instruction. by apply plain_execute_wf.
  - intros fuel s'. by apply run_wf.
  - intros fuel parts c o s' Hrun. apply run_arch in Hrun.
    by apply (run_wf fuel s).
Qed.

(** ** Signed offsets *)

Lemma signed7_range imm7 : 0 <= imm7 < 128 -> -64 <= signed7 imm7 < 64.
Proof. unfold signed7. intros Hi. destruct (Z.ltb_spec imm7 64); lia. Qed.

(** X2: the immediate the loop works with, for every instruction word, is
    a 16-bit word: the two's complement encoding of the number in [-64, 64)
    that the 7-bit field stands for. *)
Theorem sign_extension_is_twos_complement instruction :
  let imm := sign_extend7_func (bits0_6 instruction) in
  word imm /\
  imm = u16 (signed7 (bits0_6 instruction)) /\
  -64 <= signed7 (bits0_6 instruction) < 64.
Proof.
  pose proof (bits0_6_bound instruction) as Hb. unfold bits0_6. simpl.
  split; [by apply sign_extend7_word|].
  split; [by apply sign_extend7_signed|by apply signed7_range].
Qed.

Lemma u16_add_u16 a b : u16 (a + u16 b) = u16 (a + b).
Proof. unfold u16. by rewrite Zplus_mod_idemp_r. Qed.

Lemma mem_add_u16 a b : (a + u16 b) mod MEM_SIZE = (a + b) mod MEM_SIZE.
Proof. unfold u16. change MEM_SIZE with 8192. lia. Qed.

Lemma reg_index_nat x : (Z.to_nat (Z.land x 7) < 8)%nat.
Proof. pose proof (bits_reg_bound x). lia. Qed.

(** X3: offsets are signed.  [addi] adds the signed immediate modulo 65536,
    [lw] and [sw] address memory at register plus signed offset modulo
    8192, and a taken [jeq] moves [pc] by one plus the signed offset modulo
    65536. *)
Theorem offsets_are_signed instruction (s : state) :
  length (regs_arr s) = 8%nat ->
  let s' := (Plain.execute instruction s).1 in
  let base := aget (regs_arr s) (bits10_12 instruction) in
  let off := signed7 (bits0_6 instruction) in
  (opcode instruction = 1 -> bits7_9 instruction <> 0 ->
   aget (regs_arr s') (bits7_9 instruction) = u16 (base + off)) /\
  (opcode instruction = 4 -> bits7_9 instruction <> 0 ->
   aget (regs_arr s') (bits7_9 instruction) =
   aget (memory_arr s) ((base + off) mod MEM_SIZE)) /\
  (opcode instruction = 5 ->
   memory_arr s' =
   aset (memory_arr s) ((base + off) mod MEM_SIZE)
        (aget (regs_arr s) (bits7_9 instruction))) /\
  (opcode instruction = 6 ->
   base = aget (regs_arr s) (bits7_9 instruction) ->
   pc s' = u16 (pc s + 1 + off)).
Proof.
  intros Hlen. simpl.
  pose proof (bits0_6_bound instruction) as Hb.
  pose proof (bits_reg_bound (Z.shiftr instruction 7)) as Hrt.
  unfold opcode, bits10_12, bits7_9, bits0_6, Plain.execute.
  rewrite (sign_extend7_signed _ Hb).
  repeat split; intros Hop; rewrite Hop; simpl.
  - intros Hrt0. rewrite aget_aset_ne by lia.
    rewrite aget_aset_eq by (rewrite Hlen; lia). apply u16_add_u16.
  - intros Hrt0. rewrite aget_aset_ne by lia.
    rewrite aget_aset_eq by (rewrite Hlen; lia). by rewrite mem_add_u16.
  - by rewrite mem_add_u16.
  - intros ->. rewrite Z.eqb_refl. simpl. apply u16_add_u16.
Qed.

(** ** Store and load, call and return *)

(** X4: what [sw] stores, [lw] with the same base register and offset
    loads back, into any register but register 0; the two instructions
    advance [pc] by two. *)
Theorem store_then_load isw ilw (s : state) :
  state_wf s ->
  opcode isw = 5 -> opcode ilw = 4 ->
  bits10_12 ilw = bits10_12 isw -> bits0_6 ilw = bits0_6 isw ->
  bits7_9 ilw <> 0 ->
  let s2 := (Plain.execute ilw (Plain.execute isw s).1).1 in
  aget (regs_arr s2) (bits7_9 ilw) = aget (regs_arr s) (bits7_9 isw) /\
  memory_arr s2 = memory_arr (Plain.execute isw s).1 /\
  pc s2 = u16 (pc s + 2).
Proof.
  intros (Hpc & Hrl & Hrw & Hml & Hmw) Hsw Hlw Hrs Himm Hrt. simpl.
  pose proof (bits_reg_bound (Z.shiftr ilw 7)) as Hb.
  unfold opcode, bits10_12, bits7_9, bits0_6 in *.
  unfold Plain.execute. rewrite Hsw, Hlw. simpl. rewrite Hrs, Himm.
  split; [|split; [done|]].
  - rewrite aget_aset_ne by lia.
    rewrite aget_aset_eq by (rewrite Hrl; change NUM_REGS with 8; lia).
    apply aget_aset_eq. rewrite Hml.
    pose proof (MEM_SIZE_word
      (aget (regs_arr s) (Z.land (Z.shiftr isw 10) 7)
       + sign_extend7_func (Z.land isw 127))) as Hw.
    unfold word in Hw. change MEM_SIZE with 8192 in *. lia.
  - unfold u16. lia.
Qed.

(** X5: [jal] leaves the address of the next instruction in register 7 and
    jumps to its target; [jr $7] after it returns there. *)
Theorem call_then_return ijal ijr (s : state) :
  state_wf s ->
  opcode ijal = 3 ->
  opcode ijr = 0 -> bits0_3 ijr = 8 -> bits10_12 ijr = 7 ->
  let s1 := (Plain.execute ijal s).1 in
  pc s1 = bits0_12 ijal /\
  aget (regs_arr s1) 7 = u16 (pc s + 1) /\
  pc (Plain.execute ijr s1).1 = u16 (pc s + 1).
Proof.
  intros (Hpc & Hrl & Hrw & Hml & Hmw) Hjal Hjr Hsel Hrs. simpl.
  unfold opcode, bits0_3, bits10_12, bits0_12 in *.
  unfold Plain.execute. rewrite Hjal, Hjr, Hsel, Hrs. simpl.
  rewrite aget_aset_eq by (rewrite Hrl; change NUM_REGS with 8; lia).
  done.
Qed.

(** ** An unknown selector never ends *)

Lemma unhandled_fixed_point s :
  unhandled_selector (fetch s) ->
  Plain.iteration s = (State (pc s) (aset (regs_arr s) 0 0) (memory_arr s),
                       false) /\
  unhandled_selector
    (fetch (State (pc s) (aset (regs_arr s) 0 0) (memory_arr s))).
Proof.
  intros Hun. split; [|exact Hun].
  unfold Plain.iteration. fold (fetch s). by apply plain_unhandled.
Qed.

Lemma unhandled_run_none fuel s :
  unhandled_selector (fetch s) -> Plain.run fuel s = None.
Proof.
  revert s. induction fuel as [|fuel IH]; intros s Hun; simpl; [done|].
  destruct (unhandled_fixed_point s Hun) as [-> Hun']. by apply IH.
Qed.

(** X6: when the instruction at [pc] has opcode 0 and a selector the loop
    does not know, the loop never ends: [pc] does not move, so the same
    instruction is fetched again, whatever the number of iterations; the
    state stops changing after the first one. *)
Theorem unknown_selector_loops_forever (s : state) :
  unhandled_selector (fetch s) ->
  (forall fuel, Plain.run fuel s = None) /\
  (forall fuel parts c o,
     cache_wf parts c ->
     run_e20_simulator fuel parts (Sim s c o) = OutOfFuel) /\
  (Plain.iteration (Plain.iteration s).1 = Plain.iteration s).
Proof.
  intros Hun. split; [|split].
  - intros fuel. by apply unhandled_run_none.
  - intros fuel parts c o Hwf.
    pose proof (run_defined fuel parts s c o Hwf) as Hrun.
    by rewrite unhandled_run_none in Hrun.
  - destruct (unhandled_fixed_point s Hun) as [E Hun']. rewrite E. simpl.
    destruct (unhandled_fixed_point _ Hun') as [E' _]. rewrite E'. simpl.
    unfold aset. by rewrite list_insert_insert_eq.
Qed.

(** ** What an instruction leaves alone *)

(** X7: only [sw] changes memory, and it changes one cell; an instruction
    changes no register other than register 0 and the one its opcode
    designates; no instruction changes the size of either array. *)
Theorem instruction_frame instruction (s : state) :
  let s' := (Plain.execute instruction s).1 in
  (opcode instruction <> 5 -> memory_arr s' = memory_arr s) /\
  (forall a, 0 <= a -> store_address instruction s <> Some a ->
             aget (memory_arr s') a = aget (memory_arr s) a) /\
  (forall j, 0 < j -> written_register instruction <> Some j ->
             aget (regs_arr s') j = aget (regs_arr s) j) /\
  length (memory_arr s') = length (memory_arr s) /\
  length (regs_arr s') = length (regs_arr s).
Proof.
  simpl. split; [|split; [|split; [|split]]].
  - unfold opcode, Plain.execute. intros Hop.
    repeat case_match; simplify_eq/=; try reflexivity; lia.
  - intros a. apply execute_memory_frame.
  - intros j Hj Hw.
    pose proof (bits_reg_bound (Z.shiftr instruction 7)) as H79.
    pose proof (bits_reg_bound (Z.shiftr instruction 4)) as H46.
    unfold written_register, opcode, bits0_3, bits4_6, bits7_9 in Hw.
    unfold Plain.execute. simpl in Hw.
    repeat case_match; simplify_eq/=; try reflexivity;
      rewrite ?(aget_aset_ne _ 0 j) by lia; try reflexivity;
      apply aget_aset_ne; intros Heq; apply Hw; f_equal; lia.
  - unfold Plain.execute.
    repeat case_match; simplify_eq/=; rewrite ?length_aset; reflexivity.
  - unfold Plain.execute.
    repeat case_match; simplify_eq/=; rewrite ?length_aset; reflexivity.
Qed.

(** * Further properties of the cache *)

(** ** Rows stay tidy *)

Lemma Block_eta b : {| tag := tag b |} = b.
Proof. by destruct b. Qed.

Lemma remove_first_split l t :
  t ∈ tag <$> l ->
  exists l1 b l2,
    l = l1 ++ b :: l2 /\ tag b = t /\ (t ∉ (tag <$> l1)) /\
    remove_first t l = l1 ++ l2.
Proof.
  induction l as [|x l IH]; simpl; [by intros ?%elem_of_nil|].
  destruct (Z.eqb_spec (tag x) t) as [Heq|Hne].
  - intros _. exists [], x, l. simpl. split_and!; try done.
    apply not_elem_of_nil.
  - intros [?|Hin]%elem_of_cons; [congruence|].
    destruct (IH Hin) as (l1 & b & l2 & -> & Hb & Hl1 & ->).
    exists (x :: l1), b, l2. simpl. split_and!; try done.
    rewrite not_elem_of_cons. split; [congruence|done].
Qed.

Lemma replicate_new_tag k t :
  0 <= t <= 8191 -> t ∉ (tag <$> replicate k Block_new).
Proof.
  intros Ht Hin. apply list_elem_of_fmap in Hin as (b & -> & Hb).
  apply elem_of_replicate_inv in Hb. subst b.
  change (tag Block_new) with 65535 in Ht. lia.
Qed.

(** The two cases of the rule on a tidy row. *)
Lemma lru_rule_tidy_cases k used t :
  0 <= t <= 8191 -> NoDup (tag <$> used) ->
  replicate k Block_new ++ used <> [] ->
  (exists u1 b u2,
     used = u1 ++ b :: u2 /\ tag b = t /\
     lru_rule (replicate k Block_new ++ used) t =
       replicate k Block_new ++ (u1 ++ u2) ++ [{| tag := t |}]) \/
  ((t ∉ (tag <$> used)) /\
   exists k' used',
     (k = S k' /\ used' = used \/ k = 0%nat /\ k' = 0%nat /\
      exists b, used = b :: used') /\
     lru_rule (replicate k Block_new ++ used) t =
       replicate k' Block_new ++ used' ++ [{| tag := t |}]).
Proof.
  intros Ht Hnd Hne. unfold lru_rule.
  pose proof (replicate_new_tag k t Ht) as Hnew.
  case_bool_decide as Hin.
  - left. rewrite fmap_app, elem_of_app in Hin.
    destruct Hin as [?|Hin]; [done|].
    destruct (remove_first_split (replicate k Block_new ++ used) t)
      as (l1 & b & l2 & Hl & Hb & Hl1 & ->).
    { rewrite fmap_app, elem_of_app. by right. }
    destruct (remove_first_split used t Hin)
      as (u1 & b' & u2 & -> & Hb' & Hu1 & _).
    assert (l1 = replicate k Block_new ++ u1 /\ b = b' /\ l2 = u2)
      as (-> & -> & ->).
    { rewrite app_assoc in Hl.
      assert (length l1 = length (replicate k Block_new ++ u1)) as Hlen.
      { destruct (Nat.lt_trichotomy (length l1)
                    (length (replicate k Block_new ++ u1)))
          as [Hlt|[?|Hgt]]; [|done|]; exfalso.
        - assert ((replicate k Block_new ++ u1) !! length l1 = Some b)
            as Hlk.
          { rewrite <- (lookup_app_l _ (b' :: u2)) by done.
            rewrite Hl. by rewrite list_lookup_middle. }
          assert (t ∈ tag <$> (replicate k Block_new ++ u1)) as Hbad.
          { rewrite <- Hb. apply list_elem_of_fmap_2.
            by eapply list_elem_of_lookup_2. }
          rewrite fmap_app, elem_of_app in Hbad. tauto.
        - assert (l1 !! length (replicate k Block_new ++ u1) = Some b')
            as Hlk.
          { rewrite <- (lookup_app_l _ (b :: l2)) by done.
            rewrite <- Hl. by rewrite list_lookup_middle. }
          apply Hl1. rewrite <- Hb'. apply list_elem_of_fmap_2.
          by eapply list_elem_of_lookup_2. }
      apply app_inj_1 in Hl as [? ?]; [|done]. by simplify_eq. }
    exists u1, b', u2. split_and!; try done.
    by rewrite <- !app_assoc.
  - right. rewrite fmap_app, elem_of_app in Hin.
    split; [tauto|]. destruct k as [|k']; simpl.
    + destruct used as [|b used']; [done|]. simpl.
      exists 0%nat, used'. split; [|done]. right. eauto.
    + exists k', used. split; [by left|]. by rewrite <- app_assoc.
Qed.

Lemma lru_rule_tidy row t :
  tidy_row row -> row <> [] -> 0 <= t <= 8191 -> tidy_row (lru_rule row t).
Proof.
  intros (k & used & -> & Hall & Hnd) Hne Ht.
  destruct (lru_rule_tidy_cases k used t Ht Hnd Hne)
    as [(u1 & b & u2 & -> & Hb & ->)
       |(Hnin & k' & used' & Hk & ->)].
  - exists k, ((u1 ++ u2) ++ [{| tag := t |}]). split; [done|].
    apply Forall_app in Hall as [H1 [_ H2]%Forall_cons]. split.
    + repeat (apply Forall_app; split); try done. by constructor.
    + rewrite !fmap_app in *. simpl in *.
      apply (NoDup_Permutation_proper _ _
               (Permutation_middle _ _ _)) in Hnd.
      rewrite <- Permutation_cons_append, <- Hb. exact Hnd.
  - exists k', (used' ++ [{| tag := t |}]). split; [done|].
    assert (Forall (fun b => 0 <= tag b <= 8191) used' /\
            NoDup (tag <$> used') /\ t ∉ (tag <$> used')) as (H1 & H2 & H3).
    { destruct Hk as [[_ ->]|(_ & _ & b & ->)]; [done|].
      apply Forall_cons in Hall as [_ ?]. simpl in *.
      apply NoDup_cons in Hnd as [_ ?].
      rewrite not_elem_of_cons in Hnin. tauto. }
    split.
    + apply Forall_app. split; [done|]. by constructor.
    + rewrite fmap_app. simpl. rewrite <- Permutation_cons_append.
      by constructor.
Qed.

(** On a tidy row with a fresh block left, the rule removes no used
    block. *)
Lemma lru_rule_spares_used row t b :
  tidy_row row -> 0 <= t <= 8191 ->
  Block_new ∈ row -> b ∈ row -> b <> Block_new -> b ∈ lru_rule row t.
Proof.
  intros (k & used & -> & Hall & Hnd) Ht Hnew Hb Hbn.
  assert (replicate k Block_new ++ used <> []) as Hne
    by (intros E; rewrite E in Hb; by apply elem_of_nil in Hb).
  assert (b ∈ used) as Hbu.
  { apply elem_of_app in Hb as [Hb|?]; [|done].
    by apply elem_of_replicate_inv in Hb. }
  assert (k <> 0%nat) as Hk.
  { intros ->. simpl in Hnew.
    rewrite Forall_forall in Hall. apply Hall in Hnew.
    change (tag Block_new) with 65535 in Hnew. lia. }
  destruct (lru_rule_tidy_cases k used t Ht Hnd Hne)
    as [(u1 & x & u2 & -> & Hx & ->)
       |(Hnin & k' & used' & Hk' & ->)].
  - rewrite !elem_of_app. rewrite elem_of_app, elem_of_cons in Hbu.
    destruct Hbu as [?|[->|?]]; [tauto| |tauto].
    right. right. rewrite list_elem_of_singleton. by rewrite <- Hx, Block_eta.
  - destruct Hk' as [[_ ->]|(? & _)]; [|done].
    rewrite !elem_of_app. tauto.
Qed.

Lemma blocks_at_set c lv rw bs lv' rw' :
  blocks_at (set_blocks_at c lv rw bs) lv' rw' =
  if decide (lv = lv' /\ Z.to_nat rw = Z.to_nat rw')
  then (fun _ => bs) <$> blocks_at c lv' rw'
  else blocks_at c lv' rw'.
Proof.
  case_decide as Hd.
  - destruct Hd as [<- Hrw]. rewrite <- !(blocks_at_to_nat _ _ _ _ Hrw).
    destruct (blocks_at c lv rw) as [row|] eqn:Hrow; simpl.
    + apply blocks_at_set_eq. eauto.
    + unfold blocks_at, set_blocks_at in *. simpl.
      rewrite list_lookup_alter_eq.
      destruct (levels_vec c !! lv) as [level|]; simpl in *; [|done].
      rewrite list_lookup_alter_eq.
      by destruct (rows_vec level !! Z.to_nat rw).
  - apply blocks_at_set_ne.
    destruct (decide (lv = lv')); [right|left]; tauto.
Qed.

Lemma tidy_set c lv rw bs :
  tidy c -> tidy_row bs -> tidy (set_blocks_at c lv rw bs).
Proof.
  intros Hc Hbs lv' rw' row. rewrite blocks_at_set.
  case_decide; [|apply Hc].
  destruct (blocks_at c lv' rw'); simpl; [|done]. by intros [= <-].
Qed.

Lemma cache_func_tidy address index c parts is_store_word c' log :
  tidy c -> 0 <= address < MEM_SIZE ->
  cache_func address index c parts is_store_word = Some (c', log) ->
  tidy c'.
Proof.
  intros Hc Ha Hf. apply cache_func_inv in Hf
    as (r1 & t1 & r2 & t2 & row1 & Haddr & Hrow1 & Hne1 & Hrest).
  destruct (addressing_tag_bound _ _ _ _ _ _ Ha Haddr) as [Ht1 Ht2].
  simpl in Hrest.
  assert (tidy (set_blocks_at c 0 r1 (lru_rule row1 t1))) as Hc1.
  { apply tidy_set; [done|]. apply lru_rule_tidy; eauto. }
  destruct (probes_l2 c _ _).
  - destruct Hrest as (row2 & Hrow2 & Hne2 & -> & _).
    apply tidy_set; [done|]. apply lru_rule_tidy; eauto.
  - by destruct Hrest as [-> _].
Qed.

Lemma execute_tidy parts instruction s s' halt :
  tidy (a_cache s) ->
  Cached.execute parts instruction s = Some (s', halt) ->
  tidy (a_cache s').
Proof.
  assert (forall x, 0 <= x mod MEM_SIZE < MEM_SIZE) as Hmod.
  { intros x. apply Z.mod_pos_bound. done. }
  intros Hc.
  destruct (decide (Z.shiftr instruction 13 = 4)) as [H4|H4];
    [|destruct (decide (Z.shiftr instruction 13 = 5)) as [H5|H5]].
  - unfold Cached.execute. rewrite H4. simpl.
    destruct (cache_func _ _ _ _ _) as [[c' log]|] eqn:Hf; [|done]. simpl.
    intros [= <- _]. simpl. eapply cache_func_tidy; [done| |done].
    apply Hmod.
  - unfold Cached.execute. rewrite H5. simpl.
    destruct (cache_func _ _ _ _ _) as [[c' log]|] eqn:Hf; [|done]. simpl.
    intros [= <- _]. simpl. eapply cache_func_tidy; [done| |done].
    apply Hmod.
  - rewrite execute_no_access by done. by intros [= <- _].
Qed.

Lemma run_tidy fuel parts s s' :
  tidy (a_cache s) -> run_e20_simulator fuel parts s = Returned s' ->
  tidy (a_cache s').
Proof.
  revert s. induction fuel as [|fuel IH]; intros s Hc; simpl; [done|].
  unfold Cached.iteration.
  destruct (Cached.execute _ _ _) as [[s1 halt]|] eqn:Hex; [|done].
  apply execute_tidy in Hex; [|done].
  destruct halt; [by intros [= <-]|by apply IH].
Qed.

Lemma make_level_rows size assoc blocksize rows level :
  make_level size assoc blocksize = Some (rows, level) ->
  rows_vec level = replicate (Z.to_nat rows) (fresh_row assoc) /\
  Cached.blocksize level = blocksize.
Proof.
  unfold make_level, Level_new. intros Hm.
  destruct (int_mul _ _) as [d|]; simplify_eq/=.
  destruct (int_div _ _) as [q|]; simplify_eq/=.
  destruct (Level_rows _ _ _) as [rs|] eqn:Hrs; simplify_eq/=.
  by apply Level_rows_inv in Hrs as [-> _].
Qed.

Lemma fresh_rows_tidy levels :
  Forall (fun level => exists n assoc,
            rows_vec level = replicate n (fresh_row assoc)) levels ->
  tidy {| levels_vec := levels |}.
Proof.
  intros Hall lv rw row. unfold blocks_at. simpl.
  destruct (levels !! lv) as [level|] eqn:Hl; simpl; [|done].
  rewrite Forall_lookup in Hall.
  destruct (Hall _ _ Hl) as (n & assoc & ->).
  destruct (replicate n (fresh_row assoc) !! Z.to_nat rw) as [r|] eqn:Hr;
    simpl; [|done].
  apply lookup_replicate in Hr as [-> _]. intros [= <-]. simpl.
  exists (Z.to_nat assoc), []. rewrite app_nil_r. split; [done|].
  split; constructor.
Qed.

Lemma main_tidy fuel parts memory_arr s :
  Cached.main fuel parts memory_arr = Returned (Simulated s) ->
  tidy (a_cache s).
Proof.
  unfold Cached.main. by_parts parts; try done.
  - destruct (make_level _ _ _) as [[rows1 l1]|] eqn:H1; [|done]. simpl.
    destruct (run_e20_simulator _ _ _) as [s'| |] eqn:Hrun; [|done..].
    simpl. intros [= <-]. eapply run_tidy; [|exact Hrun]. simpl.
    apply make_level_rows in H1 as [H1 _].
    apply fresh_rows_tidy. repeat constructor. eauto.
  - destruct (make_level s1 _ _) as [[rows1 l1]|] eqn:H1; [|done]. simpl.
    destruct (make_level s2 _ _) as [[rows2 l2]|] eqn:H2; [|done]. simpl.
    destruct (run_e20_simulator _ _ _) as [s'| |] eqn:Hrun; [|done..].
    simpl. intros [= <-]. eapply run_tidy; [|exact Hrun]. simpl.
    apply make_level_rows in H1 as [H1 _].
    apply make_level_rows in H2 as [H2 _].
    apply fresh_rows_tidy. repeat constructor; eauto.
Qed.

Lemma fresh_cache_tidy parts : tidy (fresh_cache parts).
Proof.
  intros lv rw row Hrow. apply blocks_at_fresh in Hrow as [n ->].
  exists n, []. rewrite app_nil_r. split; [done|]. split; constructor.
Qed.

(** X8: rows stay tidy.  In every row of the cache [main] builds, and after
    every access at an address below 8192, the blocks never used come
    first and the used blocks carry different tags, all below 8192: no row
    ever holds one memory block twice.  This holds in the cache the
    simulation ends with. *)
Theorem rows_stay_tidy :
  (forall address index c parts is_store_word c' log,
     tidy c -> 0 <= address < MEM_SIZE ->
     cache_func address index c parts is_store_word = Some (c', log) ->
     tidy c') /\
  (forall parts, tidy (fresh_cache parts)) /\
  (forall fuel parts memory_arr s,
     Cached.main fuel parts memory_arr = Returned (Simulated s) ->
     tidy (a_cache s)).
Proof.
  split; [exact cache_func_tidy|]. split; [|exact main_tidy].
  exact fresh_cache_tidy.
Qed.

(** X9: empty slots go first.  While a row of a tidy cache still has a
    block never used, an access evicts no used block from it: every used
    block of every row is still in its row after the access. *)
Theorem empty_slots_go_first
    address index c parts is_store_word c' log lv rw row row' b :
  tidy c -> 0 <= address < MEM_SIZE ->
  cache_func address index c parts is_store_word = Some (c', log) ->
  blocks_at c lv rw = Some row -> blocks_at c' lv rw = Some row' ->
  Block_new ∈ row -> b ∈ row -> b <> Block_new -> b ∈ row'.
Proof.
  intros Hc Ha Hf Hrow Hrow' Hnew Hb Hbn. apply cache_func_inv in Hf
    as (r1 & t1 & r2 & t2 & row1 & Haddr & Hrow1 & Hne1 & Hrest).
  destruct (addressing_tag_bound _ _ _ _ _ _ Ha Haddr) as [Ht1 Ht2].
  simpl in Hrest.
  assert (forall c0 lv0 rw0 row0 t row1',
            blocks_at c0 lv0 rw0 = Some row0 -> 0 <= t <= 8191 ->
            blocks_at c0 lv rw = Some row ->
            blocks_at (set_blocks_at c0 lv0 rw0 (lru_rule row0 t)) lv rw
              = Some row1' ->
            b ∈ row1') as Hstep.
  { intros c0 lv0 rw0 row0 t row1' Hrow0 Ht Hr. rewrite blocks_at_set.
    case_decide as Hd; [|by intros; simplify_eq].
    destruct Hd as [<- Hrw]. rewrite (blocks_at_to_nat _ _ _ _ Hrw) in Hrow0.
    rewrite Hr. simpl. intros [= <-]. simplify_eq.
    apply lru_rule_spares_used; eauto. }
  destruct (probes_l2 c _ _).
  - destruct Hrest as (row2 & Hrow2 & Hne2 & -> & _).
    rewrite blocks_at_set in Hrow'. case_decide as Hd.
    + destruct Hd as [<- Hrw].
      rewrite blocks_at_set_ne in Hrow' by auto.
      rewrite <- (blocks_at_to_nat _ _ _ _ Hrw) in Hrow, Hrow'.
      rewrite Hrow in Hrow'. simpl in Hrow'. simplify_eq.
      apply lru_rule_spares_used; eauto.
    + eapply Hstep; [exact Hrow1|exact Ht1|exact Hrow|exact Hrow'].
  - destruct Hrest as [-> _].
    eapply Hstep; [exact Hrow1|exact Ht1|exact Hrow|exact Hrow'].
Qed.

(** ** A block just used is found again *)

Lemma lru_rule_erase_at row t :
  row <> [] ->
  exists i, (i < length row)%nat /\
            lru_rule row t = delete i row ++ [{| tag := t |}] /\
            (i = 0%nat \/ exists b, row !! i = Some b /\ tag b = t).
Proof.
  intros Hne. pose proof (update_row_defined row t Hne) as Hu.
  unfold update_row in Hu. destruct (find_tag row t 0) as [j|] eqn:Hf.
  - pose proof (find_tag_range _ _ _ _ Hf).
    destruct (find_tag_lookup _ _ _ _ Hf) as (b & Hb & Ht).
    rewrite Nat.sub_0_r in Hb. exists j. split; [lia|].
    split; [by injection Hu|]. right. eauto.
  - destruct row; [done|]. exists 0%nat. simpl. split; [lia|].
    split; [by injection Hu|]. by left.
Qed.

Lemma lru_rule_last row t :
  row <> [] ->
  lru_rule row t !! (length row - 1)%nat = Some {| tag := t |}.
Proof.
  intros Hne. destruct (lru_rule_erase_at row t Hne) as (i & Hi & -> & _).
  assert (length (delete i row) = (length row - 1)%nat) as <-.
  { apply length_delete. by apply lookup_lt_is_Some. }
  by rewrite list_lookup_middle.
Qed.

Lemma find_tag_elem row t :
  t ∈ (tag <$> row) -> exists i, find_tag row t 0 = Some i.
Proof.
  intros Hin. destruct (find_tag row t 0) as [i|] eqn:Hf; [eauto|].
  by apply find_tag_None in Hf.
Qed.

Lemma lru_rule_found row t :
  row <> [] -> exists i, find_tag (lru_rule row t) t 0 = Some i.
Proof.
  intros Hne. apply find_tag_elem.
  apply (list_elem_of_fmap_2' tag _ {| tag := t |}); [|done].
  eapply list_elem_of_lookup_2. by apply lru_rule_last.
Qed.

Lemma l1_slot_addressing parts address r t :
  l1_slot parts address = Some (r, t) <->
  exists r2 t2, addressing parts address = Some (r, t, r2, t2).
Proof.
  unfold l1_slot.
  destruct (addressing parts address) as [[[[r1 t1] r2] t2]|]; simpl.
  - split; [intros [= <- <-]; eauto|]. by intros (? & ? & [= <- <-]).
  - split; [done|]. by intros (? & ? & ?).
Qed.

Lemma l1_hit_after_access
    address index c parts is_store_word c' log address' index' :
  cache_func address index c parts is_store_word = Some (c', log) ->
  l1_slot parts address' = l1_slot parts address ->
  exists c'' r t,
    l1_slot parts address = Some (r, t) /\
    cache_func address' index' c' parts false =
      Some (c'', [Log_entry "L1" "HIT" index' address' r]).
Proof.
  intros Hf Hslot. apply cache_func_inv in Hf
    as (r1 & t1 & r2 & t2 & row1 & Haddr & Hrow1 & Hne1 & Hrest).
  assert (l1_slot parts address = Some (r1, t1)) as Hs
    by (apply l1_slot_addressing; eauto).
  rewrite Hs in Hslot.
  apply l1_slot_addressing in Hslot as (r2' & t2' & Haddr').
  assert (blocks_at c' 0 r1 = Some (lru_rule row1 t1)) as Hrow'.
  { simpl in Hrest. destruct (probes_l2 c _ _).
    - destruct Hrest as (row2 & _ & _ & -> & _).
      rewrite blocks_at_set_ne by auto. apply blocks_at_set_eq. eauto.
    - destruct Hrest as [-> _]. apply blocks_at_set_eq. eauto. }
  destruct (lru_rule_found row1 t1 Hne1) as [i Hi].
  assert (lru_rule row1 t1 <> []) as Hne'
    by (intros E; by rewrite E in Hi).
  eexists _, r1, t1. split; [done|].
  unfold cache_func. rewrite Haddr'. simpl. rewrite Hrow'. simpl.
  rewrite update_row_defined by done. simpl. rewrite Hi.
  unfold probes_l2. simpl. rewrite andb_false_r. done.
Qed.

(** X10: a block just used is found again.  After any access that
    [cache_func] completes, a load at any address with the same L1 row and
    tag is a hit in L1: it logs the single entry "L1 HIT" and does not go
    on to L2. *)
Theorem load_after_access_hits
    address index c parts is_store_word c' log address' index' :
  cache_func address index c parts is_store_word = Some (c', log) ->
  l1_slot parts address' = l1_slot parts address ->
  exists c'' r t,
    l1_slot parts address = Some (r, t) /\
    cache_func address' index' c' parts false =
      Some (c'', [Log_entry "L1" "HIT" index' address' r]).
Proof. apply l1_hit_after_access. Qed.

Lemma l1_slot_valid parts address :
  valid_config parts -> word address ->
  exists size assoc blocksize,
    parts !! 0%nat = Some size /\ parts !! 1%nat = Some assoc /\
    parts !! 2%nat = Some blocksize /\
    valid_level size assoc blocksize /\
    l1_slot parts address =
      Some ((address / blocksize) mod (size / (assoc * blocksize)),
            (address / blocksize) / (size / (assoc * blocksize))) /\
    0 <= (address / blocksize) mod (size / (assoc * blocksize)).
Proof.
  unfold valid_config, l1_slot, addressing. intros Hv Ha.
  by_parts parts; try done.
  - destruct (locate_valid s1 a1 b1 address Hv Ha) as [-> Hr]. simpl.
    exists s1, a1, b1. split_and!; try done. lia.
  - destruct Hv as [Hv1 Hv2].
    destruct (locate_valid s1 a1 b1 address Hv1 Ha) as [-> Hr].
    destruct (locate_valid s2 a2 b2 address Hv2 Ha) as [-> _]. simpl.
    exists s1, a1, b1. split_and!; try done. lia.
Qed.

Lemma cache_wf_valid parts c : cache_wf parts c -> valid_config parts.
Proof.
  unfold cache_wf, valid_config. by_parts parts; try done;
    destruct (levels_vec c) as [|l1 [|l2 [|? ?]]]; try done;
    intuition.
Qed.

(** X11: blocks are fetched whole.  On a well-formed cache, after an access
    to one address every load at an address of the same L1 block (the same
    quotient by the L1 block size) hits in L1. *)
Theorem load_in_same_block_hits
    address index c parts is_store_word blocksize address' index' :
  cache_wf parts c -> parts !! 2%nat = Some blocksize ->
  word address -> word address' ->
  address' / blocksize = address / blocksize ->
  exists c' log c'' r,
    cache_func address index c parts is_store_word = Some (c', log) /\
    cache_func address' index' c' parts false =
      Some (c'', [Log_entry "L1" "HIT" index' address' r]).
Proof.
  intros Hwf Hbs Ha Ha' Hblock.
  destruct (cache_func_defined address index c parts is_store_word Hwf Ha)
    as (c' & log & Hf & _).
  pose proof (cache_wf_valid _ _ Hwf) as Hv.
  destruct (l1_slot_valid parts address Hv Ha)
    as (s & a & b & Hs0 & Ha0 & Hb0 & _ & Hs & _).
  destruct (l1_slot_valid parts address' Hv Ha')
    as (s' & a' & b' & Hs0' & Ha0' & Hb0' & _ & Hs' & _).
  simplify_eq. rewrite Hblock in Hs'. rewrite <- Hs in Hs'.
  destruct (l1_hit_after_access _ _ _ _ _ _ _ address' index' Hf Hs')
    as (c'' & r & t & _ & Hf').
  eauto 10.
Qed.

(** ** What an access leaves alone *)

Lemma set_blocks_shape c lv rw bs :
  level_shape <$> levels_vec (set_blocks_at c lv rw bs) =
  level_shape <$> levels_vec c.
Proof.
  unfold set_blocks_at. simpl. apply list_eq. intros i.
  rewrite !list_lookup_fmap.
  destruct (decide (lv = i)) as [<-|Hne];
    [|by rewrite list_lookup_alter_ne].
  rewrite list_lookup_alter_eq.
  destruct (levels_vec c !! lv) as [level|]; simpl; [|done].
  unfold level_shape. simpl. do 2 f_equal.
  apply list_eq. intros j. rewrite !list_lookup_fmap.
  destruct (decide (Z.to_nat rw = j)) as [<-|Hne];
    [|by rewrite list_lookup_alter_ne].
  rewrite list_lookup_alter_eq.
  by destruct (rows_vec level !! Z.to_nat rw).
Qed.

Lemma cache_func_frame address index c parts is_store_word c' log :
  cache_func address index c parts is_store_word = Some (c', log) ->
  level_shape <$> levels_vec c' = level_shape <$> levels_vec c /\
  exists r1 t1 r2 t2,
    addressing parts address = Some (r1, t1, r2, t2) /\
    forall lv rw,
      ~ (lv = 0%nat /\ Z.to_nat rw = Z.to_nat r1) ->
      ~ (lv = 1%nat /\ Z.to_nat rw = Z.to_nat r2) ->
      blocks_at c' lv rw = blocks_at c lv rw.
Proof.
  intros Hf. apply cache_func_inv in Hf
    as (r1 & t1 & r2 & t2 & row1 & Haddr & Hrow1 & Hne1 & Hrest).
  simpl in Hrest. destruct (probes_l2 c _ _).
  - destruct Hrest as (row2 & _ & _ & -> & _). split.
    + by rewrite !set_blocks_shape.
    + exists r1, t1, r2, t2. split; [done|]. intros lv rw H1 H2.
      rewrite blocks_at_set, decide_False
        by (intros [? ?]; apply H2; split; congruence).
      by rewrite blocks_at_set, decide_False
        by (intros [? ?]; apply H1; split; congruence).
  - destruct Hrest as [-> _]. split.
    + by rewrite set_blocks_shape.
    + exists r1, t1, r2, t2. split; [done|]. intros lv rw H1 H2.
      by rewrite blocks_at_set, decide_False
        by (intros [? ?]; apply H1; split; congruence).
Qed.

(** X12: an access changes the blocks of the rows it probes and nothing
    else: the number of levels, their block sizes, the number of rows and
    their [associativity] fields stay as [main] set them, and every row
    other than the L1 row and the L2 row of the address keeps its
    blocks. *)
Theorem access_frame address index c parts is_store_word c' log :
  cache_func address index c parts is_store_word = Some (c', log) ->
  level_shape <$> levels_vec c' = level_shape <$> levels_vec c /\
  exists r1 t1 r2 t2,
    addressing parts address = Some (r1, t1, r2, t2) /\
    forall lv rw,
      ~ (lv = 0%nat /\ Z.to_nat rw = Z.to_nat r1) ->
      ~ (lv = 1%nat /\ Z.to_nat rw = Z.to_nat r2) ->
      blocks_at c' lv rw = blocks_at c lv rw.
Proof. apply cache_func_frame. Qed.

(** ** Least recently used *)

(** A block at index [j >= 1] is at index [j - 1] or later after one more
    access to its row. *)
Lemma lru_rule_keeps row t t' j b :
  row !! j = Some b -> tag b = t -> (1 <= j)%nat ->
  exists j' b', (j <= S j')%nat /\
                lru_rule row t' !! j' = Some b' /\ tag b' = t.
Proof.
  intros Hj Hb Hj1. pose proof (lookup_lt_Some _ _ _ Hj) as Hlen.
  assert (row <> []) as Hne by (intros E; by rewrite E in Hj).
  destruct (decide (t' = t)) as [->|Hne'].
  - exists (length row - 1)%nat, {| tag := t |}.
    split; [lia|]. split; [by apply lru_rule_last|done].
  - destruct (lru_rule_erase_at row t' Hne) as (i & Hi & -> & Hwhich).
    assert (i <> j) as Hij.
    { destruct Hwhich as [->|(b0 & Hb0 & Ht0)]; [lia|].
      intros ->. rewrite Hj in Hb0. congruence. }
    assert (length (delete i row) = (length row - 1)%nat) as Hdl
      by (apply length_delete; by apply lookup_lt_is_Some).
    destruct (decide (i < j)%nat) as [Hlt|Hge].
    + exists (j - 1)%nat, b. split; [lia|]. split; [|done].
      rewrite lookup_app_l by lia.
      rewrite list_lookup_delete_ge by lia.
      by replace (S (j - 1)) with j by lia.
    + exists j, b. split; [lia|]. split; [|done].
      rewrite lookup_app_l by lia. by rewrite list_lookup_delete_lt by lia.
Qed.

Lemma accesses_to_row_cons parts r x xs :
  accesses_to_row parts r (x :: xs) =
  if decide (fst <$> l1_slot parts x.1.1 = Some r)
  then S (accesses_to_row parts r xs) else accesses_to_row parts r xs.
Proof.
  unfold accesses_to_row. rewrite filter_cons. by case_decide.
Qed.

(** The block at index [j] of row [r] outlives [j] accesses to that row. *)
Lemma survives_accesses parts r t xs :
  forall c j row b,
    cache_wf parts c -> 0 <= r -> Forall (fun x => word x.1.1) xs ->
    blocks_at c 0 r = Some row -> row !! j = Some b -> tag b = t ->
    (accesses_to_row parts r xs <= j)%nat ->
    exists c' row' i,
      access_all parts xs c = Some c' /\ cache_wf parts c' /\
      blocks_at c' 0 r = Some row' /\ find_tag row' t 0 = Some i.
Proof.
  induction xs as [|[[a idx] st] xs IH];
    intros c j row b Hwf Hr Hall Hrow Hj Hb Hcount.
  - simpl. exists c, row. 
    destruct (find_tag_elem row t) as [i Hi].
    { rewrite <- Hb. apply list_elem_of_fmap_2.
      by eapply list_elem_of_lookup_2. }
    eauto 10.
  - apply Forall_cons in Hall as [Ha Hall]. simpl in Ha.
    destruct (cache_func_defined a idx c parts st Hwf Ha)
      as (c1 & log & Hf & Hwf1).
    simpl. rewrite Hf. simpl.
    rewrite accesses_to_row_cons in Hcount. simpl in Hcount.
    destruct (cache_func_l1_row _ _ _ _ _ _ _ Hf)
      as (r1 & t1 & r2 & t2 & row1 & Haddr & Hrow1 & Hrow1' & _).
    assert (l1_slot parts a = Some (r1, t1)) as Hs
      by (apply l1_slot_addressing; eauto).
    rewrite Hs in Hcount. simpl in Hcount.
    destruct (l1_slot_valid parts a (cache_wf_valid _ _ Hwf) Ha)
      as (sz & asc & bsz & _ & _ & _ & _ & Hs' & Hr1).
    rewrite Hs in Hs'. injection Hs' as Er1 _. rewrite <- Er1 in Hr1.
    case_decide as Hd.
    + injection Hd as ->. rewrite Hrow in Hrow1. injection Hrow1 as <-.
      destruct (lru_rule_keeps row t t1 j b Hj Hb ltac:(lia))
        as (j' & b' & Hjj & Hj' & Hb').
      eapply (IH c1 j'); eauto. lia.
    + destruct (cache_func_frame _ _ _ _ _ _ _ Hf)
        as (_ & r1' & t1' & r2' & t2' & Haddr' & Hframe).
      rewrite Haddr in Haddr'. simplify_eq.
      eapply (IH c1 j); eauto.
      rewrite Hframe; [done| |by intros [? _]].
      intros [_ Heq]. apply Hd. f_equal. lia.
Qed.

(** X13: least recently used.  On a well-formed cache, a block that has
    just been accessed is still in its L1 row, where a load finds it, after
    any further accesses of which fewer than the associativity go to that
    row. *)
Theorem recently_used_survives parts c x0 xs r t assoc :
  cache_wf parts c -> parts !! 1%nat = Some assoc ->
  maps_to parts x0 r t -> Forall (fun x => word x.1.1) xs ->
  (accesses_to_row parts r xs < Z.to_nat assoc)%nat ->
  exists c' row i,
    access_all parts (x0 :: xs) c = Some c' /\
    blocks_at c' 0 r = Some row /\ find_tag row t 0 = Some i.
Proof.
  intros Hwf Hassoc Hx0 Hall Hcount.
  destruct (access_l1 _ _ _ _ _ Hwf Hx0)
    as (c1 & log & row & Hf & Hwf1 & Hrow & Hrow1).
  destruct Hx0 as [Hw0 Hs0].
  destruct (l1_slot_valid parts x0.1.1 (cache_wf_valid _ _ Hwf) Hw0)
    as (sz & asc & bsz & _ & _ & _ & _ & Hs' & Hr).
  rewrite Hs0 in Hs'. injection Hs' as Er _. rewrite <- Er in Hr.
  pose proof (cache_wf_l1_row _ _ _ _ _ Hwf Hassoc Hrow) as Hlen.
  assert (row <> []) as Hne by (intros ->; simpl in Hlen; lia).
  destruct (survives_accesses parts r t xs c1 (length row - 1)%nat
              (lru_rule row t) {| tag := t |})
    as (c' & row' & i & Hacc & _ & Hrow' & Hi); try done.
  - by apply lru_rule_last.
  - lia.
  - exists c', row', i. split; [|done].
    destruct x0 as [[a idx] st]. simpl in *. by rewrite Hf.
Qed.

(** * The program loader *)

Section LoaderFacts.

Variable scan_line : string -> line_result.

Lemma numbered_length first lines words :
  numbered scan_line first lines words -> length lines = length words.
Proof.
  revert first words. induction lines as [|l lines IH];
    intros first [|w words]; simpl; try done.
  intros [_ Hn]. f_equal. by eapply IH.
Qed.

Lemma aset_app_r (pre : list Z) x rest v :
  aset (pre ++ x :: rest) (Z.of_nat (length pre)) v = pre ++ v :: rest.
Proof.
  unfold aset. rewrite Nat2Z.id.
  rewrite insert_app_r_alt by lia. by rewrite Nat.sub_diag.
Qed.

(** Correctly numbered lines are stored one after the other. *)
Lemma load_loop_numbered lines words pre old rest :
  numbered scan_line (Z.of_nat (length pre)) lines words ->
  length old = length words ->
  (length pre + length words <= Z.to_nat MEM_SIZE)%nat ->
  load_loop scan_line lines (Z.of_nat (length pre)) (pre ++ old ++ rest) =
  Loaded (pre ++ (u16 <$> words) ++ rest).
Proof.
  revert words pre old. induction lines as [|l lines IH];
    intros [|w words] pre [|o old]; simpl; try done.
  intros [Hl Hn] Hlen Hmax. rewrite Hl, Z.eqb_refl. simpl.
  assert ((MEM_SIZE <=? Z.of_nat (length pre)) = false) as ->.
  { apply Z.leb_gt. change MEM_SIZE with 8192 in *. lia. }
  rewrite aset_app_r.
  replace (Z.of_nat (length pre) + 1)
    with (Z.of_nat (length (pre ++ [u16 w])))
    by (rewrite length_app; simpl; lia).
  replace (pre ++ u16 w :: old ++ rest)
    with ((pre ++ [u16 w]) ++ old ++ rest) by (by rewrite <- app_assoc).
  rewrite (IH words (pre ++ [u16 w]) old).
  - by rewrite <- app_assoc.
  - by replace (Z.of_nat (length (pre ++ [u16 w])))
      with (Z.of_nat (length pre) + 1)
      by (rewrite length_app; simpl; lia).
  - lia.
  - rewrite length_app. simpl. lia.
Qed.

(** Whatever is loaded was correctly numbered and fitted the memory. *)
Lemma load_loop_loaded lines first mem mem' :
  first <= MEM_SIZE ->
  load_loop scan_line lines first mem = Loaded mem' ->
  exists words,
    numbered scan_line first lines words /\
    first + Z.of_nat (length lines) <= MEM_SIZE /\
    length mem' = length mem.
Proof.
  revert first mem. induction lines as [|l lines IH];
    intros first mem Hfirst; simpl.
  - intros [= <-]. exists []. split; [done|]. split; [lia|done].
  - destruct (scan_line l) as [| |addr w]; try done.
    destruct (Z.eqb_spec addr first) as [->|]; simpl; [|done].
    destruct (Z.leb_spec MEM_SIZE first); [done|].
    intros Hrec. apply IH in Hrec as (words & Hn & Hlen & Hmem); [|lia].
    exists (w :: words). split; [done|]. split; [lia|].
    by rewrite Hmem, length_aset.
Qed.

(** Reading goes on after correctly numbered lines. *)
Lemma load_loop_app lines words more first mem :
  numbered scan_line first lines words ->
  first + Z.of_nat (length lines) <= MEM_SIZE ->
  exists mem2,
    load_loop scan_line (lines ++ more) first mem =
    load_loop scan_line more (first + Z.of_nat (length lines)) mem2.
Proof.
  revert words first mem. induction lines as [|l lines IH];
    intros [|w words] first mem; simpl; try done.
  - intros _ _. exists mem. by rewrite Z.add_0_r.
  - intros [Hl Hn] Hmax. rewrite Hl, Z.eqb_refl. simpl.
    destruct (Z.leb_spec MEM_SIZE first); [lia|].
    destruct (IH words (first + 1) (aset mem first (u16 w)) Hn) as [mem2 E];
      [lia|].
    exists mem2. rewrite E. f_equal. lia.
Qed.

(** Correctly numbered lines from address 0 on replace the start of the
    memory. *)
Lemma load_loop_from_start lines mem :
  length mem = Z.to_nat MEM_SIZE ->
  forall words,
    numbered scan_line 0 lines words ->
    (length words <= Z.to_nat MEM_SIZE)%nat ->
    load_loop scan_line lines 0 mem =
    Loaded ((u16 <$> words) ++ drop (length words) mem).
Proof.
  intros Hmem words Hn Hlen.
  rewrite <- (take_drop (length words) mem) at 1.
  apply (load_loop_numbered lines words [] (take (length words) mem)).
  - done.
  - rewrite length_take. lia.
  - simpl. lia.
Qed.

(** X14: [load_machine_code] returns exactly for the files whose lines all
    match, are numbered 0, 1, 2, ... without a gap and are at most 8192;
    it then has stored the low 16 bits of each word at its address and left
    the rest of the memory as it was. *)
Theorem load_machine_code_spec lines mem mem' :
  length mem = Z.to_nat MEM_SIZE ->
  load_machine_code scan_line lines mem = Loaded mem' <->
  exists words,
    numbered scan_line 0 lines words /\
    (length words <= Z.to_nat MEM_SIZE)%nat /\
    mem' = (u16 <$> words) ++ drop (length words) mem.
Proof.
  intros Hmem. unfold load_machine_code.
  pose proof (load_loop_from_start lines mem Hmem) as Hload.
  split.
  - intros Hl. pose proof Hl as Hl'.
    apply load_loop_loaded in Hl' as (words & Hn & Hlen & _);
      [|by change MEM_SIZE with 8192].
    pose proof (numbered_length _ _ _ Hn) as Hnl.
    assert (length words <= Z.to_nat MEM_SIZE)%nat as Hw by lia.
    exists words. split; [done|]. split; [done|].
    rewrite (Hload words Hn Hw) in Hl. by injection Hl.
  - intros (words & Hn & Hlen & ->). by apply Hload.
Qed.

(** X15: the first line that is not in order decides how loading fails.
    After correctly numbered lines, a line that does not match ends the
    program with "Can't parse line"; a line with any address but the next
    one ends it with "out of sequence", also when that address is too
    large; and line number 8192, correctly numbered, ends it with "Program
    too big". *)
Theorem load_machine_code_first_error good words bad rest mem :
  numbered scan_line 0 good words ->
  (length good <= Z.to_nat MEM_SIZE)%nat ->
  let result := load_machine_code scan_line (good ++ bad :: rest) mem in
  (scan_line bad = No_match -> result = Cant_parse bad) /\
  (forall addr w,
     scan_line bad = Fields addr w -> addr <> Z.of_nat (length good) ->
     result = Out_of_sequence addr) /\
  (forall addr w,
     scan_line bad = Fields addr w -> addr = Z.of_nat (length good) ->
     length good = Z.to_nat MEM_SIZE -> result = Too_big).
Proof.
  intros Hn Hlen. unfold load_machine_code.
  destruct (load_loop_app good words (bad :: rest) 0 mem Hn) as [mem2 E];
    [change MEM_SIZE with 8192 in *; lia|].
  rewrite Z.add_0_l in E. simpl. rewrite E. simpl. split; [|split].
  - by intros ->.
  - intros addr w -> Hne. by rewrite (proj2 (Z.eqb_neq _ _) Hne).
  - intros addr w -> -> Hfull. rewrite Z.eqb_refl. simpl.
    rewrite Hfull. by change MEM_SIZE with 8192.
Qed.

End LoaderFacts.

(** Loading into the zeroed memory of [main] gives the memory the sample
    programs are written as. *)
Lemma load_into_zeroed scan_line lines words :
  numbered scan_line 0 lines words ->
  (length words <= Z.to_nat MEM_SIZE)%nat ->
  load_machine_code scan_line lines (replicate (Z.to_nat MEM_SIZE) 0) =
  Loaded (image words).
Proof.
  intros Hn Hlen. unfold load_machine_code.
  rewrite (load_loop_from_start scan_line lines _
             (length_replicate _ _) words Hn Hlen).
  unfold image. by rewrite drop_replicate.
Qed.

(** * The cache configuration string *)

(** ** Finding commas *)

Lemma find_comma_drop s n :
  (n <= length s)%nat ->
  find_comma s n = (fun k => (n + k)%nat) <$> find_comma (drop n s) 0.
Proof.
  revert n. induction s as [|c s IH]; intros [|n] Hn; simpl in *;
    try done; try lia.
  - destruct (Ascii.eqb c comma); [done|].
    destruct (find_comma s 0); done.
  - rewrite IH by lia. destruct (find_comma (drop n s) 0); done.
Qed.

Lemma find_comma_Some rest k :
  find_comma rest 0 = Some k ->
  exists f r,
    rest = f ++ comma :: r /\ length f = k /\
    forall cur, fields rest cur = (cur ++ f) :: fields r [].
Proof.
  revert k. induction rest as [|c rest IH]; intros k; simpl; [done|].
  destruct (Ascii.eqb_spec c comma) as [->|Hne].
  - intros [= <-]. exists [], rest. split_and!; try done.
    intros cur. by rewrite app_nil_r.
  - destruct (find_comma rest 0) as [k'|] eqn:Hk; simpl; [|done].
    intros [= <-]. destruct (IH k' eq_refl) as (f & r & -> & Hlen & Hf).
    exists (c :: f), r. split_and!; simpl; try done; [by f_equal|].
    intros cur. rewrite Hf. by rewrite <- app_assoc.
Qed.

Lemma find_comma_None rest :
  find_comma rest 0 = None -> forall cur, fields rest cur = [cur ++ rest].
Proof.
  induction rest as [|c rest IH]; simpl.
  - intros _ cur. by rewrite app_nil_r.
  - destruct (Ascii.eqb c comma); [done|].
    destruct (find_comma rest 0) eqn:Hk; simpl; [done|].
    intros _ cur. rewrite IH by done. by rewrite <- app_assoc.
Qed.

(** ** [stoi] never reads past a comma *)

Lemma skip_space_comma f x :
  skip_space (f ++ comma :: x) = skip_space f ++ comma :: x.
Proof.
  induction f as [|c f IH]; simpl; [done|]. by destruct (isspace c).
Qed.

Lemma read_digits_comma f x acc :
  read_digits (f ++ comma :: x) acc = read_digits f acc.
Proof.
  revert acc. induction f as [|c f IH]; intros acc; simpl; [done|].
  by destruct (isdigit c).
Qed.

Lemma stoi_comma f x : stoi (f ++ comma :: x) = stoi f.
Proof.
  unfold stoi. rewrite skip_space_comma.
  destruct (skip_space f) as [|c g]; simpl; [done|].
  destruct (Ascii.eqb c "-"); [|destruct (Ascii.eqb c "+")].
  - destruct g as [|d g]; simpl; [done|].
    destruct (isdigit d); [|done]. by rewrite read_digits_comma.
  - destruct g as [|d g]; simpl; [done|].
    destruct (isdigit d); [|done]. by rewrite read_digits_comma.
  - simpl. destruct (isdigit c); [|done]. by rewrite read_digits_comma.
Qed.

Lemma stoi_take f r n :
  stoi (take (length f + n) (f ++ comma :: r)) = stoi f.
Proof.
  rewrite take_app_add. destruct n as [|n]; simpl.
  - by rewrite app_nil_r.
  - apply stoi_comma.
Qed.

(** ** The loop cuts at the commas *)

Lemma outcome_bind_assoc (m : outcome (list Z)) parts v :
  outcome_bind (outcome_bind m (fun vs => Returned (v :: vs)))
               (fun vs => Returned (parts ++ vs)) =
  outcome_bind m (fun vs => Returned ((parts ++ [v]) ++ vs)).
Proof. destruct m; simpl; try done. by rewrite <- app_assoc. Qed.

Lemma parse_parts_fields fuel s lastpos parts :
  (lastpos <= length s)%nat -> (length s < fuel + lastpos)%nat ->
  parse_parts fuel s lastpos parts =
  outcome_bind (stoi_all (fields (drop lastpos s) []))
               (fun vs => Returned (parts ++ vs)).
Proof.
  revert lastpos parts. induction fuel as [|fuel IH];
    intros lastpos parts Hle Hfuel; [lia|].
  simpl. rewrite find_comma_drop by done. unfold substr.
  destruct (find_comma (drop lastpos s) 0) as [k|] eqn:Hk; simpl;
    rewrite decide_False by lia.
  - destruct (find_comma_Some _ _ Hk) as (f & r & Hrest & Hlen & Hf).
    rewrite Hf, Hrest. simpl.
    replace (lastpos + k)%nat with (length f + lastpos)%nat by lia.
    rewrite stoi_take.
    assert (length s = (lastpos + length f + S (length r))%nat) as Hs.
    { rewrite <- (take_drop lastpos s), Hrest at 1.
      rewrite !length_app, length_take. simpl. lia. }
    destruct (stoi f) as [v| |]; simpl; try done.
    rewrite IH by lia.
    replace (drop (length f + lastpos + 1) s) with r.
    + by rewrite outcome_bind_assoc.
    + replace (length f + lastpos + 1)%nat
        with (lastpos + S (length f))%nat by lia.
      rewrite <- drop_drop, Hrest.
      rewrite (cons_middle comma f r), app_assoc.
      rewrite drop_app_length'; [done|]. rewrite length_app. simpl. lia.
  - rewrite (find_comma_None _ Hk). simpl.
    rewrite take_ge by (rewrite length_drop; lia).
    destruct (stoi (drop lastpos s)); done.
Qed.

(** The loop from the start of the string, with fuel for every comma. *)
Lemma parse_parts_from_start cache_config :
  parse_parts (S (length cache_config)) cache_config 0 [] =
  stoi_all (fields cache_config []).
Proof.
  rewrite parse_parts_fields by (simpl; lia).
  simpl. by destruct (stoi_all _).
Qed.

(** X16: with an empty configuration string [main] parses nothing.  With
    any other string the loop that cuts it gives the numbers [stoi] reads
    from the fields between the commas, although [substr(lastpos, pos)]
    hands [stoi] text that reaches beyond the field: [stoi] never reads
    past a comma.  The loop ends for every string; the program dies of an
    exception exactly when [stoi] throws on a field. *)
Theorem parse_cache_config_fields cache_config :
  parse_cache_config cache_config =
  match cache_config with
  | [] => Returned None
  | _ :: _ =>
      outcome_bind (stoi_all (fields cache_config []))
        (fun parts => Returned (Some parts))
  end.
Proof.
  unfold parse_cache_config. destruct cache_config as [|c rest]; [done|].
  rewrite decide_True by (simpl; lia).
  by rewrite parse_parts_from_start.
Qed.

(** ** Decimal numbers are read back *)

Lemma isdigit_other c :
  isdigit c = true ->
  isspace c = false /\ Ascii.eqb c comma = false /\
  Ascii.eqb c "-" = false /\ Ascii.eqb c "+" = false.
Proof.
  unfold isdigit, isspace. intros Hd.
  apply andb_prop in Hd as [H1%Nat.leb_le H2%Nat.leb_le].
  split_and!.
  - apply orb_false_intro; [apply Nat.eqb_neq; lia|].
    apply andb_false_intro2. apply Nat.leb_gt. lia.
  - destruct (Ascii.eqb_spec c comma) as [->|]; [|done].
    vm_compute in H1. lia.
  - destruct (Ascii.eqb_spec c "-") as [->|]; [|done].
    vm_compute in H1. lia.
  - destruct (Ascii.eqb_spec c "+") as [->|]; [|done].
    vm_compute in H1. lia.
Qed.

Lemma digit_char d :
  0 <= d < 10 ->
  isdigit (ascii_of_nat (Z.to_nat (48 + d))) = true /\
  Z.of_nat (nat_of_ascii (ascii_of_nat (Z.to_nat (48 + d)))) - 48 = d.
Proof.
  intros Hd. unfold isdigit.
  rewrite nat_ascii_embedding by lia. split; [|lia].
  apply andb_true_intro. split; apply Nat.leb_le; lia.
Qed.

Lemma decimal_digits_one fuel n acc :
  0 <= n < 10 ->
  exists ds,
    decimal_digits (S fuel) n acc = ds ++ acc /\ ds <> [] /\
    Forall (fun c => isdigit c = true) ds /\
    forall rest a,
      read_digits (ds ++ rest) a =
      read_digits rest (a * 10 ^ Z.of_nat (length ds) + n).
Proof.
  intros Hn. destruct (digit_char n Hn) as [Hdig Hval].
  exists [ascii_of_nat (Z.to_nat (48 + n))]. cbn [decimal_digits].
  rewrite (Z.mod_small n 10) by lia.
  rewrite (proj2 (Z.ltb_lt n 10)) by lia.
  split; [done|]. split; [done|]. split; [by repeat constructor|].
  intros rest a. simpl. rewrite Hdig, Hval. f_equal. lia.
Qed.

Lemma decimal_digits_spec fuel n acc :
  0 <= n < 2 ^ Z.of_nat (S fuel) ->
  exists ds,
    decimal_digits (S fuel) n acc = ds ++ acc /\ ds <> [] /\
    Forall (fun c => isdigit c = true) ds /\
    forall rest a,
      read_digits (ds ++ rest) a =
      read_digits rest (a * 10 ^ Z.of_nat (length ds) + n).
Proof.
  revert n acc. induction fuel as [|fuel IH]; intros n acc Hn.
  { apply decimal_digits_one. change (2 ^ Z.of_nat 1) with 2 in Hn. lia. }
  destruct (Z.ltb_spec n 10) as [Hlt|Hge];
    [apply decimal_digits_one; lia|].
  destruct (digit_char (n mod 10)) as [Hdig Hval]; [lia|].
  assert (0 <= n / 10 < 2 ^ Z.of_nat (S fuel)) as Hrec.
  { rewrite (Nat2Z.inj_succ (S fuel)), Z.pow_succ_r in Hn by lia. lia. }
  destruct (IH (n / 10)
              (ascii_of_nat (Z.to_nat (48 + n mod 10)) :: acc) Hrec)
    as (ds & Hds & Hne & Hall & Hread).
  exists (ds ++ [ascii_of_nat (Z.to_nat (48 + n mod 10))]).
  split.
  { change (decimal_digits (S (S fuel)) n acc)
      with (if n <? 10
            then ascii_of_nat (Z.to_nat (48 + n mod 10)) :: acc
            else decimal_digits (S fuel) (n / 10)
                   (ascii_of_nat (Z.to_nat (48 + n mod 10)) :: acc)).
    rewrite (proj2 (Z.ltb_ge n 10)) by lia.
    rewrite Hds. by rewrite <- app_assoc. }
  split; [by destruct ds|].
  split; [apply Forall_app; split; [done|by repeat constructor]|].
  intros rest a. rewrite <- app_assoc. rewrite Hread. simpl.
  rewrite Hdig, Hval. f_equal. rewrite length_app. simpl.
  rewrite Nat2Z.inj_add. simpl Z.of_nat.
  rewrite Z.pow_add_r by lia. lia.
Qed.

Lemma decimal_spec n :
  0 <= n ->
  decimal n <> [] /\ Forall (fun c => isdigit c = true) (decimal n) /\
  read_digits (decimal n) 0 = n.
Proof.
  intros Hn. unfold decimal.
  destruct (decimal_digits_spec (Z.to_nat (Z.log2 n)) n [])
    as (ds & -> & Hne & Hall & Hread).
  { split; [done|]. rewrite Nat2Z.inj_succ, Z2Nat.id by apply Z.log2_nonneg.
    destruct (Z.eq_dec n 0) as [->|]; [done|].
    apply Z.log2_spec. lia. }
  rewrite app_nil_r. split; [done|]. split; [done|].
  specialize (Hread [] 0). rewrite app_nil_r in Hread. rewrite Hread.
  simpl. lia.
Qed.

Lemma stoi_decimal n : 0 <= n < 2 ^ 31 -> stoi (decimal n) = Int n.
Proof.
  intros Hn. destruct (decimal_spec n) as (Hne & Hall & Hread); [lia|].
  unfold stoi. destruct (decimal n) as [|c ds]; [done|].
  apply Forall_cons in Hall as [Hc _].
  destruct (isdigit_other c Hc) as (Hsp & _ & Hminus & Hplus).
  simpl. rewrite Hsp, Hminus, Hplus, Hc, Hread.
  rewrite decide_True; [done|]. unfold int_range. lia.
Qed.

Lemma fields_digits ds rest cur :
  Forall (fun c => isdigit c = true) ds ->
  fields (ds ++ rest) cur = fields rest (cur ++ ds).
Proof.
  revert cur. induction ds as [|c ds IH]; intros cur Hall; simpl.
  - by rewrite app_nil_r.
  - apply Forall_cons in Hall as [Hc Hall].
    destruct (isdigit_other c Hc) as (_ & -> & _).
    rewrite IH by done. by rewrite <- app_assoc.
Qed.

Lemma fields_comma_separated n ns :
  Forall (fun n => 0 <= n) (n :: ns) ->
  fields (comma_separated (n :: ns)) [] = decimal <$> (n :: ns).
Proof.
  revert n. induction ns as [|m ns IH]; intros n Hall.
  - apply Forall_cons in Hall as [Hn _].
    destruct (decimal_spec n Hn) as (_ & Hd & _). simpl.
    rewrite <- (app_nil_r (decimal n)) at 1.
    by rewrite fields_digits.
  - apply Forall_cons in Hall as [Hn Hall].
    destruct (decimal_spec n Hn) as (_ & Hd & _).
    change (comma_separated (n :: m :: ns))
      with (decimal n ++ comma :: comma_separated (m :: ns)).
    rewrite fields_digits by done.
    change (fields (comma :: ?r) ?c) with (c :: fields r []).
    rewrite IH by done. done.
Qed.

Lemma stoi_all_decimal ns :
  Forall (fun n => 0 <= n < 2 ^ 31) ns ->
  stoi_all (decimal <$> ns) = Returned ns.
Proof.
  induction 1 as [|n ns Hn _ IH]; [done|].
  rewrite fmap_cons. cbn [stoi_all]. rewrite stoi_decimal by done.
  by rewrite IH.
Qed.

(** Numbers written with commas between them are no empty string. *)
Lemma comma_separated_length n ns :
  0 <= n -> (0 < length (comma_separated (n :: ns)))%nat.
Proof.
  intros Hn. destruct (decimal_spec n Hn) as [Hne _].
  assert (0 < length (decimal n))%nat as Hlen
    by (destruct (decimal n); [done|simpl; lia]).
  destruct ns; simpl; [done|]. rewrite length_app. lia.
Qed.

(** X17: a configuration written as decimal numbers with commas between
    them is read back as those numbers: for every non-empty list of
    numbers from 0 to 2^31 - 1 the loop of [main] returns the list. *)
Theorem parse_cache_config_decimal ns :
  ns <> [] -> Forall (fun n => 0 <= n < 2 ^ 31) ns ->
  parse_cache_config (comma_separated ns) = Returned (Some ns).
Proof.
  intros Hne Hall. unfold parse_cache_config.
  destruct ns as [|n ns]; [done|].
  rewrite decide_True by (apply comma_separated_length;
                          apply Forall_cons in Hall as [? _]; lia).
  rewrite parse_parts_from_start.
  rewrite fields_comma_separated.
  - by rewrite stoi_all_decimal.
  - eapply Forall_impl; [exact Hall|]. simpl. lia.
Qed.

(** * The command line *)

(** Induction for loops that take one or two arguments at a time. *)
Lemma argv_ind (P : list (list ascii) -> Prop) :
  (forall argv,
     (forall rest, (length rest < length argv)%nat -> P rest) -> P argv) ->
  forall argv, P argv.
Proof.
  intros IH argv. remember (length argv) as n eqn:Hn. revert argv Hn.
  induction n as [n IHn] using lt_wf_ind. intros argv ->.
  apply IH. intros rest Hlt. by apply (IHn (length rest)).
Qed.

Lemma parse_args_error argv :
  forall a, arg_error a = true -> arg_error (parse_args argv a) = true.
Proof.
  induction argv as [argv IH] using argv_ind. intros a Ha.
  destruct argv as [|arg rest]; simpl; [done|].
  repeat case_match; simpl; try done; apply IH; simpl; try lia; try done.
  unfold positional. by destruct (filename a).
Qed.

Lemma parse_args_help argv :
  forall a, do_help a = true -> do_help (parse_args argv a) = true.
Proof.
  induction argv as [argv IH] using argv_ind. intros a Ha.
  destruct argv as [|arg rest]; simpl; [done|].
  repeat case_match; simpl; try done; apply IH; simpl; try lia; try done.
  unfold positional. by destruct (filename a).
Qed.

Lemma usage_exit_false a :
  usage_exit a = false <->
  arg_error a = false /\ do_help a = false /\ is_Some (filename a).
Proof.
  unfold usage_exit, is_Some.
  destruct (arg_error a), (do_help a), (filename a); simpl; split;
    try discriminate; try (intros (? & ? & ?); discriminate);
    try (intros (_ & _ & [? ?]); discriminate); eauto.
Qed.

Lemma default_last_cons {A} (cfg v : A) values :
  default v (last values) = default cfg (last (v :: values)).
Proof.
  destruct values as [|x l]; [done|]. change (last (v :: x :: l)) with (last (x :: l)).
  destruct (last_is_Some (x :: l)) as [_ [y ->]]; done.
Qed.

Lemma cache_options_dash v rest (a : arguments) :
  parse_args (list_ascii_of_string "--cache" :: v :: rest) a =
  parse_args rest (Parsed (filename a) (do_help a) (arg_error a) v).
Proof. reflexivity. Qed.

(** Options after the file name. *)
Lemma parse_args_options values f cfg :
  parse_args (cache_options values) (Parsed (Some f) false false cfg) =
  Parsed (Some f) false false (default cfg (last values)).
Proof.
  revert cfg. induction values as [|v values IH]; intros cfg; [done|].
  cbn [cache_options]. rewrite cache_options_dash. cbn [filename do_help arg_error].
  rewrite IH. f_equal. apply default_last_cons.
Qed.

(** The options before the file name are taken one by one, whatever the
    configuration seen so far. *)
Lemma parse_args_around before f after cfg :
  starts_with_dash f = false ->
  parse_args (cache_options before ++ f :: cache_options after)
             (Parsed None false false cfg) =
  Parsed (Some f) false false (default cfg (last (before ++ after))).
Proof.
  intros Hf. revert cfg. induction before as [|v before IH]; intros cfg.
  - simpl. rewrite Hf. unfold positional. simpl.
    apply parse_args_options.
  - cbn [cache_options app]. rewrite cache_options_dash.
    cbn [filename do_help arg_error]. rewrite IH. f_equal.
    apply default_last_cons.
Qed.

(** X18: the file name and any number of [--cache] options may come in any
    order, and the last [--cache] value is the one used; the value is taken
    as it is, even when it looks like an option.  These command lines pass
    the usage check. *)
Theorem parse_args_any_order before f after :
  starts_with_dash f = false ->
  parse_args (cache_options before ++ f :: cache_options after)
             no_arguments =
  Parsed (Some f) false false (default [] (last (before ++ after))).
Proof. intros Hf. by apply parse_args_around. Qed.

Lemma usage_exit_error a : arg_error a = true -> usage_exit a = true.
Proof. unfold usage_exit. by intros ->. Qed.

Lemma usage_exit_help a : do_help a = true -> usage_exit a = true.
Proof. unfold usage_exit. intros ->. by rewrite orb_true_r. Qed.

Lemma parse_args_accepted argv :
  forall a,
    arg_error a = false -> do_help a = false ->
    usage_exit (parse_args argv a) = false ->
    match filename a with
    | None =>
        exists before f after,
          starts_with_dash f = false /\
          argv = cache_options before ++ f :: cache_options after
    | Some _ => exists values, argv = cache_options values
    end.
Proof.
  induction argv as [argv IH] using argv_ind. intros [fn h e cfg]. simpl.
  intros -> -> Hok. destruct argv as [|arg rest].
  - simpl in Hok. destruct fn; [by exists []|done].
  - simpl in Hok. destruct (starts_with_dash arg) eqn:Hdash.
    + destruct (is_help arg).
      { rewrite usage_exit_help in Hok; [done|]. by apply parse_args_help. }
      case_bool_decide as Hcache.
      * subst arg. destruct rest as [|v rest]; [done|].
        apply IH in Hok; [|simpl; lia|done..]. simpl in Hok.
        destruct fn.
        -- destruct Hok as [values ->]. by exists (v :: values).
        -- destruct Hok as (before & f & after & Hf & ->).
           by exists (v :: before), f, after.
      * rewrite usage_exit_error in Hok; [done|]. by apply parse_args_error.
    + unfold positional in Hok. simpl in Hok. destruct fn.
      * rewrite usage_exit_error in Hok; [done|]. by apply parse_args_error.
      * apply IH in Hok; [|simpl; lia|done..]. simpl in Hok.
        destruct Hok as [values ->]. by exists [], arg, values.
Qed.

Lemma parse_args_plain_error argv a :
  arg_error a = true -> arg_error (parse_args_plain argv a) = true.
Proof.
  revert a. induction argv as [|arg rest IH]; intros a Ha; simpl; [done|].
  repeat case_match; apply IH; simpl; try done.
  unfold positional. by destruct (filename a).
Qed.

Lemma parse_args_plain_help argv a :
  do_help a = true -> do_help (parse_args_plain argv a) = true.
Proof.
  revert a. induction argv as [|arg rest IH]; intros a Ha; simpl; [done|].
  repeat case_match; apply IH; simpl; try done.
  unfold positional. by destruct (filename a).
Qed.

(** X19: which command lines get past the usage message.  The program with
    caches accepts exactly the command lines made of one argument without a
    leading dash and any number of [--cache value] pairs around it; the
    plain program accepts exactly the command lines that are one such
    argument.  Everything else, [-h] and [--help] included, prints the
    usage message and returns 1. *)
Theorem usage_check argv :
  (usage_exit (parse_args argv no_arguments) = false <->
   exists before f after,
     starts_with_dash f = false /\
     argv = cache_options before ++ f :: cache_options after) /\
  (usage_exit (parse_args_plain argv no_arguments) = false <->
   exists f, starts_with_dash f = false /\ argv = [f]).
Proof.
  split; split.
  - intros Hok. by apply (parse_args_accepted argv no_arguments).
  - intros (before & f & after & Hf & ->).
    unfold no_arguments. by rewrite parse_args_around.
  - unfold no_arguments. destruct argv as [|arg rest]; [done|]. simpl.
    destruct (starts_with_dash arg) eqn:Hdash.
    + destruct (is_help arg); intros Hok.
      * rewrite usage_exit_help in Hok; [done|].
        by apply parse_args_plain_help.
      * rewrite usage_exit_error in Hok; [done|].
        by apply parse_args_plain_error.
    + unfold positional. simpl. destruct rest as [|arg2 rest]; [by eauto|].
      simpl. destruct (starts_with_dash arg2); [destruct (is_help arg2)|];
        intros Hok.
      * rewrite usage_exit_help in Hok; [done|].
        by apply parse_args_plain_help.
      * rewrite usage_exit_error in Hok; [done|].
        by apply parse_args_plain_error.
      * rewrite usage_exit_error in Hok; [done|].
        by apply parse_args_plain_error.
  - intros (f & Hf & ->). simpl. by rewrite Hf.
Qed.

(** * The final state *)

(** ** Numbers as [print_state] writes them *)

Lemma decimal_digits_length fuel n acc :
  0 <= n < 2 ^ Z.of_nat (S fuel) ->
  exists ds,
    decimal_digits (S fuel) n acc = ds ++ acc /\
    (length ds = 1%nat \/ 10 ^ (Z.of_nat (length ds) - 1) <= n).
Proof.
  revert n acc. induction fuel as [|fuel IH]; intros n acc Hn.
  { exists [ascii_of_nat (Z.to_nat (48 + n mod 10))]. cbn [decimal_digits].
    change (2 ^ Z.of_nat 1) with 2 in Hn.
    rewrite (proj2 (Z.ltb_lt n 10)) by lia. split; [done|by left]. }
  change (decimal_digits (S (S fuel)) n acc)
    with (if n <? 10
          then ascii_of_nat (Z.to_nat (48 + n mod 10)) :: acc
          else decimal_digits (S fuel) (n / 10)
                 (ascii_of_nat (Z.to_nat (48 + n mod 10)) :: acc)).
  destruct (Z.ltb_spec n 10) as [Hlt|Hge].
  { exists [ascii_of_nat (Z.to_nat (48 + n mod 10))]. split; [done|by left]. }
  assert (0 <= n / 10 < 2 ^ Z.of_nat (S fuel)) as Hrec.
  { rewrite (Nat2Z.inj_succ (S fuel)), Z.pow_succ_r in Hn by lia. lia. }
  destruct (IH (n / 10)
              (ascii_of_nat (Z.to_nat (48 + n mod 10)) :: acc) Hrec)
    as (ds & -> & Hlen).
  exists (ds ++ [ascii_of_nat (Z.to_nat (48 + n mod 10))]).
  split; [by rewrite <- app_assoc|]. right.
  rewrite length_app. simpl.
  replace (Z.of_nat (length ds + 1) - 1)
    with (Z.succ (Z.of_nat (length ds) - 1)) by lia.
  destruct Hlen as [->|Hpow]; [simpl; lia|].
  destruct (decide (length ds = 0%nat)) as [E|E].
  { rewrite E. change (10 ^ Z.succ (Z.of_nat 0 - 1)) with 1. lia. }
  rewrite Z.pow_succ_r by lia. lia.
Qed.

Lemma decimal_length n : 0 <= n < 65536 -> (length (decimal n) <= 5)%nat.
Proof.
  intros Hn. unfold decimal.
  destruct (decimal_digits_length (Z.to_nat (Z.log2 n)) n [])
    as (ds & -> & Hlen).
  { split; [lia|]. rewrite Nat2Z.inj_succ, Z2Nat.id by apply Z.log2_nonneg.
    destruct (Z.eq_dec n 0) as [->|]; [done|].
    apply Z.log2_spec. lia. }
  rewrite app_nil_r. destruct Hlen as [->|Hpow]; [lia|].
  destruct (decide (length ds <= 5)%nat) as [|Hbig]; [done|].
  assert (10 ^ 5 <= 10 ^ (Z.of_nat (length ds) - 1)).
  { apply Z.pow_le_mono_r; lia. }
  change (10 ^ 5) with 100000 in *. lia.
Qed.

Lemma setw_length width fill s :
  (length s <= width)%nat -> length (setw width fill s) = width.
Proof.
  intros Hs. unfold setw. rewrite length_app, length_replicate. lia.
Qed.

Lemma skip_space_fill k s : skip_space (replicate k space ++ s) = skip_space s.
Proof. induction k as [|k IH]; simpl; done. Qed.

Lemma stoi_fill k s : stoi (replicate k space ++ s) = stoi s.
Proof. unfold stoi. by rewrite skip_space_fill. Qed.

(** The same for the hexadecimal digits. *)
Lemma hex_digit_value_digit d :
  0 <= d < 16 -> hex_digit_value (hex_digit d) = d.
Proof.
  intros Hd. unfold hex_digit_value, hex_digit.
  rewrite nat_ascii_embedding by (destruct (Z.ltb_spec d 10); lia).
  destruct (Z.ltb_spec d 10).
  - rewrite (proj2 (Z.ltb_lt _ 58)) by lia. lia.
  - rewrite (proj2 (Z.ltb_ge _ 58)) by lia. lia.
Qed.

Lemma hex_digits_spec fuel n acc :
  0 <= n < 2 ^ Z.of_nat (S fuel) ->
  exists ds,
    hex_digits (S fuel) n acc = ds ++ acc /\
    (length ds = 1%nat \/ 16 ^ (Z.of_nat (length ds) - 1) <= n) /\
    forall rest a,
      foldl (fun acc c => 16 * acc + hex_digit_value c) a (ds ++ rest) =
      foldl (fun acc c => 16 * acc + hex_digit_value c)
            (a * 16 ^ Z.of_nat (length ds) + n) rest.
Proof.
  revert n acc. induction fuel as [|fuel IH]; intros n acc Hn.
  { exists [hex_digit (n mod 16)]. cbn [hex_digits].
    change (2 ^ Z.of_nat 1) with 2 in Hn.
    rewrite (proj2 (Z.ltb_lt n 16)) by lia. split; [done|].
    split; [by left|]. intros rest a. simpl.
    rewrite hex_digit_value_digit by lia. f_equal. lia. }
  change (hex_digits (S (S fuel)) n acc)
    with (if n <? 16 then hex_digit (n mod 16) :: acc
          else hex_digits (S fuel) (n / 16) (hex_digit (n mod 16) :: acc)).
  destruct (Z.ltb_spec n 16) as [Hlt|Hge].
  { exists [hex_digit (n mod 16)]. split; [done|]. split; [by left|].
    intros rest a. simpl. rewrite hex_digit_value_digit by lia.
    f_equal. lia. }
  assert (0 <= n / 16 < 2 ^ Z.of_nat (S fuel)) as Hrec.
  { rewrite (Nat2Z.inj_succ (S fuel)), Z.pow_succ_r in Hn by lia. lia. }
  destruct (IH (n / 16) (hex_digit (n mod 16) :: acc) Hrec)
    as (ds & -> & Hlen & Hval).
  exists (ds ++ [hex_digit (n mod 16)]).
  split; [by rewrite <- app_assoc|]. split.
  - right. rewrite length_app. simpl.
    replace (Z.of_nat (length ds + 1) - 1)
      with (Z.succ (Z.of_nat (length ds) - 1)) by lia.
    destruct Hlen as [->|Hpow]; [simpl; lia|].
    destruct (decide (length ds = 0%nat)) as [E|E].
    { rewrite E. change (16 ^ Z.succ (Z.of_nat 0 - 1)) with 1. lia. }
    rewrite Z.pow_succ_r by lia. lia.
  - intros rest a. rewrite <- app_assoc, Hval. simpl.
    rewrite hex_digit_value_digit by lia. f_equal.
    rewrite length_app. simpl. rewrite Nat2Z.inj_add. simpl Z.of_nat.
    rewrite Z.pow_add_r by lia. lia.
Qed.

Lemma hex_spec n :
  0 <= n < 65536 -> (length (hex n) <= 4)%nat /\ hex_value (hex n) = n.
Proof.
  intros Hn. unfold hex, hex_value.
  destruct (hex_digits_spec (Z.to_nat (Z.log2 n)) n [])
    as (ds & -> & Hlen & Hval).
  { split; [lia|]. rewrite Nat2Z.inj_succ, Z2Nat.id by apply Z.log2_nonneg.
    destruct (Z.eq_dec n 0) as [->|]; [done|].
    apply Z.log2_spec. lia. }
  rewrite app_nil_r. split.
  - destruct Hlen as [->|Hpow]; [lia|].
    destruct (decide (length ds <= 4)%nat) as [|Hbig]; [done|].
    assert (16 ^ 4 <= 16 ^ (Z.of_nat (length ds) - 1)).
    { apply Z.pow_le_mono_r; lia. }
    change (16 ^ 4) with 65536 in *. lia.
  - specialize (Hval [] 0). rewrite app_nil_r in Hval. rewrite Hval.
    simpl. lia.
Qed.

Lemma hex_value_fill k s :
  hex_value (replicate k "0"%char ++ s) = hex_value s.
Proof.
  unfold hex_value. rewrite foldl_app. f_equal.
  induction k as [|k IH]; simpl; [done|]. exact IH.
Qed.

(** ** The layout of the memory dump *)

Lemma print_words_list ws :
  forall pre post cr,
    print_words (length ws) (Z.of_nat (length pre)) (pre ++ ws ++ post) cr =
    print_list ws (Z.of_nat (length pre)) cr.
Proof.
  induction ws as [|w ws IH]; intros pre post cr; simpl; [done|].
  assert (aget (pre ++ w :: ws ++ post) (Z.of_nat (length pre)) = w) as ->.
  { unfold aget. rewrite Nat2Z.id. by rewrite list_lookup_middle. }
  replace (Z.of_nat (length pre) + 1)
    with (Z.of_nat (length (pre ++ [w])))
    by (rewrite length_app; simpl; lia).
  replace (pre ++ w :: ws ++ post) with ((pre ++ [w]) ++ ws ++ post)
    by (by rewrite <- app_assoc).
  by rewrite !IH.
Qed.

(** Words that fit before the eighth of a line are printed in a row. *)
Lemma print_list_within ws :
  forall more count cr,
    0 <= count -> count mod 8 + Z.of_nat (length ws) <= 7 ->
    print_list (ws ++ more) count cr =
    render ws ++ print_list more (count + Z.of_nat (length ws))
                   (match ws with [] => cr | _ => true end).
Proof.
  induction ws as [|w ws IH]; intros more count cr Hc Hfit.
  - simpl. by rewrite Z.add_0_r.
  - cbn [app print_list]. unfold render. rewrite fmap_cons. cbn [concat].
    rewrite (proj2 (Z.eqb_neq (count mod 8) 7)) by (simpl in Hfit; lia).
    rewrite IH by (simpl in Hfit; lia).
    rewrite <- !app_assoc. fold (render ws).
    replace (count + Z.of_nat (length (w :: ws)))
      with (count + 1 + Z.of_nat (length ws)) by (simpl length; lia).
    by destruct ws.
Qed.

Lemma print_list_line ws more count :
  0 <= count -> count mod 8 = 0 -> length ws = 8%nat ->
  print_list (ws ++ more) count false =
  dump_line ws ++ print_list more (count + 8) false.
Proof.
  intros Hc Hmod Hlen.
  destruct ws as [|a [|b [|c [|d [|e [|f [|g [|h [|? ?]]]]]]]]];
    simpl in Hlen; try lia.
  change ([a; b; c; d; e; f; g; h] ++ more)
    with ([a; b; c; d; e; f; g] ++ h :: more).
  rewrite print_list_within by (simpl length; lia).
  cbn [print_list]. simpl length.
  rewrite (proj2 (Z.eqb_eq ((count + Z.of_nat 7) mod 8) 7)) by lia.
  unfold dump_line, render. simpl. rewrite <- !app_assoc. simpl.
  repeat (f_equal; try lia).
Qed.

Lemma print_list_last ws count :
  0 <= count -> count mod 8 = 0 -> ws <> [] -> (length ws < 8)%nat ->
  print_list ws count false = dump_line ws.
Proof.
  intros Hc Hmod Hne Hlen.
  rewrite <- (app_nil_r ws) at 1.
  rewrite print_list_within by lia.
  by destruct ws.
Qed.

Lemma groups_of_8_nil fuel : groups_of_8 fuel [] = [].
Proof. by destruct fuel. Qed.

Lemma print_list_groups fuel :
  forall ws count,
    (length ws <= fuel)%nat -> 0 <= count -> count mod 8 = 0 ->
    print_list ws count false = concat (dump_line <$> groups_of_8 fuel ws).
Proof.
  induction fuel as [|fuel IH]; intros ws count Hlen Hc Hmod.
  - destruct ws; [done | simpl in Hlen; lia].
  - destruct ws as [|w ws]; [done|].
    cbn [groups_of_8]. rewrite fmap_cons. cbn [concat].
    destruct (decide (length (w :: ws) < 8)%nat) as [Hshort|Hlong].
    + rewrite take_ge, drop_ge, groups_of_8_nil by lia.
      rewrite app_nil_r. by apply print_list_last.
    + rewrite <- (take_drop 8 (w :: ws)) at 1.
      rewrite print_list_line by (rewrite ?length_take; lia).
      f_equal. apply IH; [rewrite length_drop; simpl in *; lia | lia | lia].
Qed.

(** X21. The memory dump of [print_state] is the first [memquantity] words
    of the memory in lines of eight, each word as four hexadecimal digits
    followed by a space, and every line, also a last one that is not full,
    closed by one end of line. *)
Theorem memory_dump_layout memory (memquantity : nat) :
  (memquantity <= length memory)%nat ->
  print_words memquantity 0 memory false =
  concat (dump_line <$> groups_of_8 memquantity (take memquantity memory)).
Proof.
  intros Hlen.
  pose proof (print_words_list (take memquantity memory) []
                (drop memquantity memory) false) as H.
  rewrite length_take, Nat.min_l in H by done.
  cbn [app length] in H. rewrite take_drop in H.
  change (Z.of_nat 0) with 0 in H. rewrite H.
  apply print_list_groups; [rewrite length_take; lia | lia | done].
Qed.

(** ** The final state is read back *)

Lemma expect_app text s : expect text (text ++ s) = Some s.
Proof.
  induction text as [|c text IH]; simpl; [done|].
  by rewrite Ascii.eqb_refl.
Qed.

(** A number below 65536 in a field of five characters. *)
Lemma read_field_decimal v s :
  word v -> read_field 5 (setw 5 space (decimal v) ++ s) = Some (v, s).
Proof.
  intros Hv. unfold word in Hv. unfold read_field.
  assert (length (setw 5 space (decimal v)) = 5%nat) as Hlen
    by (apply setw_length; by apply decimal_length).
  rewrite take_app_length', drop_app_length' by done.
  unfold setw. rewrite stoi_fill, stoi_decimal by lia. done.
Qed.

Lemma read_regs_print regs todo :
  forall reg s,
    Forall word regs ->
    read_regs todo reg (print_regs todo reg regs ++ s) =
    Some ((fun i => aget regs (reg + i)) <$> seqZ 0 (Z.of_nat todo), s).
Proof.
  induction todo as [|todo IH]; intros reg s Hregs; [done|].
  assert (print_regs (S todo) reg regs ++ s =
          ([tab; "$"%char] ++ decimal reg ++ ["="%char])
          ++ setw 5 space (decimal (aget regs reg))
          ++ [newline] ++ print_regs todo (reg + 1) regs ++ s) as ->
    by (cbn [print_regs]; by rewrite <- !app_assoc).
  cbn [read_regs]. rewrite expect_app. cbn [mbind option_bind].
  rewrite read_field_decimal by (by apply aget_word).
  cbn [mbind option_bind]. rewrite expect_app. cbn [mbind option_bind].
  rewrite IH by done. cbn [mbind option_bind].
  rewrite Nat2Z.inj_succ.
  rewrite (seqZ_cons 0 (Z.succ (Z.of_nat todo))) by lia. rewrite fmap_cons.
  rewrite Z.add_0_r. do 3 f_equal.
  replace (Z.pred (Z.succ (Z.of_nat todo))) with (Z.of_nat todo) by lia.
  change (Z.succ 0) with (1 + 0).
  rewrite <- (fmap_add_seqZ 1 0), <- list_fmap_compose.
  apply list_fmap_ext. intros _ i _. simpl. f_equal. lia.
Qed.

(** No digit of the dump is an end of line. *)
Lemma hex_digit_not_newline d :
  0 <= d < 16 -> Ascii.eqb (hex_digit d) newline = false.
Proof.
  intros Hd.
  assert (d = 0 \/ d = 1 \/ d = 2 \/ d = 3 \/ d = 4 \/ d = 5 \/ d = 6 \/
          d = 7 \/ d = 8 \/ d = 9 \/ d = 10 \/ d = 11 \/ d = 12 \/
          d = 13 \/ d = 14 \/ d = 15) as Hcases by lia.
  repeat destruct Hcases as [->|Hcases]; try subst d; reflexivity.
Qed.

Lemma hex_digits_not_newline fuel :
  forall n acc,
    Forall (fun c => Ascii.eqb c newline = false) acc ->
    Forall (fun c => Ascii.eqb c newline = false) (hex_digits fuel n acc).
Proof.
  induction fuel as [|fuel IH]; intros n acc Hacc; simpl; [done|].
  assert (Forall (fun c => Ascii.eqb c newline = false)
                 (hex_digit (n mod 16) :: acc)) as Hacc'.
  { constructor; [|done]. apply hex_digit_not_newline. lia. }
  destruct (n <? 16); [done|by apply IH].
Qed.

(** A word of the dump: four characters, the first no end of line, whose
    value is the word. *)
Lemma hex_field w :
  word w ->
  exists c1 c2 c3 c4,
    setw 4 "0"%char (hex w) = [c1; c2; c3; c4] /\
    Ascii.eqb c1 newline = false /\ hex_value [c1; c2; c3; c4] = w.
Proof.
  intros Hw. unfold word in Hw. destruct (hex_spec w Hw) as [Hlen Hval].
  assert (length (setw 4 "0"%char (hex w)) = 4%nat) as H4
    by (by apply setw_length).
  assert (Forall (fun c => Ascii.eqb c newline = false)
                 (setw 4 "0"%char (hex w))) as Hall.
  { unfold setw. apply Forall_app. split.
    - by apply Forall_replicate.
    - by apply hex_digits_not_newline. }
  assert (hex_value (setw 4 "0"%char (hex w)) = w) as Hv
    by (unfold setw; by rewrite hex_value_fill).
  destruct (setw 4 "0"%char (hex w)) as [|c1 [|c2 [|c3 [|c4 [|? ?]]]]];
    try done.
  exists c1, c2, c3, c4. split; [done|]. split; [|done].
  by apply Forall_cons in Hall as [? _].
Qed.

Lemma read_words_nil fuel : read_words fuel [] = [].
Proof. by destruct fuel. Qed.

Lemma read_words_print ws :
  forall count cr fuel,
    Forall word ws -> (length (print_list ws count cr) <= fuel)%nat ->
    read_words fuel (print_list ws count cr) = ws.
Proof.
  induction ws as [|w ws IH]; intros count cr fuel Hws Hfuel.
  - simpl in *. destruct cr; [|apply read_words_nil].
    destruct fuel as [|fuel]; simpl in *; [lia|]. apply read_words_nil.
  - apply Forall_cons in Hws as [Hw Hws].
    destruct (hex_field w Hw) as (c1 & c2 & c3 & c4 & E & Hc1 & Hv).
    cbn [print_list] in *. rewrite E in *.
    destruct fuel as [|fuel]; [simpl in Hfuel; lia|].
    cbn [app read_words]. rewrite Hc1.
    change (take 4 (c1 :: c2 :: c3 :: c4 :: space :: ?x))
      with [c1; c2; c3; c4].
    change (drop 5 (c1 :: c2 :: c3 :: c4 :: space :: ?x)) with x.
    rewrite Hv. f_equal. simpl in Hfuel.
    destruct (count mod 8 =? 7).
    + destruct fuel as [|fuel]; [simpl in Hfuel; lia|].
      cbn [read_words]. change (Ascii.eqb newline newline) with true.
      cbn beta iota. apply IH; [done|]. simpl in Hfuel. lia.
    + apply IH; [done|]. lia.
Qed.

(** Eight registers are the registers 0 to 7. *)
Lemma regs_by_index regs :
  length regs = Z.to_nat NUM_REGS ->
  (fun i => aget regs (0 + i)) <$> seqZ 0 (Z.of_nat (Z.to_nat NUM_REGS)) =
  regs.
Proof.
  intros Hlen.
  destruct regs as [|a [|b [|c [|d [|e [|f [|g [|h [|? ?]]]]]]]]];
    try done.
Qed.

(** X20: nothing is lost in what [print_state] writes.  A reader that
    expects the text "Final state:" and the labels, takes [pc] and each of
    the eight registers from a field of exactly five characters with
    [stoi], and takes each word of the dump from exactly four hexadecimal
    digits, gets back [pc], the registers and the first [memquantity]
    words of memory. *)
Theorem print_state_words_read_back pc regs memory memquantity :
  word pc -> length regs = Z.to_nat NUM_REGS -> Forall word regs ->
  Forall word memory -> (memquantity <= length memory)%nat ->
  read_state (print_state pc regs memory memquantity) =
  Some (pc, regs, take memquantity memory).
Proof.
  intros Hpc Hlen Hregs Hmem Hq. unfold read_state.
  assert (print_state pc regs memory memquantity =
          (list_ascii_of_string "Final state:" ++ [newline] ++ [tab]
           ++ list_ascii_of_string "pc=")
          ++ setw 5 space (decimal pc) ++ [newline]
          ++ print_regs (Z.to_nat NUM_REGS) 0 regs
          ++ print_words memquantity 0 memory false) as ->
    by (unfold print_state; by rewrite <- !app_assoc).
  rewrite expect_app. cbn [mbind option_bind].
  rewrite read_field_decimal by done. cbn [mbind option_bind].
  rewrite expect_app. cbn [mbind option_bind].
  rewrite read_regs_print by done. cbn [mbind option_bind].
  rewrite regs_by_index by done.
  pose proof (print_words_list (take memquantity memory) []
                (drop memquantity memory) false) as H.
  rewrite length_take, Nat.min_l in H by done.
  cbn [app length] in H. rewrite take_drop in H.
  change (Z.of_nat 0) with 0 in H. rewrite H.
  rewrite read_words_print; [done|by apply Forall_take|done].
Qed.

(** * Instances of the further properties *)

Lemma start_state_wf : state_wf (arch start_sim).
Proof.
  apply image_state_wf.
  - unfold word. lia.
  - apply Forall_replicate. unfold word. lia.
  - reflexivity.
  - change MEM_SIZE with 8192. simpl. lia.
Qed.

(** The start state of the sample run. *)
Lemma state_wf_invariant_witness :
  state_wf (arch start_sim) /\
  (forall instruction,
     state_wf (Plain.execute instruction (arch start_sim)).1).
Proof.
  split; [exact start_state_wf|].
  apply (proj1 (state_wf_invariant (arch start_sim) start_state_wf)).
Defined.

(** [addi $1, $0, -1] from the start state leaves 65535 in register 1. *)
Lemma offsets_are_signed_witness :
  length (regs_arr (arch start_sim)) = 8%nat /\
  aget (regs_arr (Plain.execute 8447 (arch start_sim)).1) 1 = 65535.
Proof.
  split; [reflexivity|].
  apply (proj1 (offsets_are_signed 8447 (arch start_sim) eq_refl));
    [reflexivity | vm_compute; discriminate].
Defined.

Lemma reg1_is_7_wf : state_wf reg1_is_7.
Proof.
  apply image_state_wf.
  - unfold word. lia.
  - repeat constructor; unfold word; lia.
  - reflexivity.
  - change MEM_SIZE with 8192. simpl. lia.
Qed.

(** [sw $1, 0($0)] and [lw $2, 0($0)] with 7 in register 1. *)
Lemma store_then_load_witness :
  (state_wf reg1_is_7 /\ opcode 41088 = 5 /\ opcode 33024 = 4 /\
   bits10_12 33024 = bits10_12 41088 /\ bits0_6 33024 = bits0_6 41088 /\
   bits7_9 33024 <> 0) /\
  aget (regs_arr (Plain.execute 33024 (Plain.execute 41088 reg1_is_7).1).1)
       (bits7_9 33024) = aget (regs_arr reg1_is_7) (bits7_9 41088).
Proof.
  assert (bits7_9 33024 <> 0) as Hne by (vm_compute; discriminate).
  split; [repeat split; try reflexivity; [apply reg1_is_7_wf..|exact Hne]|].
  apply (store_then_load 41088 33024 reg1_is_7 reg1_is_7_wf
           eq_refl eq_refl eq_refl eq_refl Hne).
Defined.

(** [jal 5] at address 0, then [jr $7]. *)
Lemma call_then_return_witness :
  (state_wf (arch start_sim) /\ opcode 24581 = 3 /\ opcode 7176 = 0 /\
   bits0_3 7176 = 8 /\ bits10_12 7176 = 7) /\
  pc (Plain.execute 24581 (arch start_sim)).1 = bits0_12 24581 /\
  aget (regs_arr (Plain.execute 24581 (arch start_sim)).1) 7 =
    u16 (pc (arch start_sim) + 1) /\
  pc (Plain.execute 7176 (Plain.execute 24581 (arch start_sim)).1).1 =
    u16 (pc (arch start_sim) + 1).
Proof.
  split; [repeat split; try reflexivity; apply start_state_wf|].
  apply (call_then_return 24581 7176 (arch start_sim) start_state_wf
           eq_refl eq_refl eq_refl eq_refl).
Defined.

Lemma unknown_first_fetch : unhandled_selector (fetch unknown_first).
Proof.
  change (fetch unknown_first) with 5.
  unfold unhandled_selector. change (Z.shiftr 5 13) with 0.
  change (Z.land 5 15) with 5. lia.
Qed.

(** A memory that starts with opcode 0 and selector 5. *)
Lemma unknown_selector_loops_forever_witness :
  unhandled_selector (fetch unknown_first) /\
  forall fuel, Plain.run fuel unknown_first = None.
Proof.
  split; [exact unknown_first_fetch|].
  apply (proj1 (unknown_selector_loops_forever unknown_first
                  unknown_first_fetch)).
Defined.

Lemma one_level_after_load_tidy : tidy one_level_after_load.
Proof.
  apply (cache_func_tidy 0 0 (fresh_cache [16; 2; 4]) [16; 2; 4] false
           one_level_after_load [Log_entry "L1" "MISS" 0 0 0]
           (fresh_cache_tidy _)); [change MEM_SIZE with 8192; lia|].
  reflexivity.
Qed.

(** A load at address 8 after the load at address 0: the block of address
    0 stays in row 0, beside the new one. *)
Lemma empty_slots_go_first_witness :
  (tidy one_level_after_load /\ 0 <= 8 < MEM_SIZE /\
   Block_new ∈ [Block_new; {| tag := 0 |}] /\
   {| tag := 0 |} ∈ [Block_new; {| tag := 0 |}] /\
   {| tag := 0 |} <> Block_new) /\
  {| tag := 0 |} ∈ [{| tag := 0 |}; {| tag := 1 |}].
Proof.
  assert (0 <= 8 < MEM_SIZE) as H8 by (change MEM_SIZE with 8192; lia).
  assert (Block_new ∈ [Block_new; {| tag := 0 |}]) as Hnew
    by apply list_elem_of_here.
  assert ({| tag := 0 |} ∈ [Block_new; {| tag := 0 |}]) as Hb
    by apply list_elem_of_further, list_elem_of_here.
  assert ({| tag := 0 |} <> Block_new) as Hne by discriminate.
  split;
    [exact (conj one_level_after_load_tidy
              (conj H8 (conj Hnew (conj Hb Hne))))|].
  apply (empty_slots_go_first 8 1 one_level_after_load [16; 2; 4] false
           {| levels_vec :=
                [{| rows_vec :=
                      [{| blocks_vec := [{| tag := 0 |}; {| tag := 1 |}];
                          associativity := 2 |};
                       {| blocks_vec := [Block_new; Block_new];
                          associativity := 2 |}];
                    blocksize := 4 |}] |}
           [Log_entry "L1" "MISS" 1 8 0] 0%nat 0
           [Block_new; {| tag := 0 |}] [{| tag := 0 |}; {| tag := 1 |}]
           {| tag := 0 |} one_level_after_load_tidy H8
           eq_refl eq_refl eq_refl Hnew Hb Hne).
Defined.

(** A load at address 1 after the load at address 0 on the fresh cache. *)
Lemma load_after_access_hits_witness :
  (cache_func 0 0 (fresh_cache [16; 2; 4]) [16; 2; 4] false =
     Some (one_level_after_load, [Log_entry "L1" "MISS" 0 0 0]) /\
   l1_slot [16; 2; 4] 1 = l1_slot [16; 2; 4] 0) /\
  exists c'' r t,
    l1_slot [16; 2; 4] 0 = Some (r, t) /\
    cache_func 1 7 one_level_after_load [16; 2; 4] false =
      Some (c'', [Log_entry "L1" "HIT" 7 1 r]).
Proof.
  split; [by split|].
  apply (load_after_access_hits 0 0 (fresh_cache [16; 2; 4]) [16; 2; 4]
           false one_level_after_load [Log_entry "L1" "MISS" 0 0 0] 1 7
           eq_refl eq_refl).
Defined.

(** Addresses 0 and 3 share a block of four cells. *)
Lemma load_in_same_block_hits_witness :
  (cache_wf [16; 2; 4] (fresh_cache [16; 2; 4]) /\
   [16; 2; 4] !! 2%nat = Some 4 /\ word 0 /\ word 3 /\ 3 / 4 = 0 / 4) /\
  exists c' log c'' r,
    cache_func 0 0 (fresh_cache [16; 2; 4]) [16; 2; 4] true =
      Some (c', log) /\
    cache_func 3 1 c' [16; 2; 4] false =
      Some (c'', [Log_entry "L1" "HIT" 1 3 r]).
Proof.
  assert (cache_wf [16; 2; 4] (fresh_cache [16; 2; 4])) as Hwf
    by apply fresh_cache_wf, valid_16_2_4.
  assert (word 0) as H0 by (unfold word; lia).
  assert (word 3) as H3 by (unfold word; lia).
  split; [exact (conj Hwf (conj eq_refl (conj H0 (conj H3 eq_refl))))|].
  apply (load_in_same_block_hits 0 0 (fresh_cache [16; 2; 4]) [16; 2; 4]
           true 4 3 1 Hwf eq_refl H0 H3 eq_refl).
Defined.

(** The store to address 0 on the fresh two-level cache leaves the levels
    in their shape. *)
Lemma access_frame_witness :
  cache_func 0 0 (fresh_cache two_levels) two_levels true =
    Some (two_levels_after_store,
          [Log_entry "L1" "SW" 0 0 0; Log_entry "L2" "SW" 0 0 0]) /\
  level_shape <$> levels_vec two_levels_after_store =
  level_shape <$> levels_vec (fresh_cache two_levels).
Proof.
  split; [reflexivity|].
  apply (access_frame 0 0 (fresh_cache two_levels) two_levels true
           two_levels_after_store
           [Log_entry "L1" "SW" 0 0 0; Log_entry "L2" "SW" 0 0 0] eq_refl).
Defined.

(** The block of address 0 after one more access to its row, in a row of
    two blocks. *)
Lemma recently_used_survives_witness :
  (cache_wf [16; 2; 4] (fresh_cache [16; 2; 4]) /\
   [16; 2; 4] !! 1%nat = Some 2 /\
   maps_to [16; 2; 4] (0, 0, false) 0 0 /\
   Forall (fun x : Z * Z * bool => word x.1.1) [(8, 1, false)] /\
   Nat.lt (accesses_to_row [16; 2; 4] 0 [(8, 1, false)]) (Z.to_nat 2)) /\
  exists c' row i,
    access_all [16; 2; 4] [(0, 0, false); (8, 1, false)]
      (fresh_cache [16; 2; 4]) = Some c' /\
    blocks_at c' 0 0 = Some row /\ find_tag row 0 0 = Some i.
Proof.
  assert (cache_wf [16; 2; 4] (fresh_cache [16; 2; 4])) as Hwf
    by apply fresh_cache_wf, valid_16_2_4.
  assert (maps_to [16; 2; 4] (0, 0, false) 0 0) as Hm
    by (split; [unfold word; simpl; lia|reflexivity]).
  assert (Forall (fun x : Z * Z * bool => word x.1.1) [(8, 1, false)])
    as Hxs by (repeat constructor; unfold word; simpl; lia).
  assert (Nat.lt (accesses_to_row [16; 2; 4] 0 [(8, 1, false)])
            (Z.to_nat 2)) as Hlt by (vm_compute; lia).
  split; [exact (conj Hwf (conj eq_refl (conj Hm (conj Hxs Hlt))))|].
  apply (recently_used_survives [16; 2; 4] (fresh_cache [16; 2; 4])
           (0, 0, false) [(8, 1, false)] 0 0 2 Hwf eq_refl Hm Hxs Hlt).
Defined.

(** The file of the one line [j0_line], loaded into zeroed memory. *)
Lemma load_machine_code_spec_witness :
  length (replicate (Z.to_nat MEM_SIZE) 0) = Z.to_nat MEM_SIZE /\
  (load_machine_code sample_scan_line [j0_line]
     (replicate (Z.to_nat MEM_SIZE) 0) = Loaded j0_image <->
   exists words,
     numbered sample_scan_line 0 [j0_line] words /\
     (length words <= Z.to_nat MEM_SIZE)%nat /\
     j0_image =
       (u16 <$> words) ++ drop (length words)
                            (replicate (Z.to_nat MEM_SIZE) 0)).
Proof.
  split; [apply length_replicate|].
  apply (load_machine_code_spec sample_scan_line [j0_line]
           (replicate (Z.to_nat MEM_SIZE) 0) j0_image).
  apply length_replicate.
Defined.

(** A line the scanner does not know, after [j0_line]. *)
Lemma load_machine_code_first_error_witness :
  (numbered sample_scan_line 0 [j0_line] [16384] /\
   (length [j0_line] <= Z.to_nat MEM_SIZE)%nat) /\
  (sample_scan_line "halt"%string = No_match ->
   load_machine_code sample_scan_line [j0_line; "halt"%string] [] =
   Cant_parse "halt"%string).
Proof.
  assert (numbered sample_scan_line 0 [j0_line] [16384]) as Hn
    by (split; [reflexivity|exact I]).
  assert (length [j0_line] <= Z.to_nat MEM_SIZE)%nat as Hlen
    by (change MEM_SIZE with 8192; simpl; lia).
  split; [exact (conj Hn Hlen)|].
  apply (proj1 (load_machine_code_first_error sample_scan_line [j0_line]
                  [16384] "halt"%string [] [] Hn Hlen)).
Defined.

(** The configuration of the sample runs. *)
Lemma parse_cache_config_decimal_witness :
  ([16; 2; 4] <> [] /\ Forall (fun n => 0 <= n < 2 ^ 31) [16; 2; 4]) /\
  parse_cache_config (list_ascii_of_string "16,2,4") =
    Returned (Some [16; 2; 4]).
Proof.
  assert (Forall (fun n => 0 <= n < 2 ^ 31) [16; 2; 4]) as Hall
    by (repeat constructor; lia).
  assert ([16; 2; 4] <> @nil Z) as Hne by discriminate.
  split; [exact (conj Hne Hall)|].
  apply (parse_cache_config_decimal [16; 2; 4] Hne Hall).
Defined.

(** Two [--cache] options around the file name; the second value looks
    like an option. *)
Lemma parse_args_any_order_witness :
  starts_with_dash (list_ascii_of_string "prog.bin") = false /\
  parse_args
    [list_ascii_of_string "--cache"; list_ascii_of_string "16,2,4";
     list_ascii_of_string "prog.bin";
     list_ascii_of_string "--cache"; list_ascii_of_string "-h"]
    no_arguments =
  Parsed (Some (list_ascii_of_string "prog.bin")) false false
         (list_ascii_of_string "-h").
Proof.
  split; [reflexivity|].
  apply (parse_args_any_order [list_ascii_of_string "16,2,4"]
           (list_ascii_of_string "prog.bin") [list_ascii_of_string "-h"]
           eq_refl).
Defined.

(** The start of the sample program with three loads, ten words dumped. *)
Lemma print_state_words_read_back_witness :
  (word 0 /\ length zero_regs = Z.to_nat NUM_REGS /\
   Forall word zero_regs /\ Forall word three_loads /\
   (10 <= length three_loads)%nat) /\
  read_state (print_state 0 zero_regs three_loads 10) =
  Some (0, zero_regs, take 10 three_loads).
Proof.
  assert (word 0) as H0 by (unfold word; lia).
  assert (Forall word zero_regs) as Hregs by (by apply Forall_replicate).
  destruct (image_wf [32896; 32904; 32896; 16387]
              ltac:(change MEM_SIZE with 8192; simpl; lia)) as [Hl Hmem].
  assert (10 <= length three_loads)%nat as Hlen
    by (unfold three_loads; rewrite Hl; change MEM_SIZE with 8192; lia).
  split; [exact (conj H0 (conj eq_refl (conj Hregs (conj Hmem Hlen))))|].
  apply (print_state_words_read_back 0 zero_regs three_loads 10
           H0 eq_refl Hregs Hmem Hlen).
Defined.

(** The first ten words of the sample program's memory: a line of eight
    and a line of two. *)
Lemma memory_dump_layout_witness :
  (10 <= length three_loads)%nat /\
  print_words 10 0 three_loads false =
  dump_line [32896; 32904; 32896; 16387; 0; 0; 0; 0] ++ dump_line [0; 0].
Proof.
  assert (10 <= length three_loads)%nat as Hlen.
  { unfold three_loads.
    rewrite (proj1 (image_wf [32896; 32904; 32896; 16387]
                      ltac:(change MEM_SIZE with 8192; simpl; lia))).
    change MEM_SIZE with 8192. lia. }
  split; [exact Hlen|].
  etrans; [apply (memory_dump_layout three_loads 10 Hlen)|reflexivity].
Defined.
